(** * ct_scan.py: detection pipeline of the CT-scan analyser

    A shallow embedding of the image pipeline of [ct_scan.py]
    (crop, intensity classification, windowed scan, compositing,
    remapping and lung-side location) and the properties of it that
    the specification states. *)

From Stdlib Require Import ZArith Lia Bool String.
From stdpp Require Import base tactics option list.

Local Open Scope Z_scope.

(** ** Exceptions and the result monad *)

Inductive error : Type :=
  | OutOfBounds          (* get_pixel / set_pixel outside the image *)
  | ZeroDivisionError.   (* integer division by zero *)

Inductive result (A : Type) : Type :=
  | Ok (a : A)
  | Raise (e : error).
Arguments Ok {A} a.
Arguments Raise {A} e.

#[global] Instance result_ret : MRet result := fun _ a => Ok a.
#[global] Instance result_bind : MBind result := fun _ _ f m =>
  match m with
  | Ok a => f a
  | Raise e => Raise e
  end.

(** A Python [for] loop whose body may raise: the state is threaded
    through the iterations, the first exception ends the loop. *)
Fixpoint for_in {A S : Type} (xs : list A) (body : A -> S -> result S) (s : S)
  : result S :=
  match xs with
  | [] => Ok s
  | x :: xs' => s' ← body x s; for_in xs' body s'
  end.

(** [range(start, stop, step)] for a positive step. *)
Definition py_range (start stop step : Z) : list Z :=
  (fun i : nat => start + Z.of_nat i * step)
    <$> seq 0 (Z.to_nat ((stop - start + step - 1) / step)).

Definition range (n : Z) : list Z := py_range 0 n 1.

(** ** Module constants *)

Definition INTENSITY_MIN : Z := 210.
Definition INTENSITY_MAX : Z := 245.
Definition AREA_SIZE : Z := 100.
Definition STEP_SIZE : Z := 50.
Definition IMAGE_WIDTH : Z := 400.
Definition IMAGE_HEIGHT : Z := 300.

(** ** Images *)

Record rgb : Type := RGB { red : Z; green : Z; blue : Z }.

#[global] Instance rgb_eq_dec : EqDecision rgb.
Proof. solve_decision. Defined.

Definition white : rgb := RGB 255 255 255.
Definition pure_red : rgb := RGB 255 0 0.
Definition pure_green : rgb := RGB 0 255 0.

(** Modelled from the spec: the image library [simpleimage.SimpleImage]
    is imported by [ct_scan.py] and is not part of the source file.  The
    interface is the one of the specification's external interfaces:
    [width], [height], [get_pixel], [set_pixel], iteration over all the
    pixels and the [blank] constructor.  The pixel buffer is kept by
    rows: [px] has [height] rows of [width] colours, and the pixel at
    [(x, y)] is the entry [x] of the row [y]. *)
Record SimpleImage : Type := mkImage {
  width : Z;
  height : Z;
  px : list (list rgb)
}.

(** A pixel handed out by [get_pixel] or by iteration is a reference to
    a position of its image: it carries its coordinates, and its colour
    is the one the image has at that position when it is read. *)
Record Pixel : Type := mkPixel { pixel_x : Z; pixel_y : Z }.

#[global] Instance Pixel_eq_dec : EqDecision Pixel.
Proof. solve_decision. Defined.

Definition wf_image (img : SimpleImage) : Prop :=
  0 <= width img /\ 0 <= height img /\
  length (px img) = Z.to_nat (height img) /\
  Forall (fun row => length row = Z.to_nat (width img)) (px img).

Definition valid_channel (v : Z) : Prop := 0 <= v <= 255.

Definition valid_rgb (c : rgb) : Prop :=
  valid_channel (red c) /\ valid_channel (green c) /\ valid_channel (blue c).

Definition valid_image (img : SimpleImage) : Prop :=
  wf_image img /\ Forall (Forall valid_rgb) (px img).

Definition in_bounds (img : SimpleImage) (x y : Z) : bool :=
  (0 <=? x) && (x <? width img) && (0 <=? y) && (y <? height img).

Definition lookup_px (img : SimpleImage) (x y : Z) : option rgb :=
  row ← px img !! Z.to_nat y; row !! Z.to_nat x.

(** The colour stored at [(x, y)]. *)
Definition peek (img : SimpleImage) (x y : Z) : rgb :=
  default (RGB 0 0 0) (lookup_px img x y).

(** The buffer store [px[x, y] = c]. *)
Definition poke (img : SimpleImage) (x y : Z) (c : rgb) : SimpleImage :=
  mkImage (width img) (height img)
          (alter (fun row => <[Z.to_nat x := c]> row) (Z.to_nat y) (px img)).

Definition blank (w h : Z) : SimpleImage :=
  mkImage w h (replicate (Z.to_nat h) (replicate (Z.to_nat w) white)).

Definition get_pixel (img : SimpleImage) (x y : Z) : result Pixel :=
  if in_bounds img x y then Ok (mkPixel x y) else Raise OutOfBounds.

Definition pixel_rgb (img : SimpleImage) (p : Pixel) : rgb :=
  peek img (pixel_x p) (pixel_y p).

(** [set_pixel(x, y, pixel)] stores the three channels read from
    [pixel]; here the colour read is passed. *)
Definition set_pixel (img : SimpleImage) (x y : Z) (c : rgb)
  : result SimpleImage :=
  if in_bounds img x y then Ok (poke img x y c) else Raise OutOfBounds.

(** The channel setters of a pixel store into its image, clamping the
    value to a byte. *)
Definition clamp (v : Z) : Z :=
  if v <? 0 then 0 else if 256 <=? v then 255 else v.

Definition set_red (img : SimpleImage) (p : Pixel) (v : Z) : SimpleImage :=
  let c := pixel_rgb img p in
  poke img (pixel_x p) (pixel_y p) (RGB (clamp v) (green c) (blue c)).

Definition set_green (img : SimpleImage) (p : Pixel) (v : Z) : SimpleImage :=
  let c := pixel_rgb img p in
  poke img (pixel_x p) (pixel_y p) (RGB (red c) (clamp v) (blue c)).

Definition set_blue (img : SimpleImage) (p : Pixel) (v : Z) : SimpleImage :=
  let c := pixel_rgb img p in
  poke img (pixel_x p) (pixel_y p) (RGB (red c) (green c) (clamp v)).

(** [for pixel in image]: every pixel, row by row. *)
Definition pixels (img : SimpleImage) : list Pixel :=
  y ← range (height img); x ← range (width img); [mkPixel x y].

(** ** The pipeline *)

(** [highlight_areas]: grey-scale every pixel in place and force the
    pixels of the intensity band to green. *)
Definition highlight_pixel (img : SimpleImage) (pixel : Pixel) : SimpleImage :=
  let c := pixel_rgb img pixel in
  let average := (red c + green c + blue c) / 3 in
  let img := set_red img pixel average in
  let img := set_green img pixel average in
  let img := set_blue img pixel average in
  if (INTENSITY_MIN <=? average) && (average <=? INTENSITY_MAX) then
    let img := set_red img pixel 0 in
    let img := set_green img pixel 255 in
    set_blue img pixel 0
  else img.

Definition highlight_areas (image : SimpleImage) : SimpleImage :=
  foldl highlight_pixel image (pixels image).

(** [get_green_agv]: the two accumulators of the loop, then the floor
    division, which raises when the divisor is zero. *)
Definition green_step (image : SimpleImage) (acc : Z * Z) (pixel : Pixel)
  : Z * Z :=
  let '(green_tot, green_highlights) := acc in
  let g := green (pixel_rgb image pixel) in
  if negb (g =? 255) then (green_tot + g, green_highlights)
  else (green_tot, green_highlights + 1).

Definition floordiv (a b : Z) : result Z :=
  if b =? 0 then Raise ZeroDivisionError else Ok (a / b).

Definition get_green_agv (image : SimpleImage) : result Z :=
  let '(green_tot, green_highlights) :=
    foldl (green_step image) (0, 0) (pixels image) in
  floordiv green_tot (width image * height image - green_highlights).

(** The sensitivity band chosen in [scan_area] from the whole-image
    average. *)
Definition select_band (image_green_avg : Z) : Z * Z :=
  if (80 <? image_green_avg) && (image_green_avg <? 85) then (108, 110)
  else if (130 <? image_green_avg) && (image_green_avg <? 135) then (140, 142)
  else if (105 <? image_green_avg) && (image_green_avg <? 110) then (186, 188)
  else (10, 20).

(** Two nested [for] loops over fixed ranges. *)
Definition for_in2 {S : Type} (xs ys : list Z) (body : Z -> Z -> S -> result S)
  (s : S) : result S :=
  for_in xs (fun x s => for_in ys (fun y s => body x y s) s) s.

(** [get_area]: copy the window at offset [(n, m)] into a fresh area,
    row by row. *)
Definition get_area_body (image : SimpleImage) (n m : Z) (y x : Z)
  (area : SimpleImage) : result SimpleImage :=
  pixel ← get_pixel image (x + n) (y + m);
  set_pixel area x y (pixel_rgb image pixel).

Definition get_area (image : SimpleImage) (n m : Z) : result SimpleImage :=
  for_in2 (range AREA_SIZE) (range AREA_SIZE) (get_area_body image n m)
          (blank AREA_SIZE AREA_SIZE).

(** [scan_area]: the loop that runs when the area average lies in the
    band.  [pixel] is a pixel of [area], so the three stores of the
    border branch change [area] itself; [highlight] receives the colour
    the pixel had before them and is dropped at the end. *)
Definition on_border (pixel : Pixel) : bool :=
  (pixel_y pixel =? 0) || (pixel_y pixel =? AREA_SIZE - 1) ||
  (pixel_x pixel =? 0) || (pixel_x pixel =? AREA_SIZE - 1).

Definition scan_area_body (x y : Z) (st : SimpleImage * SimpleImage)
  : result (SimpleImage * SimpleImage) :=
  let '(area, highlight) := st in
  pixel ← get_pixel area x y;
  highlight ← set_pixel highlight x y (pixel_rgb area pixel);
  if on_border pixel then
    let area := set_red area pixel 255 in
    let area := set_green area pixel 0 in
    let area := set_blue area pixel 0 in
    Ok (area, highlight)
  else Ok (area, highlight).

(** The part of [scan_area] after the two averages are known. *)
Definition scan_area_with (area : SimpleImage) (area_green_avg image_green_avg : Z)
  : result (SimpleImage * Z) :=
  let case_count := 0 in
  let '(sensitivity_min, sensitivity_max) := select_band image_green_avg in
  if (sensitivity_min <=? area_green_avg) && (area_green_avg <=? sensitivity_max)
  then
    let case_count := case_count + 1 in
    '(area, _) ← for_in2 (range AREA_SIZE) (range AREA_SIZE) scan_area_body
                   (area, blank AREA_SIZE AREA_SIZE);
    Ok (area, case_count)
  else Ok (area, case_count).

Definition scan_area (area image : SimpleImage) : result (SimpleImage * Z) :=
  area_green_avg ← get_green_agv area;
  image_green_avg ← get_green_agv image;
  scan_area_with area area_green_avg image_green_avg.

(** [add_area]: copy [image] into a fresh image, then, for every
    position of the area, store again the pixel of [image] at that
    position and store the pixel of [red_area] at the shifted
    position. *)
Definition copy_body (image : SimpleImage) (x y : Z) (new_image : SimpleImage)
  : result SimpleImage :=
  pixel ← get_pixel image x y;
  set_pixel new_image x y (pixel_rgb image pixel).

Definition add_area_body (image red_area : SimpleImage) (n m : Z) (x y : Z)
  (new_image : SimpleImage) : result SimpleImage :=
  pixel ← get_pixel image x y;
  new_image ← set_pixel new_image x y (pixel_rgb image pixel);
  pixel ← get_pixel red_area x y;
  set_pixel new_image (x + n) (y + m) (pixel_rgb red_area pixel).

Definition add_area (image red_area : SimpleImage) (n m : Z)
  : result SimpleImage :=
  new_image ← for_in2 (range (width image)) (range (height image))
                (copy_body image) (blank (width image) (height image));
  for_in2 (range AREA_SIZE) (range AREA_SIZE)
          (add_area_body image red_area n m) new_image.

(** [find_cases]: the scan.  The outer range is computed once from the
    image that is passed in; the inner range and all the rest use the
    image that [add_area] returned last. *)
Definition find_cases_body (x y : Z) (st : SimpleImage * Z)
  : result (SimpleImage * Z) :=
  let '(image, case_count) := st in
  scanned_area ← get_area image x y;
  '(red_area, found) ← scan_area scanned_area image;
  let case_count := case_count + found in
  image ← add_area image red_area x y;
  Ok (image, case_count).

Definition find_cases (image : SimpleImage) : result (SimpleImage * Z) :=
  let case_count := 0 in
  for_in (py_range 0 (width image - AREA_SIZE / 2) STEP_SIZE)
    (fun x st =>
       for_in (py_range 0 (height (fst st) - AREA_SIZE / 2) STEP_SIZE)
         (fun y st => find_cases_body x y st) st)
    (image, case_count).

(** The variant of [find_cases] that the specification proposes: the
    whole-image average is computed once, before the scan, and used for
    every window. *)
Definition find_cases_hoisted_body (image_green_avg : Z) (x y : Z)
  (st : SimpleImage * Z) : result (SimpleImage * Z) :=
  let '(image, case_count) := st in
  scanned_area ← get_area image x y;
  area_green_avg ← get_green_agv scanned_area;
  '(red_area, found) ← scan_area_with scanned_area area_green_avg image_green_avg;
  let case_count := case_count + found in
  image ← add_area image red_area x y;
  Ok (image, case_count).

Definition find_cases_hoisted (image : SimpleImage) : result (SimpleImage * Z) :=
  image_green_avg ← get_green_agv image;
  let case_count := 0 in
  for_in (py_range 0 (width image - AREA_SIZE / 2) STEP_SIZE)
    (fun x st =>
       for_in (py_range 0 (height (fst st) - AREA_SIZE / 2) STEP_SIZE)
         (fun y st => find_cases_hoisted_body image_green_avg x y st) st)
    (image, case_count).

(** [remove_green]: [original] is the image that is loaded again from
    the file name. *)
Definition remove_green_body (image : SimpleImage) (x y : Z)
  (new_image : SimpleImage) : result SimpleImage :=
  pixel ← get_pixel image x y;
  if red (pixel_rgb image pixel) =? 255 then
    set_pixel new_image
      (x + (width new_image - IMAGE_WIDTH) / 2)
      (y + (height new_image - IMAGE_HEIGHT) / 2)
      (pixel_rgb image pixel)
  else Ok new_image.

Definition remove_green (image original : SimpleImage) : result SimpleImage :=
  for_in2 (range (width image)) (range (height image))
          (remove_green_body image) original.

(** [locate_cases]: the two lists of the loop, then the labels. *)
Definition is_pure_red (c : rgb) : bool :=
  (red c =? 255) && (green c =? 0) && (blue c =? 0).

Definition locate_body (image : SimpleImage) (x y : Z) (st : list Z * list Z)
  : result (list Z * list Z) :=
  let '(left_xs, right_xs) := st in
  pixel ← get_pixel image x y;
  let c := pixel_rgb image pixel in
  if (pixel_x pixel <? width image / 2) && (red c =? 255) && (green c =? 0)
     && (blue c =? 0)
  then Ok (left_xs ++ [pixel_x pixel], right_xs)
  else if (pixel_x pixel >? width image / 2) && (red c =? 255) && (green c =? 0)
          && (blue c =? 0)
  then Ok (left_xs, right_xs ++ [pixel_x pixel])
  else Ok (left_xs, right_xs).

Definition locate_lists (image : SimpleImage) : result (list Z * list Z) :=
  for_in2 (range (width image)) (range (height image)) (locate_body image)
          ([], []).

Definition nonempty {A : Type} (l : list A) : bool :=
  match l with [] => false | _ => true end.

Definition locate_cases (image : SimpleImage) : result (list string) :=
  '(left_xs, right_xs) ← locate_lists image;
  let tot_cases := [] in
  let tot_cases := if nonempty left_xs then tot_cases ++ ["left"%string] else tot_cases in
  let tot_cases := if nonempty right_xs then tot_cases ++ ["right"%string] else tot_cases in
  Ok tot_cases.

(** [crop_image]: the centred 400x300 crop. *)
Definition crop_body (image : SimpleImage) (x y : Z) (new_image : SimpleImage)
  : result SimpleImage :=
  let old_x := x + (width image - IMAGE_WIDTH) / 2 in
  let old_y := y + (height image - IMAGE_HEIGHT) / 2 in
  pixel ← get_pixel image old_x old_y;
  set_pixel new_image x y (pixel_rgb image pixel).

Definition crop_image (image : SimpleImage) : result SimpleImage :=
  if (width image =? IMAGE_WIDTH) && (height image =? IMAGE_HEIGHT) then Ok image
  else for_in2 (range IMAGE_WIDTH) (range IMAGE_HEIGHT) (crop_body image)
               (blank IMAGE_WIDTH IMAGE_HEIGHT).

(** The image all of whose pixels have the colour [c]. *)
Definition uniform (w h : Z) (c : rgb) : SimpleImage :=
  mkImage w h (replicate (Z.to_nat h) (replicate (Z.to_nat w) c)).

(** The image stages of [main]: [original] is the image of the file,
    which [main] loads at the start and [remove_green] loads again;
    showing the images, the printed report and the canvas are left
    out.  The result is the final image, the case count and the labels
    that [print_report] gets from [locate_cases]. *)
Definition main_pipeline (original : SimpleImage)
  : result (SimpleImage * Z * list string) :=
  cropped_image ← crop_image original;
  let green_highlights := highlight_areas cropped_image in
  '(red_highlights, case_count) ← find_cases green_highlights;
  final_image ← remove_green red_highlights original;
  tot_cases ← locate_cases final_image;
  Ok (final_image, case_count, tot_cases).

(** ** The quantities the specification names *)

(** All the colours of an image, in buffer order. *)
Definition all_colours (img : SimpleImage) : list rgb := mjoin (px img).

(** The green values of the pixels that are not candidate markers. *)
Definition unmarked_greens (img : SimpleImage) : list Z :=
  green <$> filter (fun c => green c <> 255) (all_colours img).

Definition sumZ (l : list Z) : Z := foldr Z.add 0 l.

(** The mean of a list of integers, truncated to an integer. *)
Definition truncated_mean (l : list Z) : Z :=
  Z.quot (sumZ l) (Z.of_nat (length l)).

(** The colour that [highlight_areas] leaves in place of [c]: the
    closed form of the stores of [highlight_pixel]. *)
Definition classify (c : rgb) : rgb :=
  let average := (red c + green c + blue c) / 3 in
  if (INTENSITY_MIN <=? average) && (average <=? INTENSITY_MAX) then pure_green
  else RGB (clamp average) (clamp average) (clamp average).

(** The pixels in the order of two nested loops, [x] outside and [y]
    inside. *)
Definition column_pixels (img : SimpleImage) : list Pixel :=
  x ← range (width img); y ← range (height img); [mkPixel x y].

(** A pure red pixel left, respectively right, of the midline
    [width // 2]. *)
Definition is_left (img : SimpleImage) (p : Pixel) : Prop :=
  pixel_x p < width img / 2 /\ pixel_rgb img p = pure_red.

Definition is_right (img : SimpleImage) (p : Pixel) : Prop :=
  pixel_x p > width img / 2 /\ pixel_rgb img p = pure_red.

#[global] Instance is_left_dec img p : Decision (is_left img p).
Proof. unfold is_left. apply _. Defined.

#[global] Instance is_right_dec img p : Decision (is_right img p).
Proof. unfold is_right. apply _. Defined.

(** ** Closed forms

    Pure descriptions of what the loops of the pipeline compute.  Each
    of them is proved below to be the result of the loop it stands
    for. *)

Fixpoint mapi {A B : Type} (f : Z -> A -> B) (i : Z) (l : list A) : list B :=
  match l with
  | [] => []
  | a :: l' => f i a :: mapi f (i + 1) l'
  end.

(** The image whose colour at [(x, y)] is [f x y c], where [c] is the
    colour [img] has there. *)
Definition map_xy (f : Z -> Z -> rgb -> rgb) (img : SimpleImage) : SimpleImage :=
  mkImage (width img) (height img)
          (mapi (fun y row => mapi (fun x c => f x y c) 0 row) 0 (px img)).

(** An image of size [W] x [H] whose colours are those of [F]. *)
Definition has_px (r : SimpleImage) (W H : Z) (F : Z -> Z -> rgb) : Prop :=
  wf_image r /\ width r = W /\ height r = H /\
  forall X Y, 0 <= X < W -> 0 <= Y < H -> peek r X Y = F X Y.

(** The position [(x, y)] has been visited when two nested loops, the
    inner one over [range h], are at the outer index [k] with [j] inner
    rounds done. *)
Definition visited (h k j x y : Z) : Prop :=
  0 <= x /\ 0 <= y < h /\ (x < k \/ (x = k /\ y < j)).

#[global] Instance visited_dec h k j x y : Decision (visited h k j x y).
Proof. unfold visited. apply _. Defined.

(** The window of [image] at offset [(n, m)], which [get_area]
    returns. *)
Definition crop (image : SimpleImage) (n m : Z) : SimpleImage :=
  mkImage AREA_SIZE AREA_SIZE
    ((fun row => take (Z.to_nat AREA_SIZE) (drop (Z.to_nat n) row))
       <$> take (Z.to_nat AREA_SIZE) (drop (Z.to_nat m) (px image))).

(** The outermost ring of an area: the condition of [scan_area]. *)
Definition ring (x y : Z) : bool := on_border (mkPixel x y).

(** The area with its ring turned red, which [scan_area] returns for
    a confirmed area. *)
Definition draw_border (area : SimpleImage) : SimpleImage :=
  map_xy (fun x y c => if ring x y then pure_red else c) area.

(** The positions that one round of the scan at offset [(n, m)] turns
    red when the window there is confirmed: the ring of the window,
    less, unless the offset is [(0, 0)], the part of it that lies in
    the top left square which [add_area] stores once more from the
    image it was given. *)
Definition painted (n m X Y : Z) : bool :=
  (n <=? X) && (X <? n + AREA_SIZE) && (m <=? Y) && (Y <? m + AREA_SIZE)
  && ring (X - n) (Y - m)
  && negb ((X <? AREA_SIZE) && (Y <? AREA_SIZE) && negb ((n =? 0) && (m =? 0))).

Definition paint_ring (image : SimpleImage) (n m : Z) : SimpleImage :=
  mkImage (width image) (height image)
    (mapi (fun Y row =>
             if (m <=? Y) && (Y <? m + AREA_SIZE)
             then mapi (fun X c => if painted n m X Y then pure_red else c) 0 row
             else row)
          0 (px image)).

(** The average of [get_green_agv], computed on the buffer: the sum and
    the number of the green values that are not 255. *)
Definition tally (acc : Z * Z) (c : rgb) : Z * Z :=
  if green c =? 255 then acc else (acc.1 + green c, acc.2 + 1).

Definition mean_green (img : SimpleImage) : result Z :=
  let '(green_tot, unmarked) :=
    foldl (fun acc row => foldl tally acc row) (0, 0) (px img) in
  floordiv green_tot unmarked.

(** The test of [scan_area]: the area average lies in the band chosen
    from the whole-image average. *)
Definition in_band (image_green_avg area_green_avg : Z) : bool :=
  let '(sensitivity_min, sensitivity_max) := select_band image_green_avg in
  (sensitivity_min <=? area_green_avg) && (area_green_avg <=? sensitivity_max).

(** One round of the scan. *)
Definition scan_step (n m : Z) (st : SimpleImage * Z)
  : result (SimpleImage * Z) :=
  let '(image, case_count) := st in
  area_green_avg ← mean_green (crop image n m);
  image_green_avg ← mean_green image;
  if in_band image_green_avg area_green_avg
  then Ok (paint_ring image n m, case_count + 1)
  else Ok (image, case_count).

(** One round of the scan with the average computed beforehand. *)
Definition scan_step_hoisted (image_green_avg : Z) (n m : Z)
  (st : SimpleImage * Z) : result (SimpleImage * Z) :=
  let '(image, case_count) := st in
  area_green_avg ← mean_green (crop image n m);
  if in_band image_green_avg area_green_avg
  then Ok (paint_ring image n m, case_count + 1)
  else Ok (image, case_count).

(** The offsets of the scan of an image of size [w] x [h], in the order
    of the two loops of [find_cases]. *)
Definition scan_offsets (w h : Z) : list (Z * Z) :=
  x ← py_range 0 (w - AREA_SIZE / 2) STEP_SIZE;
  y ← py_range 0 (h - AREA_SIZE / 2) STEP_SIZE;
  [(x, y)].

(** Every window of the scan lies inside the image. *)
Definition offsets_fit (w h : Z) : Prop :=
  Forall (fun xy : Z * Z => (0 <= xy.1 /\ xy.1 + AREA_SIZE <= w) /\
                            (0 <= xy.2 /\ xy.2 + AREA_SIZE <= h))
         (scan_offsets w h).

(** The scan as a sequence of rounds. *)
Definition scan (image : SimpleImage) : result (SimpleImage * Z) :=
  for_in (scan_offsets (width image) (height image))
         (fun xy st => scan_step xy.1 xy.2 st) (image, 0).

Definition scan_hoisted (image : SimpleImage) : result (SimpleImage * Z) :=
  image_green_avg ← mean_green image;
  for_in (scan_offsets (width image) (height image))
         (fun xy st => scan_step_hoisted image_green_avg xy.1 xy.2 st)
         (image, 0).

(** ** Concrete images *)

Definition grey (v : Z) : rgb := RGB v v v.

(** A 400x300 working image of grey 220, every pixel of which lies in
    the intensity band. *)
Definition all_220 : SimpleImage :=
  uniform IMAGE_WIDTH IMAGE_HEIGHT (grey 220).

(** A black 400x300 detection image with one white pixel at
    [(10, 20)] and no red pixel. *)
Definition white_dot : SimpleImage :=
  poke (uniform IMAGE_WIDTH IMAGE_HEIGHT (grey 0)) 10 20 white.

(** A small image with one unmarked and one marked pixel. *)
Definition two_pixels : SimpleImage :=
  mkImage 2 1 [[RGB 10 20 30; pure_green]].

(** The uniform working images of grey 15 and grey 95: neither value is
    in the intensity band, so classification leaves them unmarked. *)
Definition uniform_15 : SimpleImage :=
  uniform IMAGE_WIDTH IMAGE_HEIGHT (grey 15).

Definition uniform_95 : SimpleImage :=
  uniform IMAGE_WIDTH IMAGE_HEIGHT (grey 95).

(** A working image of grey 15 on the columns 0..99 of the rows 0..149
    and of grey 95 elsewhere; its green average is exactly 85. *)
Definition dark_corner : SimpleImage :=
  mkImage IMAGE_WIDTH IMAGE_HEIGHT
    (replicate 150 (replicate 100 (grey 15) ++ replicate 300 (grey 95))
     ++ replicate 150 (replicate 400 (grey 95))).

(** Well-formedness as a test. *)
Definition wf_imageb (img : SimpleImage) : bool :=
  (0 <=? width img) && (0 <=? height img)
  && Nat.eqb (length (px img)) (Z.to_nat (height img))
  && forallb (fun row => Nat.eqb (length row) (Z.to_nat (width img))) (px img).

(** Byte channels as a test. *)
Definition valid_imageb (img : SimpleImage) : bool :=
  wf_imageb img
  && forallb (forallb (fun c =>
       (0 <=? red c) && (red c <=? 255) && (0 <=? green c) && (green c <=? 255)
       && (0 <=? blue c) && (blue c <=? 255))) (px img).

(** Two specks on an image: a white pixel at [(300, 200)] and a pixel
    of the colour [c] at [(310, 200)]. *)
Definition speckle (c : rgb) (img : SimpleImage) : SimpleImage :=
  poke (poke img 300 200 white) 310 200 c.

(** The image of grey 95 with a white speck and a speck of grey 220,
    which lies in the intensity band: its scan confirms no window. *)
Definition speckled_95 : SimpleImage := speckle (grey 220) uniform_95.

(** The image of grey 95 with a square of grey 15 on the columns 0..99
    of the rows 0..99. *)
Definition dark_square : SimpleImage :=
  mkImage IMAGE_WIDTH IMAGE_HEIGHT
    (replicate 100 (replicate 100 (grey 15) ++ replicate 300 (grey 95))
     ++ replicate 200 (replicate 400 (grey 95))).

(** The same with the two specks: its scan confirms the window at the
    origin and no other. *)
Definition speckled_dark : SimpleImage := speckle (grey 220) dark_square.

(** No window of [l] is confirmed on [image], whose average is [avg]. *)
Definition unconfirmed_on (image : SimpleImage) (avg : Z) (l : list (Z * Z))
  : bool :=
  forallb (fun xy : Z * Z =>
             match mean_green (crop image xy.1 xy.2) with
             | Ok a => negb (in_band avg a)
             | Raise _ => false
             end) l.

#[global] Instance result_fmap : FMap result := fun _ _ f m =>
  match m with
  | Ok a => Ok (f a)
  | Raise e => Raise e
  end.

(** The case count of a scan and the colours it leaves at two
    positions. *)
Definition probe (x1 y1 x2 y2 : Z) (r : result (SimpleImage * Z))
  : result (Z * rgb * rgb) :=
  (fun st : SimpleImage * Z => (st.2, peek st.1 x1 y1, peek st.1 x2 y2)) <$> r.

#[global] Arguments uniform : simpl never.
#[global] Arguments blank : simpl never.
#[global] Arguments crop : simpl never.
#[global] Arguments paint_ring : simpl never.
#[global] Arguments map_xy : simpl never.

(** * Loops *)

(** Run the binds whose first computation has returned. *)
Ltac bind_ok :=
  repeat match goal with
         | |- context [mbind ?f (Ok ?a)] =>
             change (mbind f (Ok a)) with (f a); cbv beta
         | |- context [mbind ?f (Raise ?e)] =>
             change (mbind f (Raise e)) with (@Raise _ e); cbv beta
         end.

Section Loops.
Context {S : Type}.

Lemma bind_Ok {A B} (m : result A) (f : A -> result B) a :
  m = Ok a -> m ≫= f = f a.
Proof. by intros ->. Qed.

Lemma for_in_app {A} (xs ys : list A) (body : A -> S -> result S) s :
  for_in (xs ++ ys) body s = s' ← for_in xs body s; for_in ys body s'.
Proof.
  revert s. induction xs as [|x xs IH]; intros s; simpl; [done|].
  destruct (body x s) as [s'|e]; simpl; [apply IH|done].
Qed.

Lemma range_eq n : range n = Z.of_nat <$> seq 0 (Z.to_nat n).
Proof.
  unfold range, py_range.
  replace ((n - 0 + 1 - 1) / 1) with n by (rewrite Z.div_1_r; lia).
  apply list_fmap_ext. intros _ i _. lia.
Qed.

Lemma range_succ n : 0 <= n -> range (n + 1) = range n ++ [n].
Proof.
  intros Hn. rewrite !range_eq.
  replace (Z.to_nat (n + 1)) with (Datatypes.S (Z.to_nat n)) by lia.
  rewrite seq_S, fmap_app. simpl. do 2 f_equal. lia.
Qed.

Lemma range_nonpos n : n <= 0 -> range n = [].
Proof. intros Hn. rewrite range_eq. by replace (Z.to_nat n) with 0%nat by lia. Qed.

Lemma elem_of_range n x : x ∈ range n <-> 0 <= x < n.
Proof.
  rewrite range_eq, list_elem_of_fmap. split.
  - intros (i & -> & Hi%elem_of_seq). lia.
  - intros Hx. exists (Z.to_nat x). rewrite elem_of_seq. lia.
Qed.

Lemma length_range n : length (range n) = Z.to_nat n.
Proof. by rewrite range_eq, length_fmap, length_seq. Qed.

Lemma lookup_range n (i : nat) :
  Z.of_nat i < n -> range n !! i = Some (Z.of_nat i).
Proof.
  intros Hi. rewrite range_eq, list_lookup_fmap, lookup_seq_lt by lia. done.
Qed.

(** The invariant rule of a loop over [range n] whose body does not
    raise while the invariant holds. *)
Lemma for_in_range_inv (I : Z -> S -> Prop) n (body : Z -> S -> result S) s0 :
  0 <= n ->
  I 0 s0 ->
  (forall k s, 0 <= k < n -> I k s -> exists s', body k s = Ok s' /\ I (k + 1) s') ->
  exists s', for_in (range n) body s0 = Ok s' /\ I n s'.
Proof.
  intros Hn H0 Hstep.
  assert (forall k : nat, Z.of_nat k <= n ->
            exists s', for_in (range (Z.of_nat k)) body s0 = Ok s'
                       /\ I (Z.of_nat k) s') as Hk.
  { induction k as [|k IH]; intros Hle.
    - exists s0. by rewrite range_nonpos.
    - destruct IH as (s1 & E1 & I1); [lia|].
      destruct (Hstep (Z.of_nat k) s1) as (s2 & E2 & I2); [lia|done|].
      exists s2. replace (Z.of_nat (Datatypes.S k)) with (Z.of_nat k + 1) by lia.
      rewrite range_succ, for_in_app, E1 by lia. simpl. rewrite E2. done. }
  destruct (Hk (Z.to_nat n)) as (s' & E & HI); [lia|].
  rewrite Z2Nat.id in E, HI by done. eauto.
Qed.

(** The same for two nested loops: [I k j] holds when the outer loop
    is in its iteration [k] and the inner one has done [j] rounds. *)
Lemma for_in2_range_inv (I : Z -> Z -> S -> Prop) w h
      (body : Z -> Z -> S -> result S) s0 :
  0 <= w -> 0 <= h ->
  I 0 0 s0 ->
  (forall k j s, 0 <= k < w -> 0 <= j < h -> I k j s ->
     exists s', body k j s = Ok s' /\ I k (j + 1) s') ->
  (forall k s, 0 <= k < w -> I k h s -> I (k + 1) 0 s) ->
  exists s', for_in2 (range w) (range h) body s0 = Ok s' /\ I w 0 s'.
Proof.
  intros Hw Hh H0 Hstep Hnext. unfold for_in2.
  apply (for_in_range_inv (fun k s => I k 0 s)); [done..|].
  intros k s Hk HI.
  destruct (for_in_range_inv (fun j s => I k j s) h (fun y s => body k y s) s)
    as (s' & E & HI'); [done..| |]; eauto.
Qed.

(** Two loops that agree on the states of an invariant which the
    second one keeps. *)
Lemma for_in_ext_inv {A} (Inv : S -> Prop) (xs : list A)
      (f g : A -> S -> result S) s :
  Inv s ->
  (forall x s, x ∈ xs -> Inv s ->
     f x s = g x s /\ forall s', g x s = Ok s' -> Inv s') ->
  for_in xs f s = for_in xs g s /\
  forall s', for_in xs g s = Ok s' -> Inv s'.
Proof.
  revert s. induction xs as [|x xs IH]; intros s Hs Hfg.
  - simpl. split; [done|]. by intros s' [= <-].
  - destruct (Hfg x s) as [Efg Hg]; [apply list_elem_of_here|done|].
    simpl. rewrite Efg. destruct (g x s) as [s1|e]; simpl; [|done].
    apply IH; [by apply Hg|].
    intros y s2 Hy. apply Hfg. by apply list_elem_of_further.
Qed.

(** Two nested loops run their body on the pairs in row order. *)
Lemma for_in2_flat (xs ys : list Z) (body : Z -> Z -> S -> result S) s :
  for_in2 xs ys body s =
    for_in (x ← xs; y ← ys; [(x, y)]) (fun xy s => body xy.1 xy.2 s) s.
Proof.
  unfold for_in2. revert s. induction xs as [|x xs IH]; intros s; [done|].
  rewrite bind_cons, for_in_app. cbn [for_in].
  assert (forall s, for_in ys (fun y s => body x y s) s =
                    for_in (ys ≫= fun y => [(x, y)])
                           (fun xy s => body xy.1 xy.2 s) s) as ->.
  { clear. induction ys as [|y ys IHy]; intros s; [done|].
    rewrite bind_cons. simpl. destruct (body x y s); simpl; [apply IHy|done]. }
  destruct (for_in _ _ s); simpl; [apply IH|done].
Qed.
End Loops.

(** * The pixel buffer *)

Section Buffer.
Implicit Types (img : SimpleImage) (x y : Z) (c : rgb).

Lemma in_bounds_true img x y :
  in_bounds img x y = true <-> 0 <= x < width img /\ 0 <= y < height img.
Proof. unfold in_bounds. rewrite !andb_true_iff. lia. Qed.

Lemma in_bounds_false img x y :
  in_bounds img x y = false <-> ~ (0 <= x < width img /\ 0 <= y < height img).
Proof. rewrite <- in_bounds_true. by destruct (in_bounds img x y). Qed.

Lemma wf_row img (i : nat) row :
  wf_image img -> px img !! i = Some row -> length row = Z.to_nat (width img).
Proof.
  intros (_ & _ & _ & Hrows) Hi. rewrite Forall_lookup in Hrows. eauto.
Qed.

Lemma lookup_px_Some img x y :
  wf_image img -> 0 <= x < width img -> 0 <= y < height img ->
  lookup_px img x y = Some (peek img x y).
Proof.
  intros Hwf Hx Hy. unfold peek, lookup_px.
  destruct (lookup_lt_is_Some_2 (px img) (Z.to_nat y)) as [row Hrow].
  { destruct Hwf as (_ & _ & -> & _). lia. }
  rewrite Hrow. simpl.
  destruct (lookup_lt_is_Some_2 row (Z.to_nat x)) as [c Hc].
  { rewrite (wf_row img _ _ Hwf Hrow). lia. }
  by rewrite Hc.
Qed.

Lemma width_poke img x y c : width (poke img x y c) = width img.
Proof. done. Qed.

Lemma height_poke img x y c : height (poke img x y c) = height img.
Proof. done. Qed.

Lemma wf_poke img x y c : wf_image img -> wf_image (poke img x y c).
Proof.
  intros (Hw & Hh & Hlen & Hrows). unfold wf_image, poke. simpl.
  repeat split; [done..| |].
  - by rewrite length_alter.
  - apply Forall_alter; [done|]. intros row _ Hrow. by rewrite length_insert.
Qed.

Lemma peek_poke img x y c x' y' :
  wf_image img -> 0 <= x < width img -> 0 <= y < height img ->
  0 <= x' -> 0 <= y' ->
  peek (poke img x y c) x' y' =
    if decide (x' = x /\ y' = y) then c else peek img x' y'.
Proof.
  intros Hwf Hx Hy Hx' Hy'. unfold peek at 1 2, lookup_px, poke. simpl.
  destruct (decide (y' = y)) as [->|Hne].
  - rewrite list_lookup_alter_eq.
    destruct (lookup_lt_is_Some_2 (px img) (Z.to_nat y)) as [row Hrow].
    { destruct Hwf as (_ & _ & -> & _). lia. }
    rewrite Hrow. simpl.
    destruct (decide (x' = x)) as [->|Hnx].
    + rewrite list_lookup_insert_eq.
      * by rewrite decide_True.
      * rewrite (wf_row img _ _ Hwf Hrow). lia.
    + rewrite list_lookup_insert_ne by lia.
      by rewrite decide_False by tauto.
  - rewrite list_lookup_alter_ne by lia. by rewrite decide_False by tauto.
Qed.

Lemma peek_poke_eq img x y c :
  wf_image img -> 0 <= x < width img -> 0 <= y < height img ->
  peek (poke img x y c) x y = c.
Proof. intros. rewrite peek_poke by (assumption || lia). by rewrite decide_True. Qed.

Lemma peek_poke_ne img x y c x' y' :
  wf_image img -> 0 <= x < width img -> 0 <= y < height img ->
  0 <= x' -> 0 <= y' -> (x' <> x \/ y' <> y) ->
  peek (poke img x y c) x' y' = peek img x' y'.
Proof.
  intros. rewrite peek_poke by (assumption || lia).
  rewrite decide_False; [done|lia].
Qed.

Lemma wf_uniform w h c : 0 <= w -> 0 <= h -> wf_image (uniform w h c).
Proof.
  intros Hw Hh. unfold wf_image, uniform. simpl. repeat split; [done..| |].
  - by rewrite length_replicate.
  - apply Forall_replicate. by rewrite length_replicate.
Qed.

Lemma peek_uniform w h c x y :
  0 <= x < w -> 0 <= y < h -> peek (uniform w h c) x y = c.
Proof.
  intros Hx Hy. unfold peek, lookup_px, uniform. simpl.
  rewrite lookup_replicate_2 by lia. simpl.
  by rewrite lookup_replicate_2 by lia.
Qed.

Lemma blank_uniform w h : blank w h = uniform w h white.
Proof. done. Qed.

Lemma wf_blank w h : 0 <= w -> 0 <= h -> wf_image (blank w h).
Proof. apply wf_uniform. Qed.

Lemma peek_blank w h x y :
  0 <= x < w -> 0 <= y < h -> peek (blank w h) x y = white.
Proof. apply peek_uniform. Qed.

(** Two well-formed images of the same size with the same colour at
    every position are the same image. *)
Lemma image_ext img1 img2 :
  wf_image img1 -> wf_image img2 ->
  width img1 = width img2 -> height img1 = height img2 ->
  (forall x y, 0 <= x < width img1 -> 0 <= y < height img1 ->
               peek img1 x y = peek img2 x y) ->
  img1 = img2.
Proof.
  intros Hwf1 Hwf2 Hw Hh Hpx.
  assert (forall x y, 0 <= x < width img1 -> 0 <= y < height img1 ->
                      lookup_px img1 x y = lookup_px img2 x y) as Hlk.
  { intros x y Hx Hy. rewrite !lookup_px_Some by (assumption || lia).
    f_equal. by apply Hpx. }
  destruct img1 as [w1 h1 p1], img2 as [w2 h2 p2]. simpl in *. subst w2 h2.
  f_equal. apply list_eq. intros i.
  destruct Hwf1 as (_ & _ & Hl1 & Hr1), Hwf2 as (_ & _ & Hl2 & Hr2).
  simpl in *.
  destruct (decide (i < Z.to_nat h1)%nat) as [Hi|Hi].
  - destruct (lookup_lt_is_Some_2 p1 i) as [r1 E1]; [lia|].
    destruct (lookup_lt_is_Some_2 p2 i) as [r2 E2]; [lia|].
    rewrite E1, E2. f_equal. apply list_eq. intros j.
    rewrite Forall_lookup in Hr1, Hr2.
    specialize (Hr1 _ _ E1). specialize (Hr2 _ _ E2).
    destruct (decide (j < Z.to_nat w1)%nat) as [Hj|Hj].
    + specialize (Hlk (Z.of_nat j) (Z.of_nat i)).
      unfold lookup_px in Hlk. simpl in Hlk.
      rewrite !Nat2Z.id, E1, E2 in Hlk. simpl in Hlk. apply Hlk; lia.
    + rewrite !lookup_ge_None_2 by lia. done.
  - rewrite !lookup_ge_None_2 by lia. done.
Qed.

Lemma get_pixel_Ok img x y :
  0 <= x < width img -> 0 <= y < height img ->
  get_pixel img x y = Ok (mkPixel x y).
Proof.
  intros Hx Hy. unfold get_pixel.
  by rewrite (proj2 (in_bounds_true img x y)).
Qed.

Lemma set_pixel_Ok img x y c :
  0 <= x < width img -> 0 <= y < height img ->
  set_pixel img x y c = Ok (poke img x y c).
Proof.
  intros Hx Hy. unfold set_pixel.
  by rewrite (proj2 (in_bounds_true img x y)).
Qed.

Lemma get_pixel_Raise img x y :
  ~ (0 <= x < width img /\ 0 <= y < height img) ->
  get_pixel img x y = Raise OutOfBounds.
Proof.
  intros H. unfold get_pixel. by rewrite (proj2 (in_bounds_false img x y)).
Qed.
End Buffer.

(** * Iterating over the pixels *)

Section Iteration.
Implicit Types (img : SimpleImage).

Lemma fmap_list_bind {A B C} (f : B -> C) (g : A -> list B) (l : list A) :
  f <$> (l ≫= g) = l ≫= (fun a => f <$> g a).
Proof.
  induction l as [|a l IH]; [done|].
  by rewrite !bind_cons, fmap_app, IH.
Qed.

Lemma bind_singleton_fmap {A B} (g : A -> B) (l : list A) :
  l ≫= (fun a => [g a]) = g <$> l.
Proof. induction l as [|a l IH]; [done|]. rewrite bind_cons, IH. done. Qed.

(** The buffer of a well-formed image, read back position by
    position. *)
Lemma px_rows img :
  wf_image img ->
  px img = (fun y => (fun x => peek img x y) <$> range (width img))
             <$> range (height img).
Proof.
  intros Hwf. pose proof Hwf as (Hw & Hh & Hlen & Hrows).
  apply list_eq. intros i. rewrite list_lookup_fmap.
  destruct (decide (i < Z.to_nat (height img))%nat) as [Hi|Hi].
  - rewrite lookup_range by lia. simpl.
    destruct (lookup_lt_is_Some_2 (px img) i) as [row Hrow]; [lia|].
    rewrite Hrow. f_equal. apply list_eq. intros j.
    rewrite list_lookup_fmap.
    pose proof (wf_row img i row Hwf Hrow) as Hlr.
    destruct (decide (j < Z.to_nat (width img))%nat) as [Hj|Hj].
    + rewrite lookup_range by lia. simpl.
      pose proof (lookup_px_Some img (Z.of_nat j) (Z.of_nat i) Hwf) as Hp.
      unfold lookup_px in Hp. rewrite !Nat2Z.id, Hrow in Hp. simpl in Hp.
      apply Hp; lia.
    + rewrite (lookup_ge_None_2 row) by lia.
      rewrite (lookup_ge_None_2 (range _)); [done|]. rewrite length_range. lia.
  - rewrite (lookup_ge_None_2 (px img)) by lia.
    rewrite (lookup_ge_None_2 (range _)); [done|]. rewrite length_range. lia.
Qed.

(** Iteration yields the colours in buffer order. *)
Lemma pixels_colours img :
  wf_image img -> pixel_rgb img <$> pixels img = mjoin (px img).
Proof.
  intros Hwf. rewrite (px_rows img Hwf).
  rewrite list_join_bind, list_fmap_bind. unfold pixels.
  rewrite fmap_list_bind. apply list_bind_ext; [|done].
  intros y. rewrite fmap_list_bind. simpl.
  by rewrite (bind_singleton_fmap (fun x => peek img x y)).
Qed.

Lemma elem_of_pixels img p :
  p ∈ pixels img <->
  0 <= pixel_x p < width img /\ 0 <= pixel_y p < height img.
Proof.
  unfold pixels. rewrite list_elem_of_bind. split.
  - intros (y & Hp & Hy%elem_of_range).
    apply list_elem_of_bind in Hp as (x & Hp & Hx%elem_of_range).
    apply list_elem_of_singleton in Hp as ->. simpl. lia.
  - intros [Hx Hy]. exists (pixel_y p). rewrite elem_of_range. split; [|done].
    apply list_elem_of_bind. exists (pixel_x p). rewrite elem_of_range.
    split; [|done]. destruct p. simpl. apply list_elem_of_singleton. done.
Qed.

Lemma length_colours img :
  wf_image img ->
  Z.of_nat (length (mjoin (px img))) = width img * height img.
Proof.
  intros (Hw & Hh & Hlen & Hrows).
  assert (forall (rows : list (list rgb)),
            Forall (fun row => length row = Z.to_nat (width img)) rows ->
            length (mjoin rows) = (length rows * Z.to_nat (width img))%nat) as H.
  { induction 1 as [|r rs Hr _ IH]; [done|].
    simpl. rewrite length_app, IH, Hr. done. }
  rewrite (H _ Hrows), Hlen. lia.
Qed.

Lemma elem_of_colours img c :
  wf_image img ->
  c ∈ mjoin (px img) <->
  exists x y, 0 <= x < width img /\ 0 <= y < height img /\ peek img x y = c.
Proof.
  intros Hwf. rewrite <- (pixels_colours img Hwf), list_elem_of_fmap. split.
  - intros ([x y] & -> & Hp%elem_of_pixels). simpl in Hp. exists x, y. tauto.
  - intros (x & y & Hx & Hy & <-). exists (mkPixel x y).
    rewrite elem_of_pixels. done.
Qed.
End Iteration.

(** * The adaptive thresholder *)

(** C5: [select_band] is total and deterministic.  For every integer
    average exactly one of four cases applies: the average lies in the
    open interval (80,85) and the band is (108,110), or in (130,135)
    with band (140,142), or in (105,110) with band (186,188), or in none
    of the three and the band is the fallback (10,20); the boundary
    values 80, 85, 130, 135, 105 and 110 all get the fallback band. *)
Theorem select_band_total :
  forall avg : Z,
    ((80 < avg < 85 /\ select_band avg = (108, 110)) \/
     (130 < avg < 135 /\ select_band avg = (140, 142)) \/
     (105 < avg < 110 /\ select_band avg = (186, 188)) \/
     (~ 80 < avg < 85 /\ ~ 130 < avg < 135 /\ ~ 105 < avg < 110 /\
      select_band avg = (10, 20))) /\
    Forall (fun b => select_band b = (10, 20)) [80; 85; 130; 135; 105; 110].
Proof.
  intros avg. split.
  - unfold select_band.
    destruct (80 <? avg) eqn:E1, (avg <? 85) eqn:E2,
             (130 <? avg) eqn:E3, (avg <? 135) eqn:E4,
             (105 <? avg) eqn:E5, (avg <? 110) eqn:E6; simpl;
      rewrite ?Z.ltb_lt, ?Z.ltb_ge in *;
      first [ left; split; [lia|reflexivity]
            | right; left; split; [lia|reflexivity]
            | right; right; left; split; [lia|reflexivity]
            | right; right; right; repeat split; lia || reflexivity ].
  - repeat constructor.
Qed.

Section Average.
Implicit Types (img : SimpleImage).

Lemma green_fold img (ps : list Pixel) (acc : Z * Z) :
  foldl (green_step img) acc ps =
    (acc.1 + sumZ (green <$> filter (fun c => green c <> 255) (pixel_rgb img <$> ps)),
     acc.2 + Z.of_nat (length (filter (fun c => green c = 255) (pixel_rgb img <$> ps)))).
Proof.
  revert acc. induction ps as [|p ps IH]; intros [t k].
  - simpl. f_equal; lia.
  - simpl foldl. rewrite IH, fmap_cons. unfold green_step.
    destruct (Z.eqb_spec (green (pixel_rgb img p)) 255) as [E|E];
      cbn [negb fst snd].
    + rewrite (filter_cons_False (fun c => green c <> 255)) by tauto.
      rewrite (filter_cons_True (fun c => green c = 255)) by done.
      cbn [length]. rewrite Nat2Z.inj_succ. f_equal; lia.
    + rewrite (filter_cons_True (fun c => green c <> 255)) by done.
      rewrite (filter_cons_False (fun c => green c = 255)) by done.
      rewrite fmap_cons. unfold sumZ. cbn [foldr]. f_equal; lia.
Qed.

Lemma length_filter_split (l : list rgb) :
  (length (filter (fun c => green c = 255%Z) l)
   + length (filter (fun c => green c <> 255%Z) l) = length l)%nat.
Proof.
  induction l as [|c l IH]; [done|]. rewrite !filter_cons.
  destruct (decide (green c = 255)).
  - rewrite decide_False by tauto. simpl. lia.
  - rewrite decide_True by done. simpl. lia.
Qed.

(** [get_green_agv] is the floor division of the sum of the unmarked
    green values by their number. *)
Lemma get_green_agv_eq img :
  wf_image img ->
  get_green_agv img =
    floordiv (sumZ (unmarked_greens img))
             (Z.of_nat (length (unmarked_greens img))).
Proof.
  intros Hwf. unfold get_green_agv. rewrite green_fold. simpl.
  rewrite (pixels_colours img Hwf). fold (all_colours img).
  unfold unmarked_greens. rewrite length_fmap. f_equal.
  pose proof (length_filter_split (all_colours img)) as Hs.
  pose proof (length_colours img Hwf) as Hl. fold (all_colours img) in Hl.
  lia.
Qed.

Lemma sumZ_nonneg (l : list Z) : Forall (fun v => 0 <= v) l -> 0 <= sumZ l.
Proof. induction 1; simpl; lia. Qed.

Lemma unmarked_greens_nonneg img :
  valid_image img -> Forall (fun v => 0 <= v) (unmarked_greens img).
Proof.
  intros [_ Hv]. unfold unmarked_greens, all_colours.
  apply Forall_fmap, Forall_forall. intros c Hc%list_elem_of_filter.
  destruct Hc as [_ Hc]. apply list_elem_of_join in Hc as (row & Hc & Hrow).
  rewrite Forall_forall in Hv. specialize (Hv row Hrow).
  rewrite Forall_forall in Hv. destruct (Hv c Hc) as (_ & Hg & _).
  simpl. unfold valid_channel in Hg. lia.
Qed.

Lemma unmarked_greens_nil img :
  unmarked_greens img = [] <->
  forall c, c ∈ all_colours img -> green c = 255.
Proof.
  unfold unmarked_greens. split.
  - intros Hnil%fmap_nil_inv c Hc.
    destruct (decide (green c = 255)) as [|Hne]; [done|].
    by destruct (filter_nil_not_elem_of _ _ c Hnil Hne).
  - intros Hall.
    rewrite (elem_of_nil_inv (filter _ (all_colours img))); [done|].
    intros c [Hne Hc]%list_elem_of_filter. by apply Hne, Hall.
Qed.

(** C6: on an image with at least one unmarked pixel [get_green_agv]
    returns the truncated mean of the green channel over the pixels
    whose green is not 255, marked pixels counting neither in the sum
    nor in the divisor; and it raises the division-by-zero error
    exactly when every pixel of the image is marked. *)
Theorem get_green_agv_mean img :
  valid_image img ->
  ((exists c, c ∈ all_colours img /\ green c <> 255) ->
   get_green_agv img = Ok (truncated_mean (unmarked_greens img))) /\
  (get_green_agv img = Raise ZeroDivisionError <->
   forall c, c ∈ all_colours img -> green c = 255).
Proof.
  intros Hv. pose proof Hv as [Hwf _].
  rewrite (get_green_agv_eq img Hwf), <- unmarked_greens_nil.
  pose proof (unmarked_greens_nonneg img Hv) as Hnn.
  unfold floordiv, truncated_mean.
  destruct (unmarked_greens img) as [|g gs] eqn:E.
  - split; [|done]. intros (c & Hc & Hne).
    pose proof (proj1 (unmarked_greens_nil img) E c Hc). done.
  - assert ((Z.of_nat (length (g :: gs)) =? 0) = false) as ->
        by (apply Z.eqb_neq; simpl; lia).
    split; [|done]. intros _. f_equal. symmetry.
    apply Z.quot_div_nonneg; [by apply sumZ_nonneg|simpl; lia].
Qed.

Lemma valid_two_pixels : valid_image two_pixels.
Proof.
  unfold valid_image, wf_image, two_pixels. simpl.
  split_and!; try lia; try done; repeat constructor; simpl; lia.
Qed.

Lemma get_green_agv_mean_witness :
  (get_green_agv two_pixels = Ok 20) /\
  (get_green_agv two_pixels = Raise ZeroDivisionError <->
   forall c, c ∈ all_colours two_pixels -> green c = 255).
Proof.
  destruct (get_green_agv_mean two_pixels valid_two_pixels) as [Hmean Hzero].
  split; [|exact Hzero].
  rewrite Hmean; [reflexivity|].
  exists (RGB 10 20 30). split; [|done]. left.
Defined.
End Average.

(** * The intensity classifier *)

Section Classifier.
Implicit Types (img : SimpleImage) (p : Pixel).

Lemma poke_poke img x y c1 c2 :
  poke (poke img x y c1) x y c2 = poke img x y c2.
Proof.
  unfold poke. simpl. f_equal. rewrite list_alter_alter_eq.
  apply list_alter_ext; [|done]. intros row _. simpl.
  apply list_insert_insert_eq.
Qed.

Lemma highlight_pixel_eq img p :
  wf_image img ->
  0 <= pixel_x p < width img -> 0 <= pixel_y p < height img ->
  highlight_pixel img p =
    poke img (pixel_x p) (pixel_y p) (classify (pixel_rgb img p)).
Proof.
  intros Hwf Hx Hy. unfold highlight_pixel, classify.
  set (average := (red (pixel_rgb img p) + green (pixel_rgb img p)
                   + blue (pixel_rgb img p)) / 3).
  unfold set_red, set_green, set_blue, pixel_rgb.
  destruct ((INTENSITY_MIN <=? average) && (average <=? INTENSITY_MAX));
    repeat (rewrite ?poke_poke; rewrite ?peek_poke_eq by done); simpl;
    rewrite ?poke_poke; done.
Qed.

Lemma foldl_highlight (ps : list Pixel) img :
  wf_image img ->
  (forall p, p ∈ ps ->
     0 <= pixel_x p < width img /\ 0 <= pixel_y p < height img) ->
  NoDup ps ->
  wf_image (foldl highlight_pixel img ps) /\
  width (foldl highlight_pixel img ps) = width img /\
  height (foldl highlight_pixel img ps) = height img /\
  forall x y, 0 <= x -> 0 <= y ->
    peek (foldl highlight_pixel img ps) x y =
      if decide (mkPixel x y ∈ ps) then classify (peek img x y)
      else peek img x y.
Proof.
  revert img. induction ps as [|p ps IH]; intros img Hwf Hin Hnd.
  - cbn [foldl]. split_and!; [done..|]. intros x y _ _.
    rewrite decide_False; [done|]. apply not_elem_of_nil.
  - apply NoDup_cons in Hnd as [Hp Hnd].
    destruct (Hin p) as [Hx Hy]; [apply list_elem_of_here|].
    simpl foldl. rewrite (highlight_pixel_eq img p Hwf Hx Hy).
    set (img1 := poke img (pixel_x p) (pixel_y p) (classify (pixel_rgb img p))).
    destruct (IH img1) as (Hwf' & Hw' & Hh' & Hpk).
    { by apply wf_poke. }
    { intros q Hq. apply (Hin q). by apply list_elem_of_further. }
    { done. }
    split_and!; [done..|]. intros x y Hx0 Hy0.
    rewrite (Hpk x y Hx0 Hy0). unfold img1.
    rewrite (peek_poke img) by done.
    assert (mkPixel x y ∈ p :: ps <->
            (x = pixel_x p /\ y = pixel_y p) \/ mkPixel x y ∈ ps) as Hiff.
    { rewrite elem_of_cons. destruct p as [px0 py0]. simpl.
      split; (intros [H|H]; [left|by right]); [by injection H|].
      by destruct H as [-> ->]. }
    assert (x = pixel_x p /\ y = pixel_y p -> mkPixel x y ∉ ps) as Hexcl.
    { intros [-> ->]. by destruct p. }
    repeat case_decide; try tauto.
    destruct H0 as [-> ->]. done.
Qed.

Lemma NoDup_range n : NoDup (range n).
Proof.
  rewrite range_eq. apply NoDup_fmap_2_strong; [|apply NoDup_seq].
  intros i j _ _ Hij. lia.
Qed.

Lemma NoDup_pixels img : NoDup (pixels img).
Proof.
  unfold pixels. apply NoDup_bind; [| |apply NoDup_range].
  - intros y1 y2 p _ _ H1 H2.
    apply list_elem_of_bind in H1 as (x1 & ->%list_elem_of_singleton & _).
    apply list_elem_of_bind in H2 as (x2 & E%list_elem_of_singleton & _).
    congruence.
  - intros y _. apply NoDup_bind; [| |apply NoDup_range].
    + intros x1 x2 p _ _ ->%list_elem_of_singleton E%list_elem_of_singleton.
      congruence.
    + intros x _. apply NoDup_singleton.
Qed.

(** [highlight_areas] keeps the size of the image and replaces the
    colour of every pixel by its classification. *)
Lemma highlight_areas_spec img :
  wf_image img ->
  wf_image (highlight_areas img) /\
  width (highlight_areas img) = width img /\
  height (highlight_areas img) = height img /\
  forall x y, 0 <= x < width img -> 0 <= y < height img ->
    peek (highlight_areas img) x y = classify (peek img x y).
Proof.
  intros Hwf. unfold highlight_areas.
  destruct (foldl_highlight (pixels img) img Hwf) as (Hwf' & Hw & Hh & Hpk).
  { intros p Hp. by apply elem_of_pixels. }
  { apply NoDup_pixels. }
  split_and!; [done..|]. intros x y Hx Hy.
  rewrite Hpk by lia. rewrite decide_True; [done|].
  apply elem_of_pixels. done.
Qed.

Lemma highlight_areas_peek img x y :
  wf_image img -> 0 <= x < width img -> 0 <= y < height img ->
  peek (highlight_areas img) x y = classify (peek img x y).
Proof. intros Hwf. by apply highlight_areas_spec. Qed.

Lemma clamp_clamp v : clamp (clamp v) = clamp v.
Proof.
  unfold clamp.
  destruct (Z.ltb_spec v 0); [done|].
  destruct (Z.leb_spec 256 v); [done|].
  destruct (Z.ltb_spec v 0); [lia|].
  destruct (Z.leb_spec 256 v); [lia|done].
Qed.

Lemma classify_cases c :
  classify c = pure_green \/
  exists k, classify c = RGB k k k /\ clamp k = k /\
            ~ (INTENSITY_MIN <= k <= INTENSITY_MAX).
Proof.
  unfold classify. set (a := (red c + green c + blue c) / 3).
  destruct ((INTENSITY_MIN <=? a) && (a <=? INTENSITY_MAX)) eqn:E; [by left|].
  right. exists (clamp a). split_and!; [done|apply clamp_clamp|].
  apply andb_false_iff in E. rewrite !Z.leb_gt in E.
  unfold INTENSITY_MIN, INTENSITY_MAX, clamp in *.
  destruct (Z.ltb_spec a 0); [lia|]. destruct (Z.leb_spec 256 a); lia.
Qed.

Lemma classify_classify c :
  classify (classify c) =
    if decide (classify c = pure_green) then RGB 85 85 85 else classify c.
Proof.
  destruct (classify_cases c) as [->|(k & -> & Hk & Hband)]; [done|].
  rewrite decide_False by (unfold pure_green; intros [= -> ?]; done).
  unfold classify. simpl.
  replace ((k + k + k) / 3) with k
    by (rewrite <- (Z.div_mul k 3) at 1 by lia; f_equal; lia).
  assert ((INTENSITY_MIN <=? k) && (k <=? INTENSITY_MAX) = false) as ->.
  { apply andb_false_iff. rewrite !Z.leb_gt. lia. }
  by rewrite Hk.
Qed.

Lemma width_uniform w h c : width (uniform w h c) = w.
Proof. done. Qed.

Lemma height_uniform w h c : height (uniform w h c) = h.
Proof. done. Qed.

(** C3 (as stated, refuted): on the 400x300 image of grey 220 the
    first run forces the pixel at the origin to (0,255,0), and the
    second run, which checks the pixel like any other, turns it into
    the grey (85,85,85): it does not remain a candidate marker. *)
Lemma highlight_areas_rerun_counterexample :
  peek (highlight_areas all_220) 0 0 = pure_green /\
  peek (highlight_areas (highlight_areas all_220)) 0 0 = grey 85 /\
  peek (highlight_areas (highlight_areas all_220)) 0 0 <> pure_green.
Proof.
  assert (wf_image all_220) as Hwf by (apply wf_uniform; discriminate).
  destruct (highlight_areas_spec all_220 Hwf) as (Hwf1 & Hw1 & Hh1 & Hp1).
  destruct (highlight_areas_spec _ Hwf1) as (_ & _ & _ & Hp2).
  rewrite Hw1, Hh1 in Hp2. clear Hwf Hwf1 Hw1 Hh1.
  assert (0 <= 0 < width all_220) as Hx by (split; [discriminate|reflexivity]).
  assert (0 <= 0 < height all_220) as Hy by (split; [discriminate|reflexivity]).
  specialize (Hp1 0 0 Hx Hy). specialize (Hp2 0 0 Hx Hy).
  unfold all_220 in Hp1 at 2.
  rewrite peek_uniform in Hp1 by (unfold IMAGE_WIDTH, IMAGE_HEIGHT; lia).
  change (classify (grey 220)) with pure_green in Hp1.
  rewrite Hp1 in Hp2. change (classify pure_green) with (grey 85) in Hp2.
  split; [exact Hp1|]. split; [exact Hp2|]. rewrite Hp2. discriminate.
Qed.

(** C3 (amended): for every image, a second run of [highlight_areas]
    on the output of the first turns every candidate marker
    (0,255,0) into the grey (85,85,85), the mean 85 of its channels
    lying outside the intensity band, and leaves every other pixel
    as the first run left it. *)
Theorem highlight_areas_rerun img x y :
  wf_image img -> 0 <= x < width img -> 0 <= y < height img ->
  peek (highlight_areas (highlight_areas img)) x y =
    if decide (peek (highlight_areas img) x y = pure_green) then grey 85
    else peek (highlight_areas img) x y.
Proof.
  intros Hwf Hx Hy.
  destruct (highlight_areas_spec img Hwf) as (Hwf1 & Hw1 & Hh1 & Hp1).
  rewrite (highlight_areas_peek _ x y Hwf1) by lia.
  rewrite Hp1 by done. apply classify_classify.
Qed.

Lemma highlight_areas_rerun_witness :
  peek (highlight_areas (highlight_areas (uniform 2 2 (grey 220)))) 1 1 =
    if decide (peek (highlight_areas (uniform 2 2 (grey 220))) 1 1 = pure_green)
    then grey 85
    else peek (highlight_areas (uniform 2 2 (grey 220))) 1 1.
Proof.
  apply (highlight_areas_rerun (uniform 2 2 (grey 220)) 1 1).
  - apply wf_uniform; lia.
  - rewrite width_uniform. lia.
  - rewrite height_uniform. lia.
Defined.
End Classifier.

(** * The lung-side locator *)

Section Locator.
Implicit Types (img : SimpleImage) (p : Pixel).

Lemma elem_of_column_pixels img p :
  p ∈ column_pixels img <->
  0 <= pixel_x p < width img /\ 0 <= pixel_y p < height img.
Proof.
  unfold column_pixels. rewrite list_elem_of_bind. split.
  - intros (x & Hp & Hx%elem_of_range).
    apply list_elem_of_bind in Hp as (y & Hp & Hy%elem_of_range).
    apply list_elem_of_singleton in Hp as ->. simpl. lia.
  - intros [Hx Hy]. exists (pixel_x p). rewrite elem_of_range. split; [|done].
    apply list_elem_of_bind. exists (pixel_y p). rewrite elem_of_range.
    split; [|done]. destruct p. simpl. apply list_elem_of_singleton. done.
Qed.

Lemma column_pixels_pairs img :
  (x ← range (width img); y ← range (height img); [(x, y)])
  = (fun p => (pixel_x p, pixel_y p)) <$> column_pixels img.
Proof.
  unfold column_pixels. rewrite fmap_list_bind.
  apply list_bind_ext; [|done]. intros x. rewrite fmap_list_bind. done.
Qed.

Lemma is_pure_red_eq c :
  (red c =? 255) && (green c =? 0) && (blue c =? 0) = true <-> c = pure_red.
Proof.
  rewrite !andb_true_iff, !Z.eqb_eq. destruct c as [r g b]. simpl.
  unfold pure_red. split; [intros [[-> ->] ->]; done|intros [= -> -> ->]; done].
Qed.

Lemma locate_body_eq img p ls rs :
  0 <= pixel_x p < width img -> 0 <= pixel_y p < height img ->
  locate_body img (pixel_x p) (pixel_y p) (ls, rs) =
    Ok (ls ++ (if decide (is_left img p) then [pixel_x p] else []),
        rs ++ (if decide (is_right img p) then [pixel_x p] else [])).
Proof.
  intros Hx Hy. unfold locate_body.
  rewrite get_pixel_Ok by done. simpl.
  replace (mkPixel (pixel_x p) (pixel_y p)) with p by (by destruct p).
  set (c := pixel_rgb img p).
  rewrite <- !andb_assoc.
  pose proof (is_pure_red_eq c) as Hred. rewrite <- !andb_assoc in Hred.
  unfold is_left, is_right. fold c.
  destruct ((red c =? 255) && ((green c =? 0) && (blue c =? 0))) eqn:E.
  - assert (c = pure_red) as Hc by (by apply Hred).
    rewrite !andb_true_r.
    destruct (Z.ltb_spec (pixel_x p) (width img / 2)) as [Hlt|Hge].
    + rewrite decide_True by done. rewrite decide_False by lia.
      by rewrite app_nil_r.
    + rewrite decide_False by lia.
      destruct (Z.gtb_spec (pixel_x p) (width img / 2)) as [Hgt|Hle].
      * rewrite decide_True by (split; [lia|done]). by rewrite app_nil_r.
      * rewrite decide_False by lia. by rewrite !app_nil_r.
  - assert (c <> pure_red) as Hc by (intros Hc; apply Hred in Hc; congruence).
    rewrite !andb_false_r. rewrite !decide_False by tauto.
    by rewrite !app_nil_r.
Qed.

Lemma locate_loop img (ps : list Pixel) ls rs :
  (forall p, p ∈ ps ->
     0 <= pixel_x p < width img /\ 0 <= pixel_y p < height img) ->
  for_in ((fun p => (pixel_x p, pixel_y p)) <$> ps)
         (fun xy s => locate_body img xy.1 xy.2 s) (ls, rs)
  = Ok (ls ++ (pixel_x <$> filter (is_left img) ps),
        rs ++ (pixel_x <$> filter (is_right img) ps)).
Proof.
  revert ls rs. induction ps as [|p ps IH]; intros ls rs Hin.
  - simpl. by rewrite !app_nil_r.
  - destruct (Hin p) as [Hx Hy]; [apply list_elem_of_here|].
    rewrite fmap_cons. cbn [for_in fst snd].
    rewrite (locate_body_eq img p ls rs Hx Hy). simpl.
    rewrite IH by (intros q Hq; apply Hin; by apply list_elem_of_further).
    rewrite !filter_cons. f_equal.
    destruct (decide (is_left img p)), (decide (is_right img p));
      rewrite <- ?app_assoc; simpl; rewrite ?app_nil_r; done.
Qed.

Lemma locate_lists_eq img :
  locate_lists img =
    Ok (pixel_x <$> filter (is_left img) (column_pixels img),
        pixel_x <$> filter (is_right img) (column_pixels img)).
Proof.
  unfold locate_lists. rewrite for_in2_flat, column_pixels_pairs.
  rewrite locate_loop by (intros p; apply elem_of_column_pixels). done.
Qed.

Lemma nonempty_fmap {A B} (f : A -> B) (l : list A) :
  nonempty (f <$> l) = nonempty l.
Proof. by destruct l. Qed.

Lemma nonempty_false {A} (l : list A) : (forall a, a ∉ l) -> nonempty l = false.
Proof. destruct l as [|a l]; [done|]. intros H. destruct (H a). left. Qed.

(** C7: [locate_cases] counts a pure red pixel whose [x] is strictly
    below the midline [width // 2] to the left and one whose [x] is
    strictly above it to the right.  The pixels counted on the two
    sides are those of the lists [L] and [R]; no pixel is in both, a
    pixel on the midline is in neither, the labels are "left" when
    [L] is not empty followed by "right" when [R] is not empty, and
    an image without a pure red pixel gets no label. *)
Theorem locate_cases_sides img :
  let L := filter (is_left img) (column_pixels img) in
  let R := filter (is_right img) (column_pixels img) in
  locate_lists img = Ok (pixel_x <$> L, pixel_x <$> R) /\
  locate_cases img =
    Ok ((if nonempty L then ["left"%string] else []) ++
        (if nonempty R then ["right"%string] else [])) /\
  (forall p, p ∈ L <->
     (0 <= pixel_x p < width img /\ 0 <= pixel_y p < height img) /\
     pixel_rgb img p = pure_red /\ pixel_x p < width img / 2) /\
  (forall p, p ∈ R <->
     (0 <= pixel_x p < width img /\ 0 <= pixel_y p < height img) /\
     pixel_rgb img p = pure_red /\ pixel_x p > width img / 2) /\
  (forall p, ~ (p ∈ L /\ p ∈ R)) /\
  (forall p, pixel_x p = width img / 2 -> (p ∉ L) /\ (p ∉ R)) /\
  ((forall p, p ∈ column_pixels img -> pixel_rgb img p <> pure_red) ->
   locate_cases img = Ok []).
Proof.
  intros L R.
  assert (locate_cases img =
            Ok ((if nonempty L then ["left"%string] else []) ++
                (if nonempty R then ["right"%string] else []))) as Hcases.
  { unfold locate_cases. rewrite locate_lists_eq. simpl.
    rewrite !nonempty_fmap. fold L R.
    by destruct (nonempty L), (nonempty R). }
  assert (forall p, p ∈ L <->
            (0 <= pixel_x p < width img /\ 0 <= pixel_y p < height img) /\
            pixel_rgb img p = pure_red /\ pixel_x p < width img / 2) as HL.
  { intros p. unfold L. rewrite list_elem_of_filter, elem_of_column_pixels.
    unfold is_left. tauto. }
  assert (forall p, p ∈ R <->
            (0 <= pixel_x p < width img /\ 0 <= pixel_y p < height img) /\
            pixel_rgb img p = pure_red /\ pixel_x p > width img / 2) as HR.
  { intros p. unfold R. rewrite list_elem_of_filter, elem_of_column_pixels.
    unfold is_right. tauto. }
  split_and!; [apply locate_lists_eq|done|done|done| | |].
  - intros p. rewrite HL, HR. lia.
  - intros p Hp. rewrite HL, HR. lia.
  - intros Hnone. rewrite Hcases.
    rewrite (nonempty_false L), (nonempty_false R); [done| |].
    + intros p [Hl Hp]%list_elem_of_filter. apply (Hnone p Hp), Hl.
    + intros p [Hr Hp]%list_elem_of_filter. apply (Hnone p Hp), Hr.
Qed.
End Locator.

(** * Images described by their colours *)

Section HasPx.
Implicit Types (img r : SimpleImage) (F G : Z -> Z -> rgb).

Lemma has_px_self img :
  wf_image img -> has_px img (width img) (height img) (peek img).
Proof. intros Hwf. by split_and!. Qed.

Lemma has_px_ext r W H F G :
  has_px r W H F ->
  (forall X Y, 0 <= X < W -> 0 <= Y < H -> F X Y = G X Y) ->
  has_px r W H G.
Proof.
  intros (Hwf & Hw & Hh & Hpx) HFG. split_and!; [done..|].
  intros X Y HX HY. rewrite Hpx by done. by apply HFG.
Qed.

Lemma has_px_eq r1 r2 W H F :
  has_px r1 W H F -> has_px r2 W H F -> r1 = r2.
Proof.
  intros (Hwf1 & Hw1 & Hh1 & Hpx1) (Hwf2 & Hw2 & Hh2 & Hpx2).
  apply image_ext; [done|done|congruence|congruence|].
  intros X Y HX HY. rewrite Hpx1, Hpx2 by lia. done.
Qed.

Lemma has_px_poke r W H F x y c :
  has_px r W H F -> 0 <= x < W -> 0 <= y < H ->
  has_px (poke r x y c) W H
         (fun X Y => if decide (X = x /\ Y = y) then c else F X Y).
Proof.
  intros (Hwf & Hw & Hh & Hpx) Hx Hy. split_and!; [by apply wf_poke|done..|].
  intros X Y HX HY. rewrite peek_poke by (assumption || lia).
  case_decide; [done|]. by apply Hpx.
Qed.

Lemma has_px_uniform W H c :
  0 <= W -> 0 <= H -> has_px (uniform W H c) W H (fun _ _ => c).
Proof.
  intros HW HH. split_and!; [by apply wf_uniform|done..|].
  intros X Y HX HY. by apply peek_uniform.
Qed.

Lemma lookup_mapi {A B} (f : Z -> A -> B) i (l : list A) (k : nat) :
  mapi f i l !! k = f (i + Z.of_nat k) <$> l !! k.
Proof.
  revert i k. induction l as [|a l IH]; intros i [|k]; simpl; [done..| |].
  - do 2 f_equal. lia.
  - rewrite IH. do 2 f_equal. lia.
Qed.

Lemma length_mapi {A B} (f : Z -> A -> B) i (l : list A) :
  length (mapi f i l) = length l.
Proof. revert i. induction l as [|a l IH]; intros i; simpl; [done|]. by rewrite IH. Qed.

Lemma has_px_map_xy (f : Z -> Z -> rgb -> rgb) img :
  wf_image img ->
  has_px (map_xy f img) (width img) (height img)
         (fun X Y => f X Y (peek img X Y)).
Proof.
  intros Hwf. pose proof Hwf as (Hw & Hh & Hlen & Hrows).
  split_and!; [|done..|].
  - unfold wf_image, map_xy. simpl. split_and!; [done..| |].
    + by rewrite length_mapi.
    + apply Forall_lookup. intros i row Hi.
      rewrite lookup_mapi in Hi.
      destruct (px img !! i) as [row0|] eqn:E; [|done].
      simpl in Hi. injection Hi as <-. rewrite length_mapi.
      by apply (wf_row img i).
  - intros X Y HX HY.
    pose proof (lookup_px_Some img X Y Hwf HX HY) as Hlk.
    unfold peek at 1. unfold lookup_px in *. simpl.
    rewrite lookup_mapi.
    destruct (px img !! Z.to_nat Y) as [row|]; [|done]. simpl in *.
    rewrite lookup_mapi, Hlk. simpl. f_equal; lia.
Qed.

Lemma if_decide_ext {A} (P Q : Prop) `{!Decision P, !Decision Q} (a b : A) :
  (P <-> Q) -> (if decide P then a else b) = (if decide Q then a else b).
Proof. intros HPQ. destruct (decide P), (decide Q); tauto || done. Qed.

Lemma visited_start h x y : ~ visited h 0 0 x y.
Proof. unfold visited. lia. Qed.

Lemma visited_next h k x y : visited h k h x y <-> visited h (k + 1) 0 x y.
Proof. unfold visited. lia. Qed.

Lemma visited_step h k j x y :
  0 <= k -> 0 <= j < h ->
  visited h k (j + 1) x y <-> visited h k j x y \/ (x = k /\ y = j).
Proof. unfold visited. lia. Qed.

Lemma visited_end w h x y :
  visited h w 0 x y <-> 0 <= x < w /\ 0 <= y < h.
Proof. unfold visited. lia. Qed.
End HasPx.

(** * Remapping to the original image *)

Section Compositor.
Implicit Types (image original : SimpleImage).

(** [remove_green] returns the original with, at the centring offset,
    every pixel of [image] whose red channel is 255. *)
Lemma remove_green_spec image original :
  wf_image original ->
  0 <= width image -> 0 <= height image ->
  0 <= (width original - IMAGE_WIDTH) / 2 ->
  width image + (width original - IMAGE_WIDTH) / 2 <= width original ->
  0 <= (height original - IMAGE_HEIGHT) / 2 ->
  height image + (height original - IMAGE_HEIGHT) / 2 <= height original ->
  exists r,
    remove_green image original = Ok r /\
    has_px r (width original) (height original)
      (fun X Y =>
         let x := X - (width original - IMAGE_WIDTH) / 2 in
         let y := Y - (height original - IMAGE_HEIGHT) / 2 in
         if decide ((0 <= x < width image /\ 0 <= y < height image) /\
                    red (peek image x y) = 255)
         then peek image x y else peek original X Y).
Proof.
  intros Hwf Hw Hh Hdx Hfx Hdy Hfy.
  set (dx := (width original - IMAGE_WIDTH) / 2) in *.
  set (dy := (height original - IMAGE_HEIGHT) / 2) in *.
  set (F := fun k j X Y =>
         if decide (visited (height image) k j (X - dx) (Y - dy) /\
                    red (peek image (X - dx) (Y - dy)) = 255)
         then peek image (X - dx) (Y - dy) else peek original X Y).
  destruct (for_in2_range_inv (fun k j s => has_px s (width original) (height original) (F k j))
              (width image) (height image) (remove_green_body image) original)
    as (r & Er & Hr); [done|done| | | |].
  - eapply has_px_ext; [by apply has_px_self|].
    intros X Y _ _. unfold F. rewrite decide_False; [done|].
    intros [Hv _]. by apply visited_start in Hv.
  - intros k j s Hk Hj Hs. unfold remove_green_body.
    rewrite get_pixel_Ok by done. simpl. unfold pixel_rgb. simpl.
    pose proof Hs as (_ & Hws & Hhs & _). rewrite Hws, Hhs. fold dx dy.
    destruct (Z.eqb_spec (red (peek image k j)) 255) as [Ered|Ered].
    + rewrite set_pixel_Ok by lia. eexists. split; [done|].
      eapply has_px_ext; [apply has_px_poke; [done|lia..]|].
      intros X Y HX HY. unfold F. simpl.
      pose proof (visited_step (height image) k j (X - dx) (Y - dy)) as Hst.
      destruct (decide (X = k + dx /\ Y = j + dy)) as [[EX EY]|Hne].
      * replace (X - dx) with k in * by lia.
        replace (Y - dy) with j in * by lia.
        rewrite decide_True; [done|]. split; [|done]. apply Hst; lia.
      * apply if_decide_ext. rewrite Hst by lia. intuition lia.
    + eexists. split; [done|].
      eapply has_px_ext; [done|].
      intros X Y HX HY. unfold F.
      pose proof (visited_step (height image) k j (X - dx) (Y - dy)) as Hst.
      apply if_decide_ext. rewrite Hst by lia. split; [tauto|].
      intros [[Hv|[EX EY]] Hred]; [tauto|]. rewrite EX, EY in Hred. done.
  - intros k s Hk Hs. eapply has_px_ext; [done|].
    intros X Y HX HY. unfold F.
    apply if_decide_ext. by rewrite visited_next.
  - exists r. split; [done|].
    eapply has_px_ext; [done|].
    intros X Y HX HY. unfold F. simpl.
    apply if_decide_ext. by rewrite visited_end.
Qed.

Lemma wf_white_dot : wf_image white_dot.
Proof. apply wf_poke, wf_uniform; discriminate. Qed.

Lemma peek_white_dot x y :
  0 <= x < IMAGE_WIDTH -> 0 <= y < IMAGE_HEIGHT ->
  peek white_dot x y = if decide (x = 10 /\ y = 20) then white else grey 0.
Proof.
  intros Hx Hy. unfold white_dot, IMAGE_WIDTH, IMAGE_HEIGHT in *.
  rewrite peek_poke;
    [|apply wf_uniform; lia|rewrite ?width_uniform, ?height_uniform; lia..].
  by rewrite peek_uniform by lia.
Qed.

(** The function alone, on a pair of images that [main] never passes
    to it: the black detection image with one white pixel at (10,20)
    is not the scan of the classified crop of a 500x400 original of
    grey 7.  The test of [remove_green] reads the red channel only, so
    the white pixel is stored at the centred position (60,70). *)
Lemma remove_green_transfers_white :
  exists r,
    remove_green white_dot (uniform 500 400 (grey 7)) = Ok r /\
    peek white_dot 10 20 = white /\
    peek (uniform 500 400 (grey 7)) 60 70 = grey 7 /\
    peek r 60 70 = white /\
    white <> pure_red.
Proof.
  destruct (remove_green_spec white_dot (uniform 500 400 (grey 7)))
    as (r & Er & _ & _ & _ & Hpx);
    [apply wf_uniform; lia|discriminate..|].
  exists r. split; [exact Er|].
  assert (peek white_dot 10 20 = white) as Hdot
      by (rewrite peek_white_dot; [reflexivity|split; [discriminate|reflexivity]..]).
  split; [exact Hdot|]. split; [apply peek_uniform; lia|].
  split; [|discriminate].
  rewrite Hpx; [|split; [discriminate|reflexivity]..]. cbv zeta.
  change (60 - (width (uniform 500 400 (grey 7)) - IMAGE_WIDTH) / 2) with 10.
  change (70 - (height (uniform 500 400 (grey 7)) - IMAGE_HEIGHT) / 2) with 20.
  rewrite Hdot. apply decide_True.
  split; [|reflexivity]. split; (split; [discriminate|reflexivity]).
Qed.

(** The same detection image has no pure red pixel; over a 400x300
    original of grey 7, which is again not an image it can be the
    scan of, the white pixel replaces the pixel at (10,20). *)
Lemma remove_green_without_red_changes :
  (forall c, c ∈ all_colours white_dot -> c <> pure_red) /\
  exists r,
    remove_green white_dot (uniform IMAGE_WIDTH IMAGE_HEIGHT (grey 7)) = Ok r /\
    peek r 10 20 = white /\
    r <> uniform IMAGE_WIDTH IMAGE_HEIGHT (grey 7).
Proof.
  split.
  - intros c Hc. apply (elem_of_colours _ _ wf_white_dot) in Hc
      as (x & y & Hx & Hy & <-).
    rewrite peek_white_dot by assumption. case_decide; discriminate.
  - destruct (remove_green_spec white_dot
                (uniform IMAGE_WIDTH IMAGE_HEIGHT (grey 7)))
      as (r & Er & _ & _ & _ & Hpx);
      [apply wf_uniform; discriminate|discriminate..|].
    exists r. split; [exact Er|].
    assert (peek white_dot 10 20 = white) as Hdot
        by (rewrite peek_white_dot; [reflexivity|split; [discriminate|reflexivity]..]).
    assert (peek r 10 20 = white) as Hr.
    { rewrite Hpx; [|split; [discriminate|reflexivity]..]. cbv zeta.
      change (10 - (width (uniform IMAGE_WIDTH IMAGE_HEIGHT (grey 7))
                    - IMAGE_WIDTH) / 2) with 10.
      change (20 - (height (uniform IMAGE_WIDTH IMAGE_HEIGHT (grey 7))
                    - IMAGE_HEIGHT) / 2) with 20.
      rewrite Hdot. apply decide_True.
      split; [|reflexivity]. split; (split; [discriminate|reflexivity]). }
    split; [exact Hr|]. intros ->.
    rewrite peek_uniform in Hr by (unfold IMAGE_WIDTH, IMAGE_HEIGHT; lia).
    discriminate.
Qed.
End Compositor.

(** * The region sampler *)

Section Sampler.
Implicit Types (image : SimpleImage).

Lemma has_px_crop image n m :
  wf_image image ->
  0 <= n -> n + AREA_SIZE <= width image ->
  0 <= m -> m + AREA_SIZE <= height image ->
  has_px (crop image n m) AREA_SIZE AREA_SIZE
         (fun x y => peek image (x + n) (y + m)).
Proof.
  intros Hwf Hn Hnw Hm Hmh. pose proof Hwf as (Hw & Hh & Hlen & Hrows).
  unfold AREA_SIZE in *.
  split_and!; [|done..|].
  - unfold wf_image, crop, AREA_SIZE. simpl. split_and!; [done..| |].
    + rewrite length_fmap, length_take, length_drop. lia.
    + apply Forall_fmap, Forall_take, Forall_drop.
      eapply Forall_impl; [exact Hrows|]. intros row Hrow. simpl in *.
      rewrite length_take, length_drop, Hrow. lia.
  - intros x y Hx Hy.
    pose proof (lookup_px_Some image (x + n) (y + m) Hwf) as Hlk.
    unfold peek at 1. unfold lookup_px, crop, AREA_SIZE in *. simpl.
    rewrite list_lookup_fmap, lookup_take_lt, lookup_drop by lia.
    replace (Z.to_nat m + Z.to_nat y)%nat with (Z.to_nat (y + m)) by lia.
    destruct (px image !! Z.to_nat (y + m)) as [row|]; simpl in *.
    + rewrite lookup_take_lt, lookup_drop by lia.
      replace (Z.to_nat n + Z.to_nat x)%nat with (Z.to_nat (x + n)) by lia.
      rewrite Hlk by lia. done.
    + by specialize (Hlk ltac:(lia) ltac:(lia)).
Qed.

(** Inside the image [get_area] returns the window. *)
Lemma get_area_eq image n m :
  wf_image image ->
  0 <= n -> n + AREA_SIZE <= width image ->
  0 <= m -> m + AREA_SIZE <= height image ->
  get_area image n m = Ok (crop image n m).
Proof.
  intros Hwf Hn Hnw Hm Hmh. unfold get_area.
  set (F := fun k j (x y : Z) =>
         if decide (visited AREA_SIZE k j y x) then peek image (x + n) (y + m)
         else white).
  destruct (for_in2_range_inv
              (fun k j s => has_px s AREA_SIZE AREA_SIZE (F k j))
              AREA_SIZE AREA_SIZE (get_area_body image n m)
              (blank AREA_SIZE AREA_SIZE))
    as (r & Er & Hr); [done|done| | | |].
  - eapply has_px_ext; [by apply has_px_uniform|].
    intros x y _ _. unfold F. rewrite decide_False; [done|].
    apply visited_start.
  - intros k j s Hk Hj Hs. unfold get_area_body, AREA_SIZE in *.
    rewrite get_pixel_Ok by lia. simpl.
    pose proof Hs as (_ & Hws & Hhs & _).
    rewrite set_pixel_Ok by lia. eexists. split; [done|].
    eapply has_px_ext; [apply has_px_poke; [done|lia..]|].
    intros x y Hx Hy. unfold F, pixel_rgb. simpl.
    pose proof (visited_step 100 k j y x) as Hst.
    destruct (decide (x = j /\ y = k)) as [[-> ->]|Hne].
    + rewrite decide_True; [done|]. apply Hst; lia.
    + apply if_decide_ext. rewrite Hst by lia. intuition lia.
  - intros k s Hk Hs. eapply has_px_ext; [done|].
    intros x y Hx Hy. unfold F. apply if_decide_ext. apply visited_next.
  - rewrite Er. f_equal.
    eapply has_px_eq; [|by apply has_px_crop].
    eapply has_px_ext; [done|].
    intros x y Hx Hy. unfold F. rewrite decide_True; [done|].
    apply visited_end. done.
Qed.
End Sampler.

(** * The case detector *)

Section Detector.
Implicit Types (image area : SimpleImage).

Lemma paint_red area p :
  wf_image area ->
  0 <= pixel_x p < width area -> 0 <= pixel_y p < height area ->
  set_blue (set_green (set_red area p 255) p 0) p 0
  = poke area (pixel_x p) (pixel_y p) pure_red.
Proof.
  intros Hwf Hx Hy. unfold set_red, set_green, set_blue, pixel_rgb.
  repeat (rewrite ?poke_poke; rewrite ?peek_poke_eq by done). done.
Qed.

(** The loop of [scan_area] turns the ring of the area red. *)
Lemma scan_area_loop area :
  wf_image area -> width area = AREA_SIZE -> height area = AREA_SIZE ->
  exists highlight,
    for_in2 (range AREA_SIZE) (range AREA_SIZE) scan_area_body
            (area, blank AREA_SIZE AREA_SIZE)
    = Ok (draw_border area, highlight).
Proof.
  intros Hwf Hw Hh.
  set (F := fun k j (x y : Z) =>
         if decide (visited AREA_SIZE k j x y /\ ring x y = true)
         then pure_red else peek area x y).
  destruct (for_in2_range_inv
              (fun k j (s : SimpleImage * SimpleImage) =>
                 has_px s.1 AREA_SIZE AREA_SIZE (F k j) /\
                 wf_image s.2 /\ width s.2 = AREA_SIZE /\
                 height s.2 = AREA_SIZE)
              AREA_SIZE AREA_SIZE scan_area_body
              (area, blank AREA_SIZE AREA_SIZE))
    as ([r hl] & Er & Hr & _); [done|done| | | |].
  - simpl. split_and!; [|by apply wf_blank|done..].
    eapply has_px_ext; [rewrite <- Hw at 1; rewrite <- Hh at 1;
                        by apply has_px_self|].
    intros x y _ _. unfold F. rewrite decide_False; [done|].
    intros [Hv _]. by apply visited_start in Hv.
  - intros k j [a hl] Hk Hj (Ha & Hwfh & Hwh & Hhh). simpl in *.
    pose proof Ha as (Hwfa & Hwa & Hha & _).
    unfold scan_area_body.
    rewrite get_pixel_Ok by lia. simpl.
    rewrite set_pixel_Ok by lia. simpl.
    assert (forall a', has_px a' AREA_SIZE AREA_SIZE (F k (j + 1)) ->
              exists s', Ok (a', poke hl k j (pixel_rgb a (mkPixel k j))) = Ok s' /\
                has_px s'.1 AREA_SIZE AREA_SIZE (F k (j + 1)) /\
                wf_image s'.2 /\ width s'.2 = AREA_SIZE /\
                height s'.2 = AREA_SIZE) as Hfin.
    { intros a' Ha'. eexists. split; [done|]. simpl.
      split_and!; [done|by apply wf_poke|done..]. }
    fold (ring k j).
    pose proof (fun x y => visited_step AREA_SIZE k j x y) as Hst.
    destruct (ring k j) eqn:Ering.
    + rewrite paint_red by (assumption || (simpl; lia)). simpl.
      apply Hfin.
      eapply has_px_ext; [apply has_px_poke; [done|lia..]|].
      intros x y Hx Hy. unfold F.
      destruct (decide (x = k /\ y = j)) as [[-> ->]|Hne].
      * rewrite decide_True; [done|]. split; [|done]. apply Hst; lia.
      * apply if_decide_ext. rewrite Hst by lia. intuition lia.
    + apply Hfin. eapply has_px_ext; [done|].
      intros x y Hx Hy. unfold F. apply if_decide_ext.
      rewrite Hst by lia. split; [tauto|].
      intros [[Hv|[-> ->]] Hr]; [tauto|congruence].
  - intros k [a hl] Hk (Ha & Hrest). simpl in *. split; [|done].
    eapply has_px_ext; [done|].
    intros x y Hx Hy. unfold F. apply if_decide_ext.
    by rewrite visited_next.
  - exists hl. rewrite Er. do 2 f_equal. simpl in Hr.
    eapply has_px_eq.
    + eapply has_px_ext; [done|]. intros x y Hx Hy. unfold F.
      instantiate (1 := fun x y => if ring x y then pure_red else peek area x y).
      simpl. destruct (ring x y).
      * rewrite decide_True; [done|]. split; [|done]. by apply visited_end.
      * rewrite decide_False; [done|]. intros [_ ?]. done.
    + rewrite <- Hw at 1. rewrite <- Hh at 1.
      apply (has_px_map_xy (fun x y c => if ring x y then pure_red else c)).
      done.
Qed.

Lemma scan_area_with_eq area area_green_avg image_green_avg :
  wf_image area -> width area = AREA_SIZE -> height area = AREA_SIZE ->
  scan_area_with area area_green_avg image_green_avg =
    if in_band image_green_avg area_green_avg
    then Ok (draw_border area, 1) else Ok (area, 0).
Proof.
  intros Hwf Hw Hh. unfold scan_area_with, in_band.
  destruct (select_band image_green_avg) as [lo hi].
  destruct ((lo <=? area_green_avg) && (area_green_avg <=? hi)); [|done].
  destruct (scan_area_loop area Hwf Hw Hh) as [hl ->]. done.
Qed.

(** The first loop of [add_area] makes a copy of the image. *)
Lemma add_area_copy image :
  wf_image image ->
  for_in2 (range (width image)) (range (height image)) (copy_body image)
          (blank (width image) (height image))
  = Ok image.
Proof.
  intros Hwf. pose proof Hwf as (Hw & Hh & _).
  set (F := fun k j (X Y : Z) =>
         if decide (visited (height image) k j X Y) then peek image X Y
         else white).
  destruct (for_in2_range_inv
              (fun k j s => has_px s (width image) (height image) (F k j))
              (width image) (height image) (copy_body image)
              (blank (width image) (height image)))
    as (r & Er & Hr); [done|done| | | |].
  - eapply has_px_ext; [by apply has_px_uniform|].
    intros X Y _ _. unfold F. rewrite decide_False; [done|].
    apply visited_start.
  - intros k j s Hk Hj Hs. unfold copy_body.
    rewrite get_pixel_Ok by done. simpl.
    pose proof Hs as (_ & Hws & Hhs & _).
    rewrite set_pixel_Ok by lia. eexists. split; [done|].
    eapply has_px_ext; [apply has_px_poke; [done|lia..]|].
    intros X Y HX HY. unfold F, pixel_rgb. simpl.
    pose proof (visited_step (height image) k j X Y) as Hst.
    destruct (decide (X = k /\ Y = j)) as [[-> ->]|Hne].
    + rewrite decide_True; [done|]. apply Hst; lia.
    + apply if_decide_ext. rewrite Hst by lia. intuition lia.
  - intros k s Hk Hs. eapply has_px_ext; [done|].
    intros X Y HX HY. unfold F. apply if_decide_ext. apply visited_next.
  - rewrite Er. f_equal.
    eapply has_px_eq; [|by apply has_px_self].
    eapply has_px_ext; [done|].
    intros X Y HX HY. unfold F. rewrite decide_True; [done|].
    by apply visited_end.
Qed.

(** [add_area] for an offset inside the image: the area is stored at
    the offset, but where the window meets the top left square of the
    area size the image keeps its own colours, unless the offset is
    the origin. *)
Lemma add_area_spec image red_area n m :
  wf_image image -> wf_image red_area ->
  width red_area = AREA_SIZE -> height red_area = AREA_SIZE ->
  0 <= n -> n + AREA_SIZE <= width image ->
  0 <= m -> m + AREA_SIZE <= height image ->
  exists r,
    add_area image red_area n m = Ok r /\
    has_px r (width image) (height image)
      (fun X Y =>
         if decide ((n <= X < n + AREA_SIZE /\ m <= Y < m + AREA_SIZE) /\
                    ~ (X < AREA_SIZE /\ Y < AREA_SIZE /\ ~ (n = 0 /\ m = 0)))
         then peek red_area (X - n) (Y - m) else peek image X Y).
Proof.
  intros Hwf Hwfa Hwa Hha Hn Hnw Hm Hmh.
  unfold add_area. rewrite (add_area_copy image Hwf). simpl.
  set (F := fun k j (X Y : Z) =>
         if decide (visited AREA_SIZE k j (X - n) (Y - m) /\
                    ~ (visited AREA_SIZE k j X Y /\ ~ (n = 0 /\ m = 0)))
         then peek red_area (X - n) (Y - m) else peek image X Y).
  destruct (for_in2_range_inv
              (fun k j s => has_px s (width image) (height image) (F k j))
              AREA_SIZE AREA_SIZE (add_area_body image red_area n m) image)
    as (r & Er & Hr); [done|done| | | |].
  - eapply has_px_ext; [by apply has_px_self|].
    intros X Y _ _. unfold F. rewrite decide_False; [done|].
    intros [Hv _]. by apply visited_start in Hv.
  - intros k j s Hk Hj Hs. unfold add_area_body, AREA_SIZE in *.
    pose proof Hs as (Hwfs & Hws & Hhs & _).
    rewrite (get_pixel_Ok image), (get_pixel_Ok red_area) by lia. simpl.
    rewrite (set_pixel_Ok s) by lia. simpl.
    rewrite set_pixel_Ok by (simpl; lia). eexists. split; [done|].
    eapply has_px_ext;
      [apply has_px_poke; [apply has_px_poke; [done|lia..]|lia..]|].
    intros X Y HX HY. unfold F, pixel_rgb. simpl.
    pose proof (visited_step 100 k j (X - n) (Y - m)) as Hst.
    pose proof (visited_step 100 k j X Y) as Hst'.
    destruct (decide (X = k + n /\ Y = j + m)) as [[EX EY]|Hne].
    + replace (X - n) with k in * by lia.
      replace (Y - m) with j in * by lia.
      rewrite decide_True; [done|]. split; [apply Hst; lia|].
      rewrite Hst' by lia. unfold visited. lia.
    + destruct (decide (X = k /\ Y = j)) as [[-> ->]|Hne'].
      * rewrite decide_False; [done|]. intros [_ Hnot]. apply Hnot.
        split; [apply Hst'; lia|lia].
      * apply if_decide_ext. rewrite Hst, Hst' by lia. intuition lia.
  - intros k s Hk Hs. eapply has_px_ext; [done|].
    intros X Y HX HY. unfold F. apply if_decide_ext.
    by rewrite !visited_next.
  - exists r. split; [done|].
    eapply has_px_ext; [done|].
    intros X Y HX HY. unfold F. apply if_decide_ext.
    rewrite !visited_end. unfold AREA_SIZE. lia.
Qed.

Lemma painted_true n m X Y :
  painted n m X Y = true <->
  (n <= X < n + AREA_SIZE /\ m <= Y < m + AREA_SIZE) /\
  ring (X - n) (Y - m) = true /\
  ~ (X < AREA_SIZE /\ Y < AREA_SIZE /\ ~ (n = 0 /\ m = 0)).
Proof.
  unfold painted.
  rewrite !andb_true_iff, negb_true_iff, !andb_false_iff, negb_false_iff,
    andb_true_iff, !Z.leb_le, !Z.ltb_lt, !Z.ltb_ge, !Z.eqb_eq.
  unfold AREA_SIZE.
  destruct (ring (X - n) (Y - m)).
  - split; intros H; split_and!; try done; lia.
  - split; [intros [[_ ?] _]|intros (_ & ? & _)]; done.
Qed.

Lemma mapi_ext {A B} (f g : Z -> A -> B) i (l : list A) :
  (forall k a, f k a = g k a) -> mapi f i l = mapi g i l.
Proof.
  intros Hfg. revert i. induction l as [|a l IH]; intros i; simpl; [done|].
  by rewrite Hfg, IH.
Qed.

Lemma mapi_id {A} (f : Z -> A -> A) i (l : list A) :
  (forall k a, f k a = a) -> mapi f i l = l.
Proof.
  intros Hf. revert i. induction l as [|a l IH]; intros i; simpl; [done|].
  by rewrite Hf, IH.
Qed.

Lemma paint_ring_map_xy image n m :
  paint_ring image n m =
    map_xy (fun X Y c => if painted n m X Y then pure_red else c) image.
Proof.
  unfold paint_ring, map_xy. f_equal. apply mapi_ext. intros Y row.
  destruct ((m <=? Y) && (Y <? m + AREA_SIZE)) eqn:E; [done|].
  symmetry. apply mapi_id. intros X c.
  assert (painted n m X Y = false) as ->; [|done].
  unfold painted. apply andb_false_iff in E.
  destruct (n <=? X), (X <? n + AREA_SIZE); simpl; try done.
  destruct E as [-> | ->]; simpl; [done|by rewrite andb_false_r].
Qed.

Lemma has_px_paint_ring image n m :
  wf_image image ->
  has_px (paint_ring image n m) (width image) (height image)
         (fun X Y => if painted n m X Y then pure_red else peek image X Y).
Proof.
  intros Hwf. rewrite paint_ring_map_xy.
  apply (has_px_map_xy (fun X Y c => if painted n m X Y then pure_red else c)).
  done.
Qed.

Lemma has_px_draw_border area :
  wf_image area ->
  has_px (draw_border area) (width area) (height area)
         (fun x y => if ring x y then pure_red else peek area x y).
Proof.
  intros Hwf.
  apply (has_px_map_xy (fun x y c => if ring x y then pure_red else c)).
  done.
Qed.

Lemma tally_fold (l : list rgb) (acc : Z * Z) :
  foldl tally acc l =
    (acc.1 + sumZ (green <$> filter (fun c => green c <> 255) l),
     acc.2 + Z.of_nat (length (filter (fun c => green c <> 255) l))).
Proof.
  revert acc. induction l as [|c l IH]; intros [t k].
  - simpl. f_equal; lia.
  - simpl foldl. rewrite IH. unfold tally.
    destruct (Z.eqb_spec (green c) 255) as [E|E]; cbn [fst snd].
    + by rewrite (filter_cons_False (fun c => green c <> 255)) by tauto.
    + rewrite (filter_cons_True (fun c => green c <> 255)) by done.
      rewrite fmap_cons. unfold sumZ. cbn [foldr length].
      rewrite Nat2Z.inj_succ. f_equal; lia.
Qed.

Lemma tally_rows (rows : list (list rgb)) (acc : Z * Z) :
  foldl (fun acc row => foldl tally acc row) acc rows
  = foldl tally acc (mjoin rows).
Proof.
  revert acc. induction rows as [|row rows IH]; intros acc; [done|].
  simpl. by rewrite foldl_app, IH.
Qed.

Lemma mean_green_unfold image :
  mean_green image =
    floordiv (sumZ (unmarked_greens image))
             (Z.of_nat (length (unmarked_greens image))).
Proof.
  unfold mean_green. rewrite tally_rows, tally_fold. cbn [fst snd].
  unfold unmarked_greens, all_colours. rewrite length_fmap. done.
Qed.

Lemma mean_green_eq image :
  wf_image image -> get_green_agv image = mean_green image.
Proof. intros Hwf. by rewrite mean_green_unfold, get_green_agv_eq. Qed.

(** Merging a confirmed area paints the ring; merging an area that
    was not confirmed gives the image back. *)
Lemma add_area_confirmed image n m :
  wf_image image ->
  0 <= n -> n + AREA_SIZE <= width image ->
  0 <= m -> m + AREA_SIZE <= height image ->
  add_area image (draw_border (crop image n m)) n m
  = Ok (paint_ring image n m).
Proof.
  intros Hwf Hn Hnw Hm Hmh.
  pose proof (has_px_crop image n m Hwf Hn Hnw Hm Hmh)
    as (Hwfc & Hwc & Hhc & Hpc).
  pose proof (has_px_draw_border _ Hwfc) as (Hwfb & Hwb & Hhb & Hpb).
  rewrite Hwc in Hwb. rewrite Hhc in Hhb.
  destruct (add_area_spec image (draw_border (crop image n m)) n m)
    as (r & -> & Hr); [done..|].
  f_equal.
  eapply has_px_eq; [|by apply has_px_paint_ring].
  eapply has_px_ext; [done|].
  intros X Y HX HY. cbv beta.
  pose proof (painted_true n m X Y) as Hp.
  destruct (decide ((n <= X < n + AREA_SIZE /\ m <= Y < m + AREA_SIZE) /\ _))
    as [Hc|Hc].
  - rewrite Hwc, Hhc in Hpb. rewrite Hpb, Hpc by (unfold AREA_SIZE in *; lia).
    replace (X - n + n) with X by lia. replace (Y - m + m) with Y by lia.
    destruct (ring (X - n) (Y - m)) eqn:Er.
    + by rewrite (proj2 Hp) by tauto.
    + destruct (painted n m X Y); [|done].
      destruct (proj1 Hp eq_refl) as (_ & ? & _). done.
  - destruct (painted n m X Y); [|done].
    destruct (proj1 Hp eq_refl) as (? & _ & ?). tauto.
Qed.

Lemma add_area_unconfirmed image n m :
  wf_image image ->
  0 <= n -> n + AREA_SIZE <= width image ->
  0 <= m -> m + AREA_SIZE <= height image ->
  add_area image (crop image n m) n m = Ok image.
Proof.
  intros Hwf Hn Hnw Hm Hmh.
  pose proof (has_px_crop image n m Hwf Hn Hnw Hm Hmh)
    as (Hwfc & Hwc & Hhc & Hpc).
  destruct (add_area_spec image (crop image n m) n m)
    as (r & -> & Hr); [done..|].
  f_equal.
  eapply has_px_eq; [|by apply has_px_self].
  eapply has_px_ext; [done|].
  intros X Y HX HY. cbv beta.
  destruct (decide ((n <= X < n + AREA_SIZE /\ m <= Y < m + AREA_SIZE) /\ _))
    as [Hc|Hc]; [|done].
  rewrite Hpc by (unfold AREA_SIZE in *; lia). f_equal; lia.
Qed.

(** One round of [find_cases] on a window inside the image. *)
Lemma find_cases_body_eq image case_count n m :
  wf_image image ->
  0 <= n -> n + AREA_SIZE <= width image ->
  0 <= m -> m + AREA_SIZE <= height image ->
  find_cases_body n m (image, case_count) = scan_step n m (image, case_count).
Proof.
  intros Hwf Hn Hnw Hm Hmh. unfold find_cases_body, scan_step.
  rewrite get_area_eq by done. bind_ok.
  pose proof (has_px_crop image n m Hwf Hn Hnw Hm Hmh)
    as (Hwfc & Hwc & Hhc & Hpc).
  unfold scan_area.
  rewrite (mean_green_eq _ Hwfc), (mean_green_eq _ Hwf).
  destruct (mean_green (crop image n m)) as [a|e]; bind_ok; [|done].
  destruct (mean_green image) as [i|e]; bind_ok; [|done].
  rewrite scan_area_with_eq by done.
  destruct (in_band i a); bind_ok; cbv beta iota zeta.
  - rewrite add_area_confirmed by done. done.
  - rewrite add_area_unconfirmed by done. bind_ok.
    by rewrite Z.add_0_r.
Qed.

Lemma find_cases_hoisted_body_eq image_green_avg image case_count n m :
  wf_image image ->
  0 <= n -> n + AREA_SIZE <= width image ->
  0 <= m -> m + AREA_SIZE <= height image ->
  find_cases_hoisted_body image_green_avg n m (image, case_count)
  = scan_step_hoisted image_green_avg n m (image, case_count).
Proof.
  intros Hwf Hn Hnw Hm Hmh. unfold find_cases_hoisted_body, scan_step_hoisted.
  rewrite get_area_eq by done. bind_ok.
  pose proof (has_px_crop image n m Hwf Hn Hnw Hm Hmh)
    as (Hwfc & Hwc & Hhc & Hpc).
  rewrite (mean_green_eq _ Hwfc).
  destruct (mean_green (crop image n m)) as [a|e]; bind_ok; [|done].
  rewrite scan_area_with_eq by done.
  destruct (in_band image_green_avg a); bind_ok; cbv beta iota zeta.
  - rewrite add_area_confirmed by done. done.
  - rewrite add_area_unconfirmed by done. bind_ok.
    by rewrite Z.add_0_r.
Qed.

(** A round keeps the size of the image, and either leaves the state
    as it is or paints a ring and counts one case. *)
Lemma scan_step_inv image case_count n m st :
  wf_image image ->
  scan_step n m (image, case_count) = Ok st ->
  (wf_image st.1 /\ width st.1 = width image /\ height st.1 = height image)
  /\ (st = (image, case_count) \/
      st = (paint_ring image n m, case_count + 1)).
Proof.
  intros Hwf. unfold scan_step.
  destruct (mean_green (crop image n m)) as [a|e]; bind_ok; [|done].
  destruct (mean_green image) as [i|e]; bind_ok; [|done].
  destruct (in_band i a); intros [= <-]; cbn [fst snd].
  - pose proof (has_px_paint_ring image n m Hwf) as (? & ? & ? & _).
    split; [done|by right].
  - split; [done|by left].
Qed.

Lemma scan_step_hoisted_inv image_green_avg image case_count n m st :
  wf_image image ->
  scan_step_hoisted image_green_avg n m (image, case_count) = Ok st ->
  (wf_image st.1 /\ width st.1 = width image /\ height st.1 = height image)
  /\ (st = (image, case_count) \/
      st = (paint_ring image n m, case_count + 1)).
Proof.
  intros Hwf. unfold scan_step_hoisted.
  destruct (mean_green (crop image n m)) as [a|e]; bind_ok; [|done].
  destruct (in_band image_green_avg a); intros [= <-]; cbn [fst snd].
  - pose proof (has_px_paint_ring image n m Hwf) as (? & ? & ? & _).
    split; [done|by right].
  - split; [done|by left].
Qed.

Lemma elem_of_scan_offsets w h x y :
  (x, y) ∈ scan_offsets w h <->
  x ∈ py_range 0 (w - AREA_SIZE / 2) STEP_SIZE /\
  y ∈ py_range 0 (h - AREA_SIZE / 2) STEP_SIZE.
Proof.
  unfold scan_offsets. rewrite list_elem_of_bind. split.
  - intros (x' & Hy & Hx). apply list_elem_of_bind in Hy as (y' & Hxy & Hy).
    apply list_elem_of_singleton in Hxy as [= -> ->]. done.
  - intros [Hx Hy]. exists x. split; [|done].
    apply list_elem_of_bind. exists y. split; [|done].
    by apply list_elem_of_singleton.
Qed.

(** The two loops of the scan, for a body that agrees with a round
    [step] on the windows inside an image of the size at hand, are
    the sequence of the rounds. *)
Lemma scan_loops_eq (body step : Z -> Z -> SimpleImage * Z -> result (SimpleImage * Z))
      image :
  wf_image image -> offsets_fit (width image) (height image) ->
  (forall n m img cc,
     wf_image img -> width img = width image -> height img = height image ->
     0 <= n -> n + AREA_SIZE <= width image ->
     0 <= m -> m + AREA_SIZE <= height image ->
     body n m (img, cc) = step n m (img, cc)) ->
  (forall n m img cc st,
     wf_image img -> step n m (img, cc) = Ok st ->
     wf_image st.1 /\ width st.1 = width img /\ height st.1 = height img) ->
  for_in (py_range 0 (width image - AREA_SIZE / 2) STEP_SIZE)
    (fun x st =>
       for_in (py_range 0 (height (fst st) - AREA_SIZE / 2) STEP_SIZE)
         (fun y st => body x y st) st)
    (image, 0)
  = for_in (scan_offsets (width image) (height image))
           (fun xy st => step xy.1 xy.2 st) (image, 0).
Proof.
  intros Hwf Hfit Hbody Hstep.
  set (W := width image). set (H := height image).
  set (xs := py_range 0 (W - AREA_SIZE / 2) STEP_SIZE).
  set (ys := py_range 0 (H - AREA_SIZE / 2) STEP_SIZE).
  set (Inv := fun st : SimpleImage * Z =>
                wf_image st.1 /\ width st.1 = W /\ height st.1 = H).
  assert (forall x y, x ∈ xs -> y ∈ ys ->
            (0 <= x /\ x + AREA_SIZE <= W) /\ (0 <= y /\ y + AREA_SIZE <= H))
    as Hin.
  { intros x y Hx Hy. unfold offsets_fit in Hfit.
    rewrite Forall_forall in Hfit.
    apply (Hfit (x, y)). by apply elem_of_scan_offsets. }
  assert (forall x st, x ∈ xs -> Inv st ->
            for_in (py_range 0 (height st.1 - AREA_SIZE / 2) STEP_SIZE)
                   (fun y st => body x y st) st
            = for_in ys (fun y st => step x y st) st /\
            forall st', for_in ys (fun y st => step x y st) st = Ok st'
                        -> Inv st') as Hinner.
  { intros x st Hx HI. pose proof HI as (_ & _ & ->). fold ys.
    apply (for_in_ext_inv Inv); [done|].
    intros y [img cc] Hy (Hwf' & Hw' & Hh'). cbn [fst snd] in *.
    destruct (Hin x y Hx Hy) as [[? ?] [? ?]].
    split.
    - apply Hbody; done.
    - intros st' Est. apply Hstep in Est as (? & ? & ?); [|done].
      unfold Inv. split_and!; [done|congruence..]. }
  destruct (for_in_ext_inv Inv xs
              (fun x st =>
                 for_in (py_range 0 (height st.1 - AREA_SIZE / 2) STEP_SIZE)
                        (fun y st => body x y st) st)
              (fun x st => for_in ys (fun y st => step x y st) st)
              (image, 0)) as [-> _]; [done|done|].
  fold (for_in2 xs ys (fun x y st => step x y st) (image, 0)).
  by rewrite for_in2_flat.
Qed.

(** When every window of the scan lies inside the image,
    [find_cases] is the sequence of rounds. *)
Lemma find_cases_eq image :
  wf_image image -> offsets_fit (width image) (height image) ->
  find_cases image = scan image.
Proof.
  intros Hwf Hfit. unfold find_cases, scan.
  apply (scan_loops_eq find_cases_body scan_step); [done..| |].
  - intros n m img cc Hwf' Hw' Hh' ? ? ? ?.
    apply find_cases_body_eq; [done|lia..].
  - intros n m img cc st Hwf' Est. by apply scan_step_inv in Est as [? _].
Qed.

Lemma find_cases_hoisted_eq image :
  wf_image image -> offsets_fit (width image) (height image) ->
  find_cases_hoisted image = scan_hoisted image.
Proof.
  intros Hwf Hfit. unfold find_cases_hoisted, scan_hoisted.
  rewrite (mean_green_eq _ Hwf).
  destruct (mean_green image) as [i|e]; bind_ok; [|done].
  apply (scan_loops_eq (find_cases_hoisted_body i) (scan_step_hoisted i));
    [done..| |].
  - intros n m img cc Hwf' Hw' Hh' ? ? ? ?.
    apply find_cases_hoisted_body_eq; [done|lia..].
  - intros n m img cc st Hwf' Est.
    by apply scan_step_hoisted_inv in Est as [? _].
Qed.

Lemma scan_offsets_working :
  scan_offsets IMAGE_WIDTH IMAGE_HEIGHT =
    x ← [0; 50; 100; 150; 200; 250; 300]; y ← [0; 50; 100; 150; 200]; [(x, y)].
Proof. reflexivity. Qed.

Lemma offsets_fit_working : offsets_fit IMAGE_WIDTH IMAGE_HEIGHT.
Proof.
  unfold offsets_fit. rewrite scan_offsets_working.
  unfold AREA_SIZE, IMAGE_WIDTH, IMAGE_HEIGHT.
  repeat constructor; simpl; lia.
Qed.

Lemma mean_green_error img e :
  mean_green img = Raise e -> e = ZeroDivisionError.
Proof.
  unfold mean_green. destruct (foldl _ _ _) as [t k]. unfold floordiv.
  destruct (k =? 0); [by intros [= <-]|done].
Qed.

Lemma scan_step_error n m st e :
  scan_step n m st = Raise e -> e = ZeroDivisionError.
Proof.
  destruct st as [image cc]. unfold scan_step.
  destruct (mean_green (crop image n m)) as [a|e1] eqn:Ea; bind_ok.
  - destruct (mean_green image) as [i|e2] eqn:Ei; bind_ok.
    + by destruct (in_band i a).
    + intros [= <-]. by apply mean_green_error in Ei.
  - intros [= <-]. by apply mean_green_error in Ea.
Qed.

Lemma for_in_error {A S} (xs : list A) (body : A -> S -> result S) s e e0 :
  (forall x s e, body x s = Raise e -> e = e0) ->
  for_in xs body s = Raise e -> e = e0.
Proof.
  intros Hbody. revert s. induction xs as [|x xs IH]; intros s; [done|].
  simpl. destruct (body x s) as [s'|e'] eqn:E; simpl.
  - apply IH.
  - intros [= <-]. by apply Hbody in E.
Qed.

Lemma scan_error image e : scan image = Raise e -> e = ZeroDivisionError.
Proof.
  unfold scan. apply for_in_error. intros xy st e'. apply scan_step_error.
Qed.

(** C9: at the working resolution every offset of the scan leaves
    room for a whole area, [x + AREA_SIZE <= width] and
    [y + AREA_SIZE <= height]; so [get_area] raises at none of them,
    on the image or on any image of that size, and the scan as a
    whole never ends in the out-of-bounds error. *)
Theorem scan_within_bounds image :
  wf_image image ->
  width image = IMAGE_WIDTH -> height image = IMAGE_HEIGHT ->
  (forall x y,
     x ∈ py_range 0 (width image - AREA_SIZE / 2) STEP_SIZE ->
     y ∈ py_range 0 (height image - AREA_SIZE / 2) STEP_SIZE ->
     (0 <= x /\ x + AREA_SIZE <= width image) /\
     (0 <= y /\ y + AREA_SIZE <= height image) /\
     forall img, wf_image img ->
       width img = IMAGE_WIDTH -> height img = IMAGE_HEIGHT ->
       get_area img x y = Ok (crop img x y)) /\
  find_cases image <> Raise OutOfBounds.
Proof.
  intros Hwf Hw Hh. pose proof offsets_fit_working as Hfit. split.
  - intros x y Hx Hy. rewrite Hw, Hh in *.
    unfold offsets_fit in Hfit. rewrite Forall_forall in Hfit.
    destruct (Hfit (x, y)) as [[Hx0 Hx1] [Hy0 Hy1]];
      [by apply elem_of_scan_offsets|]. simpl in *.
    split_and!; [done..|].
    intros img Hwf' Hw' Hh'. apply get_area_eq; [done|lia..].
  - rewrite find_cases_eq by (rewrite ?Hw, ?Hh; done).
    intros E. apply scan_error in E. discriminate.
Qed.

Lemma scan_within_bounds_witness :
  find_cases (uniform IMAGE_WIDTH IMAGE_HEIGHT (grey 0)) <> Raise OutOfBounds.
Proof.
  apply (scan_within_bounds (uniform IMAGE_WIDTH IMAGE_HEIGHT (grey 0))).
  - apply wf_uniform; discriminate.
  - reflexivity.
  - reflexivity.
Defined.

Lemma wf_imageb_true img : wf_imageb img = true -> wf_image img.
Proof.
  unfold wf_imageb, wf_image.
  rewrite !andb_true_iff, !Z.leb_le, Nat.eqb_eq, forallb_forall.
  intros [[[Hw Hh] Hlen] Hrows]. split_and!; [done..|].
  apply Forall_forall. intros row Hrow.
  apply Nat.eqb_eq, Hrows. by apply list_elem_of_In.
Qed.

Lemma scan_step_eq image case_count n m a i :
  mean_green (crop image n m) = Ok a -> mean_green image = Ok i ->
  scan_step n m (image, case_count) =
    if in_band i a then Ok (paint_ring image n m, case_count + 1)
    else Ok (image, case_count).
Proof. intros Ea Ei. unfold scan_step. by rewrite Ea, Ei. Qed.

Lemma scan_step_hoisted_eq image case_count n m a i :
  mean_green (crop image n m) = Ok a ->
  scan_step_hoisted i n m (image, case_count) =
    if in_band i a then Ok (paint_ring image n m, case_count + 1)
    else Ok (image, case_count).
Proof. intros Ea. unfold scan_step_hoisted. by rewrite Ea. Qed.

(** Rounds that confirm no window leave the state as it is. *)
Lemma scan_rounds_unconfirmed image avg (l : list (Z * Z)) case_count :
  mean_green image = Ok avg ->
  unconfirmed_on image avg l = true ->
  for_in l (fun xy st => scan_step xy.1 xy.2 st) (image, case_count)
  = Ok (image, case_count).
Proof.
  intros Havg. unfold unconfirmed_on. rewrite forallb_forall.
  induction l as [|[n m] l IH]; intros Hall; [done|].
  cbn [for_in fst snd].
  pose proof (Hall (n, m) (or_introl eq_refl)) as Hnm. cbn [fst snd] in Hnm.
  destruct (mean_green (crop image n m)) as [a|e] eqn:Ea; [|done].
  rewrite (scan_step_eq _ _ _ _ a avg) by done.
  apply negb_true_iff in Hnm. rewrite Hnm. bind_ok.
  apply IH. intros xy Hxy. apply Hall. by right.
Qed.

Lemma scan_rounds_hoisted_unconfirmed image avg (l : list (Z * Z)) case_count :
  unconfirmed_on image avg l = true ->
  for_in l (fun xy st => scan_step_hoisted avg xy.1 xy.2 st) (image, case_count)
  = Ok (image, case_count).
Proof.
  unfold unconfirmed_on. rewrite forallb_forall.
  induction l as [|[n m] l IH]; intros Hall; [done|].
  cbn [for_in fst snd].
  pose proof (Hall (n, m) (or_introl eq_refl)) as Hnm. cbn [fst snd] in Hnm.
  destruct (mean_green (crop image n m)) as [a|e] eqn:Ea; [|done].
  rewrite (scan_step_hoisted_eq _ _ _ _ a avg) by done.
  apply negb_true_iff in Hnm. rewrite Hnm. bind_ok.
  apply IH. intros xy Hxy. apply Hall. by right.
Qed.

(** The count never decreases; when it has not changed at the end,
    no round has changed the image, and the rounds with the average
    computed beforehand do the same. *)
Lemma scan_rounds_zero (l : list (Z * Z)) image c img' c' :
  wf_image image ->
  for_in l (fun xy st => scan_step xy.1 xy.2 st) (image, c) = Ok (img', c') ->
  c <= c' /\
  (c' = c ->
   img' = image /\
   (l <> [] -> exists avg, mean_green image = Ok avg) /\
   forall avg, mean_green image = Ok avg ->
     for_in l (fun xy st => scan_step_hoisted avg xy.1 xy.2 st) (image, c)
     = Ok (image, c)).
Proof.
  revert image c. induction l as [|[n m] l IH]; intros image c Hwf.
  - intros [= <- <-]. split; [lia|]. intros _. split_and!; done.
  - cbn [for_in fst snd].
    destruct (scan_step n m (image, c)) as [st1|e] eqn:E1; [|done]. bind_ok.
    pose proof (scan_step_inv _ _ _ _ _ Hwf E1) as [(Hwf1 & _ & _) _].
    assert (exists a i, mean_green (crop image n m) = Ok a /\
                        mean_green image = Ok i) as (a & i & Ea & Ei).
    { unfold scan_step in E1.
      destruct (mean_green (crop image n m)) as [a|e]; [|done].
      destruct (mean_green image) as [i|e]; [|done]. by exists a, i. }
    rewrite (scan_step_eq _ _ _ _ a i Ea Ei) in E1. intros Hrest.
    destruct (in_band i a) eqn:Eb; injection E1 as <-.
    + apply IH in Hrest as [Hle _]; [|done]. split; [lia|]. lia.
    + apply IH in Hrest as [Hle Hsame]; [|done]. split; [done|].
      intros ->. destruct Hsame as (-> & _ & Hh); [done|].
      split_and!; [done|by eexists|].
      intros avg Havg. rewrite Ei in Havg. injection Havg as <-.
      rewrite (scan_step_hoisted_eq _ _ _ _ a i Ea), Eb. bind_ok.
      by apply Hh.
Qed.

(** The frame of the scan: every pixel of the result has the colour it
    had in the input, or is pure red and lies on the ring of a scanned
    window. *)
Lemma scan_rounds_frame (l : list (Z * Z)) image c img' c' :
  wf_image image ->
  for_in l (fun xy st => scan_step xy.1 xy.2 st) (image, c) = Ok (img', c') ->
  wf_image img' /\ width img' = width image /\ height img' = height image /\
  forall X Y, 0 <= X < width image -> 0 <= Y < height image ->
    peek img' X Y = peek image X Y \/
    (peek img' X Y = pure_red /\
     exists n m, (n, m) ∈ l /\ painted n m X Y = true).
Proof.
  revert image c. induction l as [|[n m] l IH]; intros image c Hwf.
  - intros [= <- <-]. split_and!; [done..|]. intros X Y _ _. by left.
  - cbn [for_in fst snd].
    destruct (scan_step n m (image, c)) as [[img1 c1]|e] eqn:E1; [|done].
    bind_ok. intros Hrest.
    pose proof (scan_step_inv _ _ _ _ _ Hwf E1) as [(Hwf1 & Hw1 & Hh1) Hst].
    cbn [fst snd] in *.
    destruct (IH _ _ Hwf1 Hrest) as (Hwf' & Hw' & Hh' & Hpx).
    split_and!; [done|congruence..|].
    intros X Y HX HY.
    destruct (Hpx X Y) as [Hsame|(Hred & n' & m' & Hin & Hp)]; [lia..| |].
    + rewrite Hsame. destruct Hst as [[= -> _]|[= -> _]]; [by left|].
      pose proof (has_px_paint_ring image n m Hwf) as (_ & _ & _ & Hpaint).
      rewrite Hpaint by done. destruct (painted n m X Y) eqn:Ep; [|by left].
      right. split; [done|]. exists n, m. split; [apply list_elem_of_here|done].
    + right. split; [done|]. exists n', m'.
      split; [by apply list_elem_of_further|done].
Qed.

Lemma find_cases_frame image img' c :
  wf_image image -> offsets_fit (width image) (height image) ->
  find_cases image = Ok (img', c) ->
  wf_image img' /\ width img' = width image /\ height img' = height image /\
  forall X Y, 0 <= X < width image -> 0 <= Y < height image ->
    peek img' X Y = peek image X Y \/
    (peek img' X Y = pure_red /\
     exists n m, (n, m) ∈ scan_offsets (width image) (height image) /\
                 (n <= X < n + AREA_SIZE /\ m <= Y < m + AREA_SIZE) /\
                 ring (X - n) (Y - m) = true).
Proof.
  intros Hwf Hfit E. rewrite find_cases_eq in E by done. unfold scan in E.
  destruct (scan_rounds_frame _ _ _ _ _ Hwf E) as (Hwf' & Hw' & Hh' & Hpx).
  split_and!; [done..|]. intros X Y HX HY.
  destruct (Hpx X Y HX HY) as [Hsame|(Hred & n & m & Hin & Hp)]; [by left|].
  right. split; [done|]. exists n, m. split; [done|].
  apply painted_true in Hp as (? & ? & _). done.
Qed.

(** The case count is at most the number of windows. *)
Lemma scan_rounds_count (l : list (Z * Z)) image c img' c' :
  wf_image image ->
  for_in l (fun xy st => scan_step xy.1 xy.2 st) (image, c) = Ok (img', c') ->
  c <= c' <= c + Z.of_nat (length l).
Proof.
  revert image c. induction l as [|[n m] l IH]; intros image c Hwf.
  - intros [= <- <-]. simpl. lia.
  - cbn [for_in fst snd].
    destruct (scan_step n m (image, c)) as [[img1 c1]|e] eqn:E1; [|done].
    bind_ok. intros Hrest.
    pose proof (scan_step_inv _ _ _ _ _ Hwf E1) as [(Hwf1 & _ & _) Hst].
    cbn [fst snd] in *. apply IH in Hrest; [|done].
    cbn [length]. destruct Hst as [[= _ ->]|[= _ ->]]; lia.
Qed.
End Detector.

(** * The scan on concrete working images *)

Section Scenarios.

Lemma scan_offsets_list :
  scan_offsets IMAGE_WIDTH IMAGE_HEIGHT =
    [(0, 0); (0, 50); (0, 100); (0, 150); (0, 200);
     (50, 0); (50, 50); (50, 100); (50, 150); (50, 200);
     (100, 0); (100, 50); (100, 100); (100, 150); (100, 200);
     (150, 0); (150, 50); (150, 100); (150, 150); (150, 200);
     (200, 0); (200, 50); (200, 100); (200, 150); (200, 200);
     (250, 0); (250, 50); (250, 100); (250, 150); (250, 200);
     (300, 0); (300, 50); (300, 100); (300, 150); (300, 200)].
Proof. reflexivity. Qed.

Lemma wf_working_uniform c : wf_image (uniform IMAGE_WIDTH IMAGE_HEIGHT c).
Proof. apply wf_uniform; discriminate. Qed.

Lemma find_cases_working_uniform c :
  find_cases (uniform IMAGE_WIDTH IMAGE_HEIGHT c)
  = scan (uniform IMAGE_WIDTH IMAGE_HEIGHT c).
Proof.
  apply find_cases_eq; [apply wf_working_uniform|apply offsets_fit_working].
Qed.

(** Classification of a uniform image. *)
Lemma highlight_areas_uniform c :
  highlight_areas (uniform IMAGE_WIDTH IMAGE_HEIGHT c)
  = uniform IMAGE_WIDTH IMAGE_HEIGHT (classify c).
Proof.
  destruct (highlight_areas_spec _ (wf_working_uniform c))
    as (Hwf & Hw & Hh & Hpx).
  rewrite width_uniform in Hw, Hpx. rewrite height_uniform in Hh, Hpx.
  apply (has_px_eq _ _ IMAGE_WIDTH IMAGE_HEIGHT (fun _ _ => classify c)).
  - split; [exact Hwf|]. split; [exact Hw|]. split; [exact Hh|].
    intros X Y HX HY. rewrite Hpx by assumption.
    by rewrite peek_uniform by assumption.
  - apply has_px_uniform; discriminate.
Qed.

(** The scan of the image of grey 15: every window is confirmed; the
    pixel (50,50) has kept its grey, the pixel (149,50) is red. *)
Lemma scan_uniform_15 :
  exists img',
    find_cases uniform_15 = Ok (img', 35) /\
    peek img' 50 50 = grey 15 /\ peek img' 149 50 = pure_red.
Proof.
  unfold uniform_15. rewrite find_cases_working_uniform.
  assert (probe 50 50 149 50 (scan (uniform IMAGE_WIDTH IMAGE_HEIGHT (grey 15)))
          = Ok (35, grey 15, pure_red)) as Hp
      by (vm_compute; reflexivity).
  destruct (scan (uniform IMAGE_WIDTH IMAGE_HEIGHT (grey 15)))
    as [[img' c]|e]; [|discriminate Hp].
  injection Hp as -> H1 H2. exists img'. split; [reflexivity|]. split; assumption.
Qed.

(** The scan of the image whose pixels are all candidate markers
    stops at the first window, which has no average. *)
Lemma find_cases_all_marked :
  find_cases (uniform IMAGE_WIDTH IMAGE_HEIGHT pure_green)
  = Raise ZeroDivisionError.
Proof. rewrite find_cases_working_uniform. vm_compute. reflexivity. Qed.

Lemma find_cases_all_220 :
  find_cases (highlight_areas all_220) = Raise ZeroDivisionError.
Proof.
  unfold all_220. rewrite highlight_areas_uniform.
  change (classify (grey 220)) with pure_green. apply find_cases_all_marked.
Qed.

(** A uniform image none of whose windows is confirmed comes back
    unchanged with the count 0. *)
Lemma find_cases_unconfirmed c avg :
  mean_green (uniform IMAGE_WIDTH IMAGE_HEIGHT c) = Ok avg ->
  unconfirmed_on (uniform IMAGE_WIDTH IMAGE_HEIGHT c) avg
                 (scan_offsets IMAGE_WIDTH IMAGE_HEIGHT) = true ->
  find_cases (uniform IMAGE_WIDTH IMAGE_HEIGHT c)
  = Ok (uniform IMAGE_WIDTH IMAGE_HEIGHT c, 0).
Proof.
  intros Havg Hun. rewrite find_cases_working_uniform. unfold scan.
  rewrite width_uniform, height_uniform.
  by apply (scan_rounds_unconfirmed _ avg).
Qed.

Lemma find_cases_uniform_95 : find_cases uniform_95 = Ok (uniform_95, 0).
Proof.
  apply (find_cases_unconfirmed (grey 95) 95); vm_compute; reflexivity.
Qed.

Lemma find_cases_unclassified_220 : find_cases all_220 = Ok (all_220, 0).
Proof.
  apply (find_cases_unconfirmed (grey 220) 220); vm_compute; reflexivity.
Qed.

(** On a working image the case count is at most the number of
    windows, 35. *)
Lemma find_cases_count_working image img' c :
  wf_image image ->
  width image = IMAGE_WIDTH -> height image = IMAGE_HEIGHT ->
  find_cases image = Ok (img', c) -> 0 <= c <= 35.
Proof.
  intros Hwf Hw Hh E.
  rewrite find_cases_eq in E
    by (rewrite ?Hw, ?Hh; done || apply offsets_fit_working).
  unfold scan in E. apply scan_rounds_count in E; [|done].
  rewrite Hw, Hh, scan_offsets_list in E. simpl in E. lia.
Qed.

(** C2 (as stated, refuted): the 400x300 image of grey 220 is
    entirely candidate-marked by classification, and its scan raises
    the division-by-zero error at the first window instead of
    counting 48 cases (unclassified, its scan counts 0 cases); the
    scan has 35 offsets, none with x above 300 or y above 200. *)
Lemma scan_all_220_counterexample :
  highlight_areas all_220 = uniform IMAGE_WIDTH IMAGE_HEIGHT pure_green /\
  find_cases (highlight_areas all_220) = Raise ZeroDivisionError /\
  find_cases all_220 = Ok (all_220, 0) /\
  length (scan_offsets IMAGE_WIDTH IMAGE_HEIGHT) = 35%nat /\
  Forall (fun xy : Z * Z => xy.1 <= 300 /\ xy.2 <= 200)
         (scan_offsets IMAGE_WIDTH IMAGE_HEIGHT).
Proof.
  split; [apply (highlight_areas_uniform (grey 220))|].
  split; [apply find_cases_all_220|].
  split; [apply find_cases_unclassified_220|].
  split; [reflexivity|].
  rewrite scan_offsets_list. repeat constructor; simpl; lia.
Qed.

(** C2 (amended): on a 400x300 working image the scan visits the
    offsets x in {0,50,...,300} and y in {0,50,...,200}, 7 x 5 = 35
    windows.  On the uniform image of grey 15, which classification
    leaves unmarked, every window is confirmed and the case count is
    35.  On the image of grey 220, all of whose pixels classification
    marks, no region average exists and the scan raises the
    division-by-zero error. *)
Theorem scan_uniform_count :
  scan_offsets IMAGE_WIDTH IMAGE_HEIGHT =
    (x ← [0; 50; 100; 150; 200; 250; 300]; y ← [0; 50; 100; 150; 200]; [(x, y)]) /\
  length (scan_offsets IMAGE_WIDTH IMAGE_HEIGHT) = 35%nat /\
  highlight_areas uniform_15 = uniform_15 /\
  (exists img', find_cases uniform_15 = Ok (img', 35)) /\
  find_cases (highlight_areas all_220) = Raise ZeroDivisionError.
Proof.
  split; [reflexivity|]. split; [reflexivity|].
  split; [apply (highlight_areas_uniform (grey 15))|].
  split; [|apply find_cases_all_220].
  destruct scan_uniform_15 as (img' & E & _). by exists img'.
Qed.

(** C10 (the code at the failing input): in the scan of the uniform
    image of grey 15 all 35 windows are confirmed, among them the one
    at offset (50,0).  The pixel (50,50) lies on the left column of
    its ring, and the pixel (149,50) on the right column.  The latter
    is red in the result; the former still has the grey of the
    input. *)
Theorem ring_pixel_left_unpainted :
  exists img',
    find_cases uniform_15 = Ok (img', Z.of_nat (length (scan_offsets IMAGE_WIDTH IMAGE_HEIGHT))) /\
    (50, 0) ∈ scan_offsets IMAGE_WIDTH IMAGE_HEIGHT /\
    ring (50 - 50) (50 - 0) = true /\ ring (149 - 50) (50 - 0) = true /\
    peek uniform_15 50 50 = grey 15 /\
    peek img' 149 50 = pure_red /\
    peek img' 50 50 = grey 15.
Proof.
  destruct scan_uniform_15 as (img' & E & H1 & H2). exists img'.
  split; [exact E|].
  split; [rewrite scan_offsets_list; do 5 apply list_elem_of_further;
          apply list_elem_of_here|].
  split; [reflexivity|]. split; [reflexivity|].
  split; [apply peek_uniform; unfold IMAGE_WIDTH, IMAGE_HEIGHT; lia|].
  split; [exact H2|exact H1].
Qed.

Lemma for_in_cons {A S} (x : A) (xs : list A) (body : A -> S -> result S) s :
  for_in (x :: xs) body s = s' ← body x s; for_in xs body s'.
Proof. reflexivity. Qed.

Lemma wf_dark_corner : wf_image dark_corner.
Proof. apply wf_imageb_true. vm_compute. reflexivity. Qed.

(** The scan of [dark_corner]: the window at the origin is confirmed
    under the fallback band of the average 85; its red ring lowers
    the average to 84, whose band (108,110) no later window meets. *)
Lemma find_cases_dark_corner :
  find_cases dark_corner = Ok (paint_ring dark_corner 0 0, 1).
Proof.
  rewrite find_cases_eq; [|apply wf_dark_corner|apply offsets_fit_working].
  unfold scan.
  change (width dark_corner) with IMAGE_WIDTH.
  change (height dark_corner) with IMAGE_HEIGHT.
  rewrite scan_offsets_list, for_in_cons. cbn [fst snd].
  rewrite (scan_step_eq dark_corner 0 0 0 15 85); [|vm_compute; reflexivity..].
  change (in_band 85 15) with true. bind_ok. change (0 + 1) with 1.
  apply (scan_rounds_unconfirmed _ 84); vm_compute; reflexivity.
Qed.

(** C1 (as stated, refuted): on the working image [dark_corner]
    (greys 15 and 95, both outside the intensity band) the scan that
    recomputes the whole-image average for every window counts one
    case, and the scan that computes it once at the start counts two:
    the red ring merged for the first window changes the average from
    85 to 84 and with it the band. *)
Lemma hoisting_counterexample :
  snd <$> find_cases dark_corner = Ok 1 /\
  snd <$> find_cases_hoisted dark_corner = Ok 2.
Proof.
  split.
  - rewrite find_cases_dark_corner. reflexivity.
  - rewrite find_cases_hoisted_eq;
      [|apply wf_dark_corner|apply offsets_fit_working].
    vm_compute. reflexivity.
Qed.

End Scenarios.


(** * Further properties: loops that raise *)

(** Case analysis on the test of a conditional of the goal. *)
Ltac case_if H :=
  match goal with
  | |- context [match ?d with left _ => _ | right _ => _ end] =>
      destruct d as [H|H]
  end.

Section Raising.
Context {A S : Type}.

(** A loop whose body returns, keeping an invariant, or raises [e],
    returns with the invariant or raises [e]. *)
Lemma for_in_ok_or_raise (Inv : S -> Prop) (xs : list A)
      (body : A -> S -> result S) s e :
  Inv s ->
  (forall x s, x ∈ xs -> Inv s ->
     (exists s', body x s = Ok s' /\ Inv s') \/ body x s = Raise e) ->
  (exists s', for_in xs body s = Ok s' /\ Inv s') \/ for_in xs body s = Raise e.
Proof.
  revert s. induction xs as [|x xs IH]; intros s Hs Hbody.
  - left. by exists s.
  - cbn [for_in].
    destruct (Hbody x s) as [(s' & -> & Hs')| ->];
      [apply list_elem_of_here|done| |by right].
    bind_ok. apply IH; [done|].
    intros y s2 Hy. apply Hbody. by apply list_elem_of_further.
Qed.

(** If moreover the body raises at some element whatever the state,
    the loop raises. *)
Lemma for_in_must_raise (Inv : S -> Prop) (xs : list A)
      (body : A -> S -> result S) s e :
  Inv s ->
  (forall x s, x ∈ xs -> Inv s ->
     (exists s', body x s = Ok s' /\ Inv s') \/ body x s = Raise e) ->
  (exists x, x ∈ xs /\ forall s, Inv s -> body x s = Raise e) ->
  for_in xs body s = Raise e.
Proof.
  revert s. induction xs as [|x xs IH]; intros s Hs Hbody (x0 & Hx0 & Hraise).
  - by apply not_elem_of_nil in Hx0.
  - cbn [for_in].
    destruct (Hbody x s) as [(s' & E & Hs')| ->];
      [apply list_elem_of_here|done| |done].
    rewrite E. bind_ok. apply IH; [done| |].
    + intros y s2 Hy. apply Hbody. by apply list_elem_of_further.
    + exists x0. split; [|done].
      apply elem_of_cons in Hx0 as [->|Hx0]; [|done].
      rewrite (Hraise s Hs) in E. discriminate E.
Qed.
End Raising.

(** * Further properties: the centred crop *)

Section Crop.
Implicit Types (image : SimpleImage).

Lemma crop_image_loop image :
  wf_image image ->
  IMAGE_WIDTH <= width image -> IMAGE_HEIGHT <= height image ->
  exists r,
    for_in2 (range IMAGE_WIDTH) (range IMAGE_HEIGHT) (crop_body image)
            (blank IMAGE_WIDTH IMAGE_HEIGHT) = Ok r /\
    has_px r IMAGE_WIDTH IMAGE_HEIGHT
      (fun x y => peek image (x + (width image - IMAGE_WIDTH) / 2)
                             (y + (height image - IMAGE_HEIGHT) / 2)).
Proof.
  intros Hwf Hw Hh.
  set (dx := (width image - IMAGE_WIDTH) / 2).
  set (dy := (height image - IMAGE_HEIGHT) / 2).
  assert (0 <= dx /\ dx + IMAGE_WIDTH <= width image) as [Hdx Hdx'].
  { unfold dx, IMAGE_WIDTH in *. split; [apply Z.div_pos; lia|].
    pose proof (Z.mul_div_le (width image - 400) 2). lia. }
  assert (0 <= dy /\ dy + IMAGE_HEIGHT <= height image) as [Hdy Hdy'].
  { unfold dy, IMAGE_HEIGHT in *. split; [apply Z.div_pos; lia|].
    pose proof (Z.mul_div_le (height image - 300) 2). lia. }
  set (F := fun k j (x y : Z) =>
         if decide (visited IMAGE_HEIGHT k j x y) then peek image (x + dx) (y + dy)
         else white).
  destruct (for_in2_range_inv
              (fun k j s => has_px s IMAGE_WIDTH IMAGE_HEIGHT (F k j))
              IMAGE_WIDTH IMAGE_HEIGHT (crop_body image)
              (blank IMAGE_WIDTH IMAGE_HEIGHT))
    as (r & Er & Hr); [done|done| | | |].
  - eapply has_px_ext; [by apply has_px_uniform|].
    intros x y _ _. unfold F. rewrite decide_False; [done|].
    apply visited_start.
  - intros k j s Hk Hj Hs. unfold crop_body. fold dx dy.
    unfold IMAGE_WIDTH, IMAGE_HEIGHT in *.
    rewrite get_pixel_Ok by lia. bind_ok.
    pose proof Hs as (_ & Hws & Hhs & _).
    rewrite set_pixel_Ok by lia. eexists. split; [done|].
    eapply has_px_ext; [apply has_px_poke; [done|lia..]|].
    intros x y Hx Hy. unfold F, pixel_rgb. cbn [pixel_x pixel_y].
    pose proof (visited_step 300 k j x y) as Hst.
    destruct (decide (x = k /\ y = j)) as [[-> ->]|Hne].
    + rewrite decide_True; [done|]. apply Hst; lia.
    + apply if_decide_ext. rewrite Hst by lia. intuition lia.
  - intros k s Hk Hs. eapply has_px_ext; [done|].
    intros x y Hx Hy. unfold F. apply if_decide_ext. apply visited_next.
  - exists r. split; [done|]. eapply has_px_ext; [done|].
    intros x y Hx Hy. unfold F. rewrite decide_True; [done|].
    by apply visited_end.
Qed.

Lemma crop_image_has_px image :
  wf_image image ->
  IMAGE_WIDTH <= width image -> IMAGE_HEIGHT <= height image ->
  exists r,
    crop_image image = Ok r /\
    has_px r IMAGE_WIDTH IMAGE_HEIGHT
      (fun x y => peek image (x + (width image - IMAGE_WIDTH) / 2)
                             (y + (height image - IMAGE_HEIGHT) / 2)) /\
    (width image = IMAGE_WIDTH -> height image = IMAGE_HEIGHT -> r = image).
Proof.
  intros Hwf Hw Hh. unfold crop_image.
  destruct ((width image =? IMAGE_WIDTH) && (height image =? IMAGE_HEIGHT)) eqn:E.
  - apply andb_true_iff in E as [Ew%Z.eqb_eq Eh%Z.eqb_eq].
    exists image. split_and!; [done| |done].
    split_and!; [done..|].
    intros x y Hx Hy. rewrite Ew, Eh, !Z.sub_diag.
    change (0 / 2) with 0. by rewrite !Z.add_0_r.
  - destruct (crop_image_loop image Hwf Hw Hh) as (r & -> & Hr).
    exists r. split_and!; [done..|].
    intros Ew Eh. rewrite Ew, Eh, !Z.eqb_refl in E. discriminate E.
Qed.

(** X1: on an image of at least 400x300 [crop_image] returns a
    400x300 image whose pixel [(x, y)] is the pixel of the image at
    [(x + (width - 400) // 2, y + (height - 300) // 2)]: the centred
    frame.  An image that is exactly 400x300 is returned as it is. *)
Theorem crop_image_centred image :
  wf_image image ->
  IMAGE_WIDTH <= width image -> IMAGE_HEIGHT <= height image ->
  exists r,
    crop_image image = Ok r /\
    wf_image r /\ width r = IMAGE_WIDTH /\ height r = IMAGE_HEIGHT /\
    (forall x y, 0 <= x < IMAGE_WIDTH -> 0 <= y < IMAGE_HEIGHT ->
       peek r x y = peek image (x + (width image - IMAGE_WIDTH) / 2)
                               (y + (height image - IMAGE_HEIGHT) / 2)) /\
    (width image = IMAGE_WIDTH -> height image = IMAGE_HEIGHT -> r = image).
Proof.
  intros Hwf Hw Hh.
  destruct (crop_image_has_px image Hwf Hw Hh)
    as (r & E & (Hwf' & Hw' & Hh' & Hpx) & Hsame).
  exists r. split_and!; done.
Qed.

Lemma crop_image_centred_witness :
  exists r,
    crop_image (uniform 500 400 (grey 7)) = Ok r /\
    wf_image r /\ width r = IMAGE_WIDTH /\ height r = IMAGE_HEIGHT /\
    (forall x y, 0 <= x < IMAGE_WIDTH -> 0 <= y < IMAGE_HEIGHT ->
       peek r x y = peek (uniform 500 400 (grey 7))
                         (x + (width (uniform 500 400 (grey 7)) - IMAGE_WIDTH) / 2)
                         (y + (height (uniform 500 400 (grey 7)) - IMAGE_HEIGHT) / 2)) /\
    (width (uniform 500 400 (grey 7)) = IMAGE_WIDTH ->
     height (uniform 500 400 (grey 7)) = IMAGE_HEIGHT ->
     r = uniform 500 400 (grey 7)).
Proof.
  apply (crop_image_centred (uniform 500 400 (grey 7))).
  - apply wf_uniform; lia.
  - rewrite width_uniform. unfold IMAGE_WIDTH. lia.
  - rewrite height_uniform. unfold IMAGE_HEIGHT. lia.
Defined.

Lemma range_head n : 0 < n -> exists tl, range n = 0 :: tl.
Proof.
  intros Hn. rewrite range_eq.
  destruct (Z.to_nat n) as [|k] eqn:E; [lia|].
  simpl. by eexists.
Qed.

Lemma crop_image_raise image :
  width image < IMAGE_WIDTH \/ height image < IMAGE_HEIGHT ->
  crop_image image = Raise OutOfBounds.
Proof.
  intros Hsmall. unfold crop_image.
  assert ((width image =? IMAGE_WIDTH) && (height image =? IMAGE_HEIGHT) = false)
    as ->.
  { apply andb_false_iff. rewrite !Z.eqb_neq. lia. }
  destruct (range_head IMAGE_WIDTH) as [xs ->]; [done|].
  destruct (range_head IMAGE_HEIGHT) as [ys ->]; [done|].
  unfold for_in2. cbn [for_in].
  assert (crop_body image 0 0 (blank IMAGE_WIDTH IMAGE_HEIGHT)
          = Raise OutOfBounds) as ->; [|done].
  unfold crop_body. rewrite get_pixel_Raise; [done|].
  unfold IMAGE_WIDTH, IMAGE_HEIGHT in *.
  assert ((width image - 400) / 2 < 0 \/ (height image - 300) / 2 < 0) as Hneg.
  { destruct Hsmall as [H|H]; [left|right];
      apply Z.div_lt_upper_bound; lia. }
  lia.
Qed.

(** X2: on an image that is narrower than 400 or lower than 300
    [crop_image] raises the out-of-bounds error: the source position of
    the first pixel is negative. *)
Theorem crop_image_too_small image :
  width image < IMAGE_WIDTH \/ height image < IMAGE_HEIGHT ->
  crop_image image = Raise OutOfBounds.
Proof. apply crop_image_raise. Qed.

Lemma crop_image_too_small_witness :
  crop_image (uniform 399 300 (grey 7)) = Raise OutOfBounds.
Proof.
  apply (crop_image_too_small (uniform 399 300 (grey 7))).
  left. rewrite width_uniform. unfold IMAGE_WIDTH. lia.
Defined.
End Crop.

(** * Further properties: remapping *)

Section Remap.
Implicit Types (image original : SimpleImage).

(** The centring offset keeps a working image inside an original of at
    least the working size. *)
Lemma centre_fits W :
  IMAGE_WIDTH <= W ->
  0 <= (W - IMAGE_WIDTH) / 2 /\ IMAGE_WIDTH + (W - IMAGE_WIDTH) / 2 <= W.
Proof.
  unfold IMAGE_WIDTH. intros HW. split; [apply Z.div_pos; lia|].
  pose proof (Z.mul_div_le (W - 400) 2). lia.
Qed.

Lemma centre_fits_height H :
  IMAGE_HEIGHT <= H ->
  0 <= (H - IMAGE_HEIGHT) / 2 /\ IMAGE_HEIGHT + (H - IMAGE_HEIGHT) / 2 <= H.
Proof.
  unfold IMAGE_HEIGHT. intros HH. split; [apply Z.div_pos; lia|].
  pose proof (Z.mul_div_le (H - 300) 2). lia.
Qed.

Lemma remove_green_working image original :
  wf_image original ->
  width image = IMAGE_WIDTH -> height image = IMAGE_HEIGHT ->
  IMAGE_WIDTH <= width original -> IMAGE_HEIGHT <= height original ->
  exists r,
    remove_green image original = Ok r /\
    has_px r (width original) (height original)
      (fun X Y =>
         let x := X - (width original - IMAGE_WIDTH) / 2 in
         let y := Y - (height original - IMAGE_HEIGHT) / 2 in
         if decide ((0 <= x < width image /\ 0 <= y < height image) /\
                    red (peek image x y) = 255)
         then peek image x y else peek original X Y).
Proof.
  intros Hwf Hw Hh HW HH.
  destruct (centre_fits _ HW) as [? ?].
  destruct (centre_fits_height _ HH) as [? ?].
  apply remove_green_spec; rewrite ?Hw, ?Hh; done.
Qed.

(** X3: for a detection image of the working size and an original of
    at least that size, [remove_green] returns an image of the size of
    the original; the pixel at [(X, Y)] is the pixel of the detection
    image at [(X - (W - 400) // 2, Y - (H - 300) // 2)] when that
    position lies in the detection image and its red channel is 255,
    and the pixel of the original otherwise. *)
Theorem remove_green_result image original :
  wf_image original ->
  width image = IMAGE_WIDTH -> height image = IMAGE_HEIGHT ->
  IMAGE_WIDTH <= width original -> IMAGE_HEIGHT <= height original ->
  exists r,
    remove_green image original = Ok r /\
    wf_image r /\ width r = width original /\ height r = height original /\
    forall X Y, 0 <= X < width original -> 0 <= Y < height original ->
      peek r X Y =
        if decide ((0 <= X - (width original - IMAGE_WIDTH) / 2 < IMAGE_WIDTH /\
                    0 <= Y - (height original - IMAGE_HEIGHT) / 2 < IMAGE_HEIGHT) /\
                   red (peek image (X - (width original - IMAGE_WIDTH) / 2)
                                   (Y - (height original - IMAGE_HEIGHT) / 2)) = 255)
        then peek image (X - (width original - IMAGE_WIDTH) / 2)
                        (Y - (height original - IMAGE_HEIGHT) / 2)
        else peek original X Y.
Proof.
  intros Hwf Hw Hh HW HH.
  destruct (remove_green_working image original Hwf Hw Hh HW HH)
    as (r & E & Hwf' & Hw' & Hh' & Hpx).
  exists r. split_and!; [done..|].
  intros X Y HX HY. rewrite Hpx by done. cbv zeta. rewrite Hw, Hh. done.
Qed.

Lemma remove_green_result_witness :
  exists r,
    remove_green white_dot (uniform 500 400 (grey 7)) = Ok r /\
    wf_image r /\ width r = 500 /\ height r = 400 /\
    forall X Y, 0 <= X < 500 -> 0 <= Y < 400 ->
      peek r X Y =
        if decide ((0 <= X - 50 < IMAGE_WIDTH /\ 0 <= Y - 50 < IMAGE_HEIGHT) /\
                   red (peek white_dot (X - 50) (Y - 50)) = 255)
        then peek white_dot (X - 50) (Y - 50)
        else peek (uniform 500 400 (grey 7)) X Y.
Proof.
  apply (remove_green_result white_dot (uniform 500 400 (grey 7))).
  - apply wf_uniform; lia.
  - reflexivity.
  - reflexivity.
  - rewrite width_uniform. unfold IMAGE_WIDTH. lia.
  - rewrite height_uniform. unfold IMAGE_HEIGHT. lia.
Defined.

Lemma for_in_unchanged {A S} (xs : list A) (body : A -> S -> result S) s :
  (forall x, x ∈ xs -> body x s = Ok s) -> for_in xs body s = Ok s.
Proof.
  induction xs as [|x xs IH]; intros Hbody; [done|].
  cbn [for_in]. rewrite Hbody by apply list_elem_of_here. bind_ok.
  apply IH. intros y Hy. apply Hbody. by apply list_elem_of_further.
Qed.

(** X4: when no pixel of the detection image has the red channel 255,
    [remove_green] returns the original itself, whatever the sizes of
    the two images: nothing is stored, so nothing can be out of
    bounds. *)
Theorem remove_green_nothing_to_transfer image original :
  (forall x y, 0 <= x < width image -> 0 <= y < height image ->
               red (peek image x y) <> 255) ->
  remove_green image original = Ok original.
Proof.
  intros Hred. unfold remove_green, for_in2.
  apply for_in_unchanged. intros x Hx%elem_of_range.
  apply for_in_unchanged. intros y Hy%elem_of_range.
  unfold remove_green_body. rewrite get_pixel_Ok by done. bind_ok.
  unfold pixel_rgb. cbn [pixel_x pixel_y].
  by rewrite (proj2 (Z.eqb_neq _ _) (Hred x y Hx Hy)).
Qed.

Lemma remove_green_nothing_to_transfer_witness :
  remove_green (uniform 3 2 (grey 0)) (uniform 1 1 (grey 7))
  = Ok (uniform 1 1 (grey 7)).
Proof.
  apply (remove_green_nothing_to_transfer (uniform 3 2 (grey 0))).
  intros x y Hx Hy. rewrite width_uniform in Hx. rewrite height_uniform in Hy.
  rewrite peek_uniform by lia. discriminate.
Defined.

(** X5: cropping and remapping agree on the centring offset: laying
    the crop of an image of at least 400x300 back over the image gives
    the image itself. *)
Theorem remove_green_of_crop original :
  wf_image original ->
  IMAGE_WIDTH <= width original -> IMAGE_HEIGHT <= height original ->
  exists cropped,
    crop_image original = Ok cropped /\
    remove_green cropped original = Ok original.
Proof.
  intros Hwf HW HH.
  destruct (crop_image_has_px original Hwf HW HH)
    as (cropped & E & (Hwfc & Hwc & Hhc & Hpc) & _).
  exists cropped. split; [done|].
  destruct (remove_green_working cropped original Hwf Hwc Hhc HW HH)
    as (r & -> & Hr).
  f_equal. eapply has_px_eq; [|by apply has_px_self].
  eapply has_px_ext; [done|].
  intros X Y HX HY. cbv beta zeta.
  case_if Hc; [|done]. destruct Hc as [[Hx Hy] _].
  rewrite Hwc in Hx. rewrite Hhc in Hy.
  rewrite Hpc by done. f_equal; lia.
Qed.

Lemma remove_green_of_crop_witness :
  exists cropped,
    crop_image (uniform 500 400 (grey 7)) = Ok cropped /\
    remove_green cropped (uniform 500 400 (grey 7))
    = Ok (uniform 500 400 (grey 7)).
Proof.
  apply (remove_green_of_crop (uniform 500 400 (grey 7))).
  - apply wf_uniform; lia.
  - rewrite width_uniform. unfold IMAGE_WIDTH. lia.
  - rewrite height_uniform. unfold IMAGE_HEIGHT. lia.
Defined.

(** X6: remapping is idempotent: laying the detection image over the
    result of [remove_green] once more changes nothing. *)
Theorem remove_green_idempotent image original :
  wf_image original ->
  width image = IMAGE_WIDTH -> height image = IMAGE_HEIGHT ->
  IMAGE_WIDTH <= width original -> IMAGE_HEIGHT <= height original ->
  exists r,
    remove_green image original = Ok r /\ remove_green image r = Ok r.
Proof.
  intros Hwf Hw Hh HW HH.
  destruct (remove_green_working image original Hwf Hw Hh HW HH)
    as (r & E & Hr).
  exists r. split; [done|].
  pose proof Hr as (Hwfr & Hwr & Hhr & Hpr).
  destruct (remove_green_working image r Hwfr Hw Hh) as (r2 & -> & Hr2);
    [lia..|].
  f_equal. rewrite Hwr, Hhr in Hr2.
  eapply has_px_eq; [|exact Hr].
  eapply has_px_ext; [exact Hr2|].
  intros X Y HX HY. cbv beta zeta.
  rewrite Hpr by done. cbv beta zeta. case_if Hc; done.
Qed.

Lemma remove_green_idempotent_witness :
  exists r,
    remove_green white_dot (uniform 500 400 (grey 7)) = Ok r /\
    remove_green white_dot r = Ok r.
Proof.
  apply (remove_green_idempotent white_dot (uniform 500 400 (grey 7))).
  - apply wf_uniform; lia.
  - reflexivity.
  - reflexivity.
  - rewrite width_uniform. unfold IMAGE_WIDTH. lia.
  - rewrite height_uniform. unfold IMAGE_HEIGHT. lia.
Defined.
End Remap.

(** * Further properties: classification and averages *)

Section MoreClassifier.
Implicit Types (img : SimpleImage).

(** X7: [highlight_areas] keeps the size of the image and changes
    every pixel on its own: with [a] the mean [(r + g + b) // 3] of
    its channels, the pixel becomes the marker (0,255,0) when
    [210 <= a <= 245] and the grey of [a], clamped to a byte,
    otherwise. *)
Theorem highlight_areas_pointwise img :
  wf_image img ->
  wf_image (highlight_areas img) /\
  width (highlight_areas img) = width img /\
  height (highlight_areas img) = height img /\
  forall x y, 0 <= x < width img -> 0 <= y < height img ->
    let c := peek img x y in
    let a := (red c + green c + blue c) / 3 in
    peek (highlight_areas img) x y =
      if decide (INTENSITY_MIN <= a <= INTENSITY_MAX) then pure_green
      else grey (clamp a).
Proof.
  intros Hwf.
  destruct (highlight_areas_spec img Hwf) as (Hwf' & Hw & Hh & Hpx).
  split_and!; [done..|]. intros x y Hx Hy c a.
  rewrite Hpx by done. unfold classify. fold c a.
  destruct (Z.leb_spec INTENSITY_MIN a), (Z.leb_spec a INTENSITY_MAX);
    cbn [andb]; case_if Hc; done || lia.
Qed.

Lemma highlight_areas_pointwise_witness :
  wf_image (highlight_areas (uniform 2 2 (grey 220))) /\
  width (highlight_areas (uniform 2 2 (grey 220))) = 2 /\
  height (highlight_areas (uniform 2 2 (grey 220))) = 2 /\
  forall x y, 0 <= x < 2 -> 0 <= y < 2 ->
    let c := peek (uniform 2 2 (grey 220)) x y in
    let a := (red c + green c + blue c) / 3 in
    peek (highlight_areas (uniform 2 2 (grey 220))) x y =
      if decide (INTENSITY_MIN <= a <= INTENSITY_MAX) then pure_green
      else grey (clamp a).
Proof.
  apply (highlight_areas_pointwise (uniform 2 2 (grey 220))).
  apply wf_uniform; lia.
Defined.

Lemma valid_image_pointwise img :
  wf_image img ->
  (forall x y, 0 <= x < width img -> 0 <= y < height img ->
               valid_rgb (peek img x y)) ->
  valid_image img.
Proof.
  intros Hwf Hv. split; [done|]. rewrite (px_rows img Hwf).
  apply Forall_fmap, Forall_forall. intros y Hy%elem_of_range.
  apply Forall_fmap, Forall_forall. intros x Hx%elem_of_range.
  by apply Hv.
Qed.

Lemma valid_peek img x y :
  valid_image img -> 0 <= x < width img -> 0 <= y < height img ->
  valid_rgb (peek img x y).
Proof.
  intros [Hwf Hv] Hx Hy.
  assert (peek img x y ∈ mjoin (px img)) as Hin
      by (apply elem_of_colours; [done|]; by exists x, y).
  apply list_elem_of_join in Hin as (row & Hc & Hrow).
  rewrite Forall_forall in Hv. specialize (Hv row Hrow).
  rewrite Forall_forall in Hv. by apply Hv.
Qed.

Lemma clamp_byte v : 0 <= clamp v <= 255.
Proof.
  unfold clamp. destruct (Z.ltb_spec v 0); [lia|].
  destruct (Z.leb_spec 256 v); lia.
Qed.

Lemma classify_shape c :
  valid_rgb (classify c) /\
  (classify c = pure_green \/
   exists k, classify c = grey k /\ 0 <= k <= 255 /\
             ~ (INTENSITY_MIN <= k <= INTENSITY_MAX)).
Proof.
  destruct (classify_cases c) as [->|(k & -> & Hk & Hband)].
  - split; [|by left]. unfold valid_rgb, valid_channel, pure_green. simpl. lia.
  - pose proof (clamp_byte k) as Hb. rewrite Hk in Hb.
    split; [by unfold valid_rgb, valid_channel|].
    right. by exists k.
Qed.

(** X8: whatever the channels of the input, every pixel of the output
    of [highlight_areas] is either the marker (0,255,0) or a grey whose
    value is a byte outside the band [210,245]; the output has byte
    channels throughout. *)
Theorem highlight_areas_shape img :
  wf_image img ->
  valid_image (highlight_areas img) /\
  forall x y, 0 <= x < width img -> 0 <= y < height img ->
    peek (highlight_areas img) x y = pure_green \/
    exists k, peek (highlight_areas img) x y = grey k /\ 0 <= k <= 255 /\
              ~ (INTENSITY_MIN <= k <= INTENSITY_MAX).
Proof.
  intros Hwf.
  destruct (highlight_areas_spec img Hwf) as (Hwf' & Hw & Hh & Hpx).
  split.
  - apply valid_image_pointwise; [done|]. intros x y Hx Hy.
    rewrite Hpx by lia. apply classify_shape.
  - intros x y Hx Hy. rewrite Hpx by done. apply classify_shape.
Qed.

Lemma highlight_areas_shape_witness :
  valid_image (highlight_areas (uniform 2 2 (RGB 300 0 (-5)))) /\
  forall x y, 0 <= x < 2 -> 0 <= y < 2 ->
    peek (highlight_areas (uniform 2 2 (RGB 300 0 (-5)))) x y = pure_green \/
    exists k, peek (highlight_areas (uniform 2 2 (RGB 300 0 (-5)))) x y = grey k /\
              0 <= k <= 255 /\ ~ (INTENSITY_MIN <= k <= INTENSITY_MAX).
Proof.
  apply (highlight_areas_shape (uniform 2 2 (RGB 300 0 (-5)))).
  apply wf_uniform; lia.
Defined.

Lemma classify_stable c :
  classify (classify (classify c)) = classify (classify c).
Proof.
  rewrite (classify_classify c).
  destruct (decide (classify c = pure_green)) as [E|E]; [done|].
  rewrite classify_classify. by rewrite decide_False.
Qed.

(** X9: classification settles after two runs: a third run of
    [highlight_areas] returns the image of the second. *)
Theorem highlight_areas_settles img :
  wf_image img ->
  highlight_areas (highlight_areas (highlight_areas img))
  = highlight_areas (highlight_areas img).
Proof.
  intros Hwf.
  destruct (highlight_areas_spec img Hwf) as (Hwf1 & Hw1 & Hh1 & Hp1).
  destruct (highlight_areas_spec _ Hwf1) as (Hwf2 & Hw2 & Hh2 & Hp2).
  destruct (highlight_areas_spec _ Hwf2) as (Hwf3 & Hw3 & Hh3 & Hp3).
  apply image_ext; [done|done|congruence|congruence|].
  intros x y Hx Hy. rewrite Hw3, Hw2, Hw1 in Hx. rewrite Hh3, Hh2, Hh1 in Hy.
  rewrite Hp3, !Hp2, Hp1 by lia. apply classify_stable.
Qed.

Lemma highlight_areas_settles_witness :
  highlight_areas (highlight_areas (highlight_areas (uniform 2 2 (grey 220))))
  = highlight_areas (highlight_areas (uniform 2 2 (grey 220))).
Proof.
  apply (highlight_areas_settles (uniform 2 2 (grey 220))).
  apply wf_uniform; lia.
Defined.

Lemma sumZ_bounds (l : list Z) :
  Forall (fun v => 0 <= v <= 254) l ->
  0 <= sumZ l <= 254 * Z.of_nat (length l).
Proof.
  induction 1 as [|v l Hv _ IH]; [done|].
  unfold sumZ in *. cbn [foldr length]. lia.
Qed.

(** X10: on an image with byte channels the average that
    [get_green_agv] returns lies between 0 and 254: it is a mean of
    green values that are not 255. *)
Theorem get_green_agv_range img avg :
  valid_image img -> get_green_agv img = Ok avg -> 0 <= avg <= 254.
Proof.
  intros Hv. pose proof Hv as [Hwf _].
  rewrite (get_green_agv_eq img Hwf). unfold floordiv.
  assert (Forall (fun v => 0 <= v <= 254) (unmarked_greens img)) as Hall.
  { unfold unmarked_greens, all_colours.
    apply Forall_fmap, Forall_forall. intros c [Hne Hc]%list_elem_of_filter.
    apply (elem_of_colours _ _ Hwf) in Hc as (x & y & Hx & Hy & <-).
    destruct (valid_peek img x y Hv Hx Hy) as (_ & Hg & _).
    unfold valid_channel in Hg. simpl. lia. }
  apply sumZ_bounds in Hall.
  destruct (Z.eqb_spec (Z.of_nat (length (unmarked_greens img))) 0) as [|Hn];
    [done|].
  intros [= <-]. split.
  - apply Z.div_pos; lia.
  - apply Z.div_le_upper_bound; lia.
Qed.

Lemma get_green_agv_range_witness : 0 <= 20 <= 254.
Proof.
  apply (get_green_agv_range two_pixels 20).
  - apply valid_two_pixels.
  - reflexivity.
Defined.
End MoreClassifier.

(** * Further properties: sampling a window *)

Section Window.
Implicit Types (image area : SimpleImage).

(** X11: when the window at offset [(n, m)] lies inside the image,
    [get_area] returns a 100x100 area whose pixel [(x, y)] is the pixel
    of the image at [(x + n, y + m)]. *)
Theorem get_area_window image n m :
  wf_image image ->
  0 <= n -> n + AREA_SIZE <= width image ->
  0 <= m -> m + AREA_SIZE <= height image ->
  exists area,
    get_area image n m = Ok area /\
    wf_image area /\ width area = AREA_SIZE /\ height area = AREA_SIZE /\
    forall x y, 0 <= x < AREA_SIZE -> 0 <= y < AREA_SIZE ->
      peek area x y = peek image (x + n) (y + m).
Proof.
  intros Hwf Hn Hnw Hm Hmh. exists (crop image n m).
  split; [by apply get_area_eq|]. by apply has_px_crop.
Qed.

Lemma get_area_window_witness :
  exists area,
    get_area (uniform 150 120 (grey 7)) 50 20 = Ok area /\
    wf_image area /\ width area = AREA_SIZE /\ height area = AREA_SIZE /\
    forall x y, 0 <= x < AREA_SIZE -> 0 <= y < AREA_SIZE ->
      peek area x y = peek (uniform 150 120 (grey 7)) (x + 50) (y + 20).
Proof.
  apply (get_area_window (uniform 150 120 (grey 7)) 50 20).
  - apply wf_uniform; lia.
  - lia.
  - rewrite width_uniform. unfold AREA_SIZE. lia.
  - lia.
  - rewrite height_uniform. unfold AREA_SIZE. lia.
Defined.

Lemma elem_of_pairs (ys xs : list Z) y x :
  (y, x) ∈ (y ← ys; x ← xs; [(y, x)]) <-> y ∈ ys /\ x ∈ xs.
Proof.
  rewrite list_elem_of_bind. split.
  - intros (y' & Hx & Hy). apply list_elem_of_bind in Hx as (x' & Hyx & Hx).
    apply list_elem_of_singleton in Hyx as [= -> ->]. done.
  - intros [Hy Hx]. exists y. split; [|done].
    apply list_elem_of_bind. exists x. split; [|done].
    by apply list_elem_of_singleton.
Qed.

Lemma get_area_raise image n m :
  ~ (0 <= n /\ n + AREA_SIZE <= width image /\
     0 <= m /\ m + AREA_SIZE <= height image) ->
  get_area image n m = Raise OutOfBounds.
Proof.
  intros Hout. unfold get_area. rewrite for_in2_flat.
  apply (for_in_must_raise
           (fun s => width s = AREA_SIZE /\ height s = AREA_SIZE)).
  - done.
  - intros [y x] s [Hy%elem_of_range Hx%elem_of_range]%elem_of_pairs [Hw Hh].
    cbn [fst snd]. unfold get_area_body, get_pixel.
    destruct (in_bounds image (x + n) (y + m)); [|by right].
    left. bind_ok. unfold set_pixel.
    rewrite (proj2 (in_bounds_true s x y)) by lia.
    eexists. split; [done|]. by rewrite width_poke, height_poke.
  - assert (exists x y, (0 <= x < AREA_SIZE /\ 0 <= y < AREA_SIZE) /\
                        ~ (0 <= x + n < width image /\
                           0 <= y + m < height image))
      as (x & y & [Hx Hy] & Hxy).
    { unfold AREA_SIZE in *.
      destruct (decide (n < 0 \/ m < 0)); [exists 0, 0; lia|].
      destruct (decide (width image < n + 100)); [exists 99, 0; lia|].
      exists 0, 99. lia. }
    exists (y, x). split; [by apply elem_of_pairs; rewrite !elem_of_range|].
    intros s _. cbn [fst snd]. unfold get_area_body.
    by rewrite get_pixel_Raise.
Qed.

(** X12: when the window at offset [(n, m)] does not lie inside the
    image, [get_area] raises the out-of-bounds error, whatever part of
    the window is inside. *)
Theorem get_area_outside image n m :
  ~ (0 <= n /\ n + AREA_SIZE <= width image /\
     0 <= m /\ m + AREA_SIZE <= height image) ->
  get_area image n m = Raise OutOfBounds.
Proof. apply get_area_raise. Qed.

Lemma get_area_outside_witness :
  get_area (uniform 150 120 (grey 7)) 51 20 = Raise OutOfBounds.
Proof.
  apply (get_area_outside (uniform 150 120 (grey 7)) 51 20).
  rewrite width_uniform, height_uniform. unfold AREA_SIZE. lia.
Defined.
End Window.

(** * Further properties: confirming and merging an area *)

Section Area.
Implicit Types (image area red_area : SimpleImage).

Lemma in_band_decide i a :
  in_band i a = bool_decide ((select_band i).1 <= a <= (select_band i).2).
Proof.
  unfold in_band. destruct (select_band i) as [lo hi]. cbn [fst snd].
  destruct (Z.leb_spec lo a), (Z.leb_spec a hi); cbn [andb];
    [by rewrite bool_decide_eq_true_2|rewrite bool_decide_eq_false_2..];
    done || lia.
Qed.

(** X13: with [a] the average of the area and [i] the average of the
    image, [scan_area] counts one case exactly when [a] lies in the
    band selected from [i]; it then returns the area with the pixels of
    its outermost ring turned pure red and the others as they were, and
    otherwise the area as it was with the count 0. *)
Theorem scan_area_result area image a i :
  wf_image area -> width area = AREA_SIZE -> height area = AREA_SIZE ->
  get_green_agv area = Ok a -> get_green_agv image = Ok i ->
  let confirmed :=
    bool_decide ((select_band i).1 <= a <= (select_band i).2) in
  exists r,
    scan_area area image = Ok (r, if confirmed then 1 else 0) /\
    wf_image r /\ width r = AREA_SIZE /\ height r = AREA_SIZE /\
    forall x y, 0 <= x < AREA_SIZE -> 0 <= y < AREA_SIZE ->
      peek r x y = if confirmed && on_border (mkPixel x y) then pure_red
                   else peek area x y.
Proof.
  intros Hwf Hw Hh Ea Ei confirmed. unfold scan_area.
  rewrite Ea, Ei. bind_ok. rewrite scan_area_with_eq by done.
  rewrite in_band_decide. fold confirmed. destruct confirmed.
  - pose proof (has_px_draw_border area Hwf) as (Hwfb & Hwb & Hhb & Hpb).
    exists (draw_border area). split_and!; [done|done|congruence..|].
    intros x y Hx Hy. rewrite Hpb by lia. done.
  - exists area. split_and!; done.
Qed.

Lemma scan_area_result_witness :
  exists r,
    scan_area (uniform 100 100 (grey 15)) (uniform 2 2 (grey 90)) = Ok (r, 1) /\
    wf_image r /\ width r = AREA_SIZE /\ height r = AREA_SIZE /\
    forall x y, 0 <= x < AREA_SIZE -> 0 <= y < AREA_SIZE ->
      peek r x y = if true && on_border (mkPixel x y) then pure_red
                   else peek (uniform 100 100 (grey 15)) x y.
Proof.
  apply (scan_area_result (uniform 100 100 (grey 15)) (uniform 2 2 (grey 90))
                          15 90).
  - apply wf_uniform; lia.
  - reflexivity.
  - reflexivity.
  - rewrite mean_green_eq by (apply wf_uniform; lia). vm_compute. reflexivity.
  - vm_compute. reflexivity.
Defined.

Lemma get_green_agv_cases image :
  wf_image image ->
  (exists a, get_green_agv image = Ok a /\
             exists c, c ∈ all_colours image /\ green c <> 255) \/
  (get_green_agv image = Raise ZeroDivisionError /\
   forall c, c ∈ all_colours image -> green c = 255).
Proof.
  intros Hwf. rewrite (get_green_agv_eq image Hwf), <- unmarked_greens_nil.
  unfold floordiv. destruct (unmarked_greens image) as [|g gs] eqn:E.
  - by right.
  - left. assert ((Z.of_nat (length (g :: gs)) =? 0) = false) as ->
        by (apply Z.eqb_neq; simpl; lia).
    eexists. split; [done|].
    assert (g ∈ unmarked_greens image) as Hg by (rewrite E; left).
    unfold unmarked_greens in Hg.
    apply list_elem_of_fmap in Hg as (c & _ & [Hne Hc]%list_elem_of_filter).
    by exists c.
Qed.

(** X14: on a well-formed image and a 100x100 area [scan_area] raises
    no error but the division by zero, and raises it exactly when every
    pixel of the area, or every pixel of the image, has green 255. *)
Theorem scan_area_error area image :
  wf_image area -> width area = AREA_SIZE -> height area = AREA_SIZE ->
  wf_image image ->
  (forall e, scan_area area image = Raise e -> e = ZeroDivisionError) /\
  (scan_area area image = Raise ZeroDivisionError <->
   (forall c, c ∈ all_colours area -> green c = 255) \/
   (forall c, c ∈ all_colours image -> green c = 255)).
Proof.
  intros Hwf Hw Hh Hwfi. unfold scan_area.
  destruct (get_green_agv_cases area Hwf)
    as [(a & -> & ca & Hca & Hga)|[-> Harea]]; bind_ok.
  - destruct (get_green_agv_cases image Hwfi)
      as [(i & -> & ci & Hci & Hgi)|[-> Himage]]; bind_ok.
    + rewrite scan_area_with_eq by done.
      assert (forall e, (if in_band i a then Ok (draw_border area, 1)
                         else Ok (area, 0)) <> Raise e) as Hok
          by (intros e; by destruct (in_band i a)).
      split; [intros e He; by destruct (Hok e)|].
      split; [intros He; by destruct (Hok _ He)|].
      intros [Hall|Hall]; [by destruct (Hga (Hall ca Hca))
                          |by destruct (Hgi (Hall ci Hci))].
    + split; [by intros e [= <-]|]. split; [by right|done].
  - split; [by intros e [= <-]|]. split; [by left|done].
Qed.

Lemma scan_area_error_witness :
  (forall e, scan_area (uniform 100 100 (grey 15)) (uniform 2 2 (grey 255))
             = Raise e -> e = ZeroDivisionError) /\
  (scan_area (uniform 100 100 (grey 15)) (uniform 2 2 (grey 255))
   = Raise ZeroDivisionError <->
   (forall c, c ∈ all_colours (uniform 100 100 (grey 15)) -> green c = 255) \/
   (forall c, c ∈ all_colours (uniform 2 2 (grey 255)) -> green c = 255)).
Proof.
  apply (scan_area_error (uniform 100 100 (grey 15)) (uniform 2 2 (grey 255))).
  - apply wf_uniform; lia.
  - reflexivity.
  - reflexivity.
  - apply wf_uniform; lia.
Defined.

(** X15: when the window at offset [(n, m)] lies inside the image,
    [add_area] returns an image of the same size in which the window
    holds the pixels of the area and the rest those of the image,
    except that the part of the window inside the top left 100x100
    square keeps the pixels of the image unless the offset is
    [(0, 0)]: the second loop stores them again, after the area. *)
Theorem add_area_merge image red_area n m :
  wf_image image -> wf_image red_area ->
  width red_area = AREA_SIZE -> height red_area = AREA_SIZE ->
  0 <= n -> n + AREA_SIZE <= width image ->
  0 <= m -> m + AREA_SIZE <= height image ->
  exists r,
    add_area image red_area n m = Ok r /\
    wf_image r /\ width r = width image /\ height r = height image /\
    forall X Y, 0 <= X < width image -> 0 <= Y < height image ->
      peek r X Y =
        if decide (n <= X < n + AREA_SIZE /\ m <= Y < m + AREA_SIZE)
        then if decide (X < AREA_SIZE /\ Y < AREA_SIZE /\ ~ (n = 0 /\ m = 0))
             then peek image X Y
             else peek red_area (X - n) (Y - m)
        else peek image X Y.
Proof.
  intros Hwf Hwfa Hwa Hha Hn Hnw Hm Hmh.
  destruct (add_area_spec image red_area n m)
    as (r & E & Hwfr & Hwr & Hhr & Hpx); [done..|].
  exists r. split_and!; [done..|]. intros X Y HX HY.
  rewrite Hpx by done.
  repeat match goal with
         | |- context [match ?d with left _ => _ | right _ => _ end] =>
             destruct d
         end; done || (exfalso; tauto).
Qed.

Lemma add_area_merge_witness :
  exists r,
    add_area (uniform 150 120 (grey 7)) (uniform 100 100 (grey 9)) 50 20 = Ok r /\
    wf_image r /\ width r = 150 /\ height r = 120 /\
    forall X Y, 0 <= X < 150 -> 0 <= Y < 120 ->
      peek r X Y =
        if decide (50 <= X < 50 + AREA_SIZE /\ 20 <= Y < 20 + AREA_SIZE)
        then if decide (X < AREA_SIZE /\ Y < AREA_SIZE /\ ~ (50 = 0 /\ 20 = 0))
             then peek (uniform 150 120 (grey 7)) X Y
             else peek (uniform 100 100 (grey 9)) (X - 50) (Y - 20)
        else peek (uniform 150 120 (grey 7)) X Y.
Proof.
  apply (add_area_merge (uniform 150 120 (grey 7)) (uniform 100 100 (grey 9))
                        50 20).
  - apply wf_uniform; lia.
  - apply wf_uniform; lia.
  - reflexivity.
  - reflexivity.
  - lia.
  - rewrite width_uniform. unfold AREA_SIZE. lia.
  - lia.
  - rewrite height_uniform. unfold AREA_SIZE. lia.
Defined.

Lemma in_bounds_same img1 img2 x y :
  width img1 = width img2 -> height img1 = height img2 ->
  in_bounds img1 x y = in_bounds img2 x y.
Proof. intros Hw Hh. unfold in_bounds. by rewrite Hw, Hh. Qed.

(** X16: when the window at offset [(n, m)] does not lie inside the
    image, [add_area] raises the out-of-bounds error, whatever the
    area. *)
Theorem add_area_outside image red_area n m :
  wf_image image ->
  ~ (0 <= n /\ n + AREA_SIZE <= width image /\
     0 <= m /\ m + AREA_SIZE <= height image) ->
  add_area image red_area n m = Raise OutOfBounds.
Proof.
  intros Hwf Hout. unfold add_area. rewrite (add_area_copy image Hwf). bind_ok.
  rewrite for_in2_flat.
  assert (forall x y s,
            width s = width image -> height s = height image ->
            (exists s', add_area_body image red_area n m x y s = Ok s' /\
                        width s' = width image /\ height s' = height image /\
                        in_bounds image (x + n) (y + m) = true) \/
            add_area_body image red_area n m x y s = Raise OutOfBounds)
    as Hbody.
  { intros x y s Hw Hh. unfold add_area_body, get_pixel, set_pixel.
    destruct (in_bounds image x y) eqn:E1; [|by right]. bind_ok.
    rewrite (in_bounds_same s image) by done. rewrite E1. bind_ok.
    destruct (in_bounds red_area x y); [|by right]. bind_ok.
    rewrite (in_bounds_same _ image) by (by rewrite ?width_poke, ?height_poke).
    destruct (in_bounds image (x + n) (y + m)); [|by right].
    left. eexists. split; [done|]. by rewrite !width_poke, !height_poke. }
  apply (for_in_must_raise
           (fun s => width s = width image /\ height s = height image)).
  - done.
  - intros [x y] s _ [Hw Hh]. cbn [fst snd].
    destruct (Hbody x y s Hw Hh) as [(s' & E & Hw' & Hh' & _)|E]; [|by right].
    left. by exists s'.
  - assert (exists x y, (0 <= x < AREA_SIZE /\ 0 <= y < AREA_SIZE) /\
                        ~ (0 <= x + n < width image /\
                           0 <= y + m < height image))
      as (x & y & [Hx Hy] & Hxy).
    { unfold AREA_SIZE in *.
      destruct (decide (n < 0 \/ m < 0)); [exists 0, 0; lia|].
      destruct (decide (width image < n + 100)); [exists 99, 0; lia|].
      exists 0, 99. lia. }
    exists (x, y). split; [by apply elem_of_pairs; rewrite !elem_of_range|].
    intros s [Hw Hh]. cbn [fst snd].
    destruct (Hbody x y s Hw Hh) as [(s' & _ & _ & _ & Hin)|E]; [|done].
    by apply in_bounds_true in Hin.
Qed.

Lemma add_area_outside_witness :
  add_area (uniform 150 120 (grey 7)) (uniform 100 100 (grey 9)) 50 21
  = Raise OutOfBounds.
Proof.
  apply (add_area_outside (uniform 150 120 (grey 7))
                          (uniform 100 100 (grey 9)) 50 21).
  - apply wf_uniform; lia.
  - rewrite width_uniform, height_uniform. unfold AREA_SIZE. lia.
Defined.
End Area.

(** * Further properties: the scan of a working image *)

Section Scan.
Implicit Types (image : SimpleImage).

(** The offsets of the scan of a working image. *)
Lemma scan_offsets_working_grid n m :
  (n, m) ∈ scan_offsets IMAGE_WIDTH IMAGE_HEIGHT ->
  (0 <= n <= 300 /\ n mod 50 = 0) /\ (0 <= m <= 200 /\ m mod 50 = 0).
Proof.
  rewrite scan_offsets_list. intros Hin.
  repeat (apply elem_of_cons in Hin as [[= -> ->]|Hin];
          [split_and!; done || lia|]).
  by apply not_elem_of_nil in Hin.
Qed.

Lemma find_cases_working image img' c :
  wf_image image ->
  width image = IMAGE_WIDTH -> height image = IMAGE_HEIGHT ->
  find_cases image = Ok (img', c) ->
  (wf_image img' /\ width img' = IMAGE_WIDTH /\ height img' = IMAGE_HEIGHT) /\
  (0 <= c <= 35 /\ (c = 0 -> img' = image)) /\
  forall X Y, 0 <= X < IMAGE_WIDTH -> 0 <= Y < IMAGE_HEIGHT ->
    peek img' X Y = peek image X Y \/
    (peek img' X Y = pure_red /\
     exists n m, ((0 <= n <= 300 /\ n mod 50 = 0) /\
                  (0 <= m <= 200 /\ m mod 50 = 0)) /\
                 (n <= X < n + AREA_SIZE /\ m <= Y < m + AREA_SIZE) /\
                 on_border (mkPixel (X - n) (Y - m)) = true).
Proof.
  intros Hwf Hw Hh E.
  rewrite find_cases_eq in E
    by (rewrite ?Hw, ?Hh; done || apply offsets_fit_working).
  unfold scan in E.
  destruct (scan_rounds_frame _ _ _ _ _ Hwf E) as (Hwf' & Hw' & Hh' & Hpx).
  pose proof (scan_rounds_count _ _ _ _ _ Hwf E) as Hc.
  pose proof (scan_rounds_zero _ _ _ _ _ Hwf E) as [_ Hzero].
  rewrite Hw, Hh in *. rewrite scan_offsets_list in Hc. cbn [length] in Hc.
  split_and!; [done|done|done|lia|lia| |].
  - intros ->. by destruct Hzero.
  - intros X Y HX HY.
    destruct (Hpx X Y HX HY) as [Hsame|(Hred & n & m & Hin & Hp)]; [by left|].
    right. split; [done|]. exists n, m.
    split; [by apply scan_offsets_working_grid|].
    apply painted_true in Hp as (? & ? & _). done.
Qed.

(** X17: the scan of a 400x300 image returns an image of the same
    size, each of whose pixels either is as it was or is pure red and
    lies on the outermost ring of a 100x100 window whose offsets are
    multiples of 50, at most 300 across and 200 down. *)
Theorem find_cases_paints_rings image img' c :
  wf_image image ->
  width image = IMAGE_WIDTH -> height image = IMAGE_HEIGHT ->
  find_cases image = Ok (img', c) ->
  wf_image img' /\ width img' = IMAGE_WIDTH /\ height img' = IMAGE_HEIGHT /\
  forall X Y, 0 <= X < IMAGE_WIDTH -> 0 <= Y < IMAGE_HEIGHT ->
    peek img' X Y = peek image X Y \/
    (peek img' X Y = pure_red /\
     exists n m, ((0 <= n <= 300 /\ n mod 50 = 0) /\
                  (0 <= m <= 200 /\ m mod 50 = 0)) /\
                 (n <= X < n + AREA_SIZE /\ m <= Y < m + AREA_SIZE) /\
                 on_border (mkPixel (X - n) (Y - m)) = true).
Proof.
  intros Hwf Hw Hh E.
  destruct (find_cases_working image img' c Hwf Hw Hh E)
    as ((? & ? & ?) & _ & Hpx).
  split_and!; done.
Qed.

Lemma find_cases_paints_rings_witness :
  wf_image uniform_95 /\ width uniform_95 = IMAGE_WIDTH /\
  height uniform_95 = IMAGE_HEIGHT /\
  forall X Y, 0 <= X < IMAGE_WIDTH -> 0 <= Y < IMAGE_HEIGHT ->
    peek uniform_95 X Y = peek uniform_95 X Y \/
    (peek uniform_95 X Y = pure_red /\
     exists n m, ((0 <= n <= 300 /\ n mod 50 = 0) /\
                  (0 <= m <= 200 /\ m mod 50 = 0)) /\
                 (n <= X < n + AREA_SIZE /\ m <= Y < m + AREA_SIZE) /\
                 on_border (mkPixel (X - n) (Y - m)) = true).
Proof.
  apply (find_cases_paints_rings uniform_95 uniform_95 0).
  - apply wf_working_uniform.
  - reflexivity.
  - reflexivity.
  - exact find_cases_uniform_95.
Defined.

(** X18: the scan of a 400x300 image counts between 0 and 35 cases,
    one at most for each of its 7 x 5 windows; when it counts none, the
    image it returns is the image it was given. *)
Theorem find_cases_count_bounds image img' c :
  wf_image image ->
  width image = IMAGE_WIDTH -> height image = IMAGE_HEIGHT ->
  find_cases image = Ok (img', c) ->
  0 <= c <= 35 /\ (c = 0 -> img' = image).
Proof.
  intros Hwf Hw Hh E.
  by destruct (find_cases_working image img' c Hwf Hw Hh E) as (_ & ? & _).
Qed.

Lemma find_cases_count_bounds_witness :
  0 <= 0 <= 35 /\ (0 = 0 -> uniform_95 = uniform_95).
Proof.
  apply (find_cases_count_bounds uniform_95 uniform_95 0).
  - apply wf_working_uniform.
  - reflexivity.
  - reflexivity.
  - exact find_cases_uniform_95.
Defined.

Lemma mean_green_marked image :
  wf_image image ->
  (forall x y, 0 <= x < width image -> 0 <= y < height image ->
               green (peek image x y) = 255) ->
  mean_green image = Raise ZeroDivisionError.
Proof.
  intros Hwf Hall. rewrite <- mean_green_eq by done.
  destruct (get_green_agv_cases image Hwf)
    as [(a & _ & c & Hc & Hg)|[E _]]; [|done].
  apply (elem_of_colours _ _ Hwf) in Hc as (x & y & Hx & Hy & <-).
  by destruct (Hg (Hall x y Hx Hy)).
Qed.

Lemma find_cases_working_error image :
  wf_image image ->
  width image = IMAGE_WIDTH -> height image = IMAGE_HEIGHT ->
  (forall e, find_cases image = Raise e -> e = ZeroDivisionError) /\
  ((forall x y, 0 <= x < AREA_SIZE -> 0 <= y < AREA_SIZE ->
                green (peek image x y) = 255) ->
   find_cases image = Raise ZeroDivisionError).
Proof.
  intros Hwf Hw Hh.
  rewrite find_cases_eq
    by (rewrite ?Hw, ?Hh; done || apply offsets_fit_working).
  split; [intros e; apply scan_error|].
  intros Hall. unfold scan. rewrite Hw, Hh, scan_offsets_list.
  cbn [for_in fst snd].
  assert (scan_step 0 0 (image, 0) = Raise ZeroDivisionError) as ->; [|done].
  unfold scan_step.
  assert (mean_green (crop image 0 0) = Raise ZeroDivisionError) as ->; [|done].
  destruct (has_px_crop image 0 0 Hwf) as (Hwfc & Hwc & Hhc & Hpc);
    [rewrite ?Hw, ?Hh; done..|].
  apply mean_green_marked; [done|].
  intros x y Hx Hy. rewrite Hwc in Hx. rewrite Hhc in Hy.
  rewrite Hpc, !Z.add_0_r by done. by apply Hall.
Qed.

(** X19: the scan of a 400x300 image raises the division-by-zero error
    when every pixel of its first window, the top left 100x100 square,
    has green 255. *)
Theorem find_cases_marked_corner image :
  wf_image image ->
  width image = IMAGE_WIDTH -> height image = IMAGE_HEIGHT ->
  (forall x y, 0 <= x < AREA_SIZE -> 0 <= y < AREA_SIZE ->
               green (peek image x y) = 255) ->
  find_cases image = Raise ZeroDivisionError.
Proof.
  intros Hwf Hw Hh Hall.
  by apply (find_cases_working_error image Hwf Hw Hh).
Qed.

Lemma find_cases_marked_corner_witness :
  find_cases (blank IMAGE_WIDTH IMAGE_HEIGHT) = Raise ZeroDivisionError.
Proof.
  apply (find_cases_marked_corner (blank IMAGE_WIDTH IMAGE_HEIGHT)).
  - apply wf_working_uniform.
  - reflexivity.
  - reflexivity.
  - intros x y Hx Hy. unfold AREA_SIZE, IMAGE_WIDTH, IMAGE_HEIGHT in *.
    rewrite peek_blank by lia. reflexivity.
Defined.

Lemma for_in_keeps {A S} (Inv : S -> Prop) (xs : list A)
      (body : A -> S -> result S) s s' :
  Inv s ->
  (forall x s s', x ∈ xs -> Inv s -> body x s = Ok s' -> Inv s') ->
  for_in xs body s = Ok s' -> Inv s'.
Proof.
  revert s. induction xs as [|x xs IH]; intros s Hs Hbody.
  - by intros [= <-].
  - cbn [for_in]. destruct (body x s) as [s1|e] eqn:E; bind_ok; [|done].
    apply IH.
    + apply (Hbody x s s1); [apply list_elem_of_here|done..].
    + intros y s2 s3 Hy. apply Hbody. by apply list_elem_of_further.
Qed.

(** A loop whose body keeps an invariant and fails at one of the
    elements, whatever the state, fails. *)
Lemma for_in_must_fail {A S} (Inv : S -> Prop) (xs : list A)
      (body : A -> S -> result S) s :
  Inv s ->
  (forall x s s', x ∈ xs -> Inv s -> body x s = Ok s' -> Inv s') ->
  (exists x, x ∈ xs /\ forall s, Inv s -> exists e, body x s = Raise e) ->
  exists e, for_in xs body s = Raise e.
Proof.
  revert s. induction xs as [|x xs IH]; intros s Hs Hbody (x0 & Hx0 & Hfail).
  - by apply not_elem_of_nil in Hx0.
  - cbn [for_in]. destruct (body x s) as [s1|e] eqn:E; bind_ok; [|by exists e].
    apply IH.
    + apply (Hbody x s s1); [apply list_elem_of_here|done..].
    + intros y s2 s3 Hy. apply Hbody. by apply list_elem_of_further.
    + exists x0. split; [|done].
      apply elem_of_cons in Hx0 as [->|Hx0]; [|done].
      destruct (Hfail s Hs) as [e He]. rewrite He in E. discriminate E.
Qed.

Lemma elem_of_py_range stop x :
  x ∈ py_range 0 stop STEP_SIZE <-> 0 <= x < stop /\ x mod STEP_SIZE = 0.
Proof.
  unfold py_range, STEP_SIZE. rewrite list_elem_of_fmap. split.
  - intros (i & -> & Hi%elem_of_seq).
    pose proof (Z.mul_div_le (stop - 0 + 50 - 1) 50).
    rewrite Z.add_0_l, Z.mod_mul by lia. lia.
  - intros [Hx Hmod]. exists (Z.to_nat (x / 50)).
    pose proof (Z.div_mod x 50). pose proof (Z.div_pos x 50).
    split; [lia|]. apply elem_of_seq.
    assert (x / 50 < (stop - 0 + 50 - 1) / 50); [|lia].
    assert ((x + 1 * 50) / 50 <= (stop - 0 + 50 - 1) / 50) as Hle
        by (apply Z.div_le_mono; lia).
    rewrite Z.div_add in Hle by lia. lia.
Qed.

Lemma find_cases_body_keeps image n m img cc st :
  wf_image img /\ width img = width image /\ height img = height image ->
  find_cases_body n m (img, cc) = Ok st ->
  wf_image st.1 /\ width st.1 = width image /\ height st.1 = height image.
Proof.
  intros (Hwf & Hw & Hh) E.
  destruct (decide (0 <= n /\ n + AREA_SIZE <= width img /\
                    0 <= m /\ m + AREA_SIZE <= height img)) as [Hfit|Hout].
  - rewrite find_cases_body_eq in E by (done || lia).
    apply scan_step_inv in E as [(? & ? & ?) _]; [|done].
    split_and!; [done|congruence..].
  - unfold find_cases_body in E. rewrite get_area_raise in E by done.
    discriminate E.
Qed.

(** X20: on an image that is wider and higher than 50 pixels, and
    whose width or height is not a multiple of 50, the scan raises an
    error: its last column or row of windows reaches beyond the
    image. *)
Theorem find_cases_misfit image :
  wf_image image ->
  AREA_SIZE / 2 < width image -> AREA_SIZE / 2 < height image ->
  width image mod STEP_SIZE <> 0 \/ height image mod STEP_SIZE <> 0 ->
  exists e, find_cases image = Raise e.
Proof.
  intros Hwf Hw Hh Hmod. unfold find_cases.
  set (Inv := fun st : SimpleImage * Z =>
         wf_image st.1 /\ width st.1 = width image /\
         height st.1 = height image).
  assert (exists n m,
            (n ∈ py_range 0 (width image - AREA_SIZE / 2) STEP_SIZE /\
             m ∈ py_range 0 (height image - AREA_SIZE / 2) STEP_SIZE) /\
            ~ (0 <= n /\ n + AREA_SIZE <= width image /\
               0 <= m /\ m + AREA_SIZE <= height image))
    as (n & m & [Hn Hm] & Hout).
  { setoid_rewrite elem_of_py_range. unfold AREA_SIZE, STEP_SIZE in *.
    change (100 / 2) with 50 in *.
    pose proof (Z.div_mod (width image) 50).
    pose proof (Z.mod_pos_bound (width image) 50).
    pose proof (Z.div_mod (height image) 50).
    pose proof (Z.mod_pos_bound (height image) 50).
    destruct (decide (width image mod 50 = 0)) as [Ew|Ew].
    - exists 0, ((height image / 50 - 1) * 50).
      rewrite Z.mod_mul, Z.mod_0_l by lia. lia.
    - exists ((width image / 50 - 1) * 50), 0.
      rewrite Z.mod_mul, Z.mod_0_l by lia. lia. }
  assert (forall x y st st', Inv st -> find_cases_body x y st = Ok st' -> Inv st')
    as Hkeep.
  { intros x y [img cc] st' Hst E.
    exact (find_cases_body_keeps image x y img cc st' Hst E). }
  apply (for_in_must_fail Inv); [done| |].
  - intros x st st' _ Hst E. revert E. apply for_in_keeps; [done|].
    intros y s1 s2 _. apply Hkeep.
  - exists n. split; [done|]. intros st Hst.
    apply (for_in_must_fail Inv); [done| |].
    + intros y s1 s2 _. apply Hkeep.
    + exists m. destruct Hst as (_ & _ & ->). split; [done|].
      intros [img cc] (Hwf' & Hw' & Hh'). cbn [fst] in *.
      exists OutOfBounds. unfold find_cases_body.
      rewrite get_area_raise by (rewrite Hw', Hh'; done). done.
Qed.

Lemma find_cases_misfit_witness :
  exists e, find_cases (uniform 120 100 (grey 7)) = Raise e.
Proof.
  apply (find_cases_misfit (uniform 120 100 (grey 7))).
  - apply wf_uniform; lia.
  - reflexivity.
  - reflexivity.
  - left. discriminate.
Defined.

(** X21: an image that is at most 50 pixels wide or at most 50 pixels
    high has no window to scan: the scan returns it as it is, with no
    case. *)
Theorem find_cases_no_window image :
  width image <= AREA_SIZE / 2 \/ height image <= AREA_SIZE / 2 ->
  find_cases image = Ok (image, 0).
Proof.
  intros Hsmall. unfold find_cases.
  assert (forall stop, stop <= 0 -> py_range 0 stop STEP_SIZE = []) as Hnil.
  { intros stop Hstop. apply elem_of_nil_inv. intros x.
    rewrite elem_of_py_range. lia. }
  destruct (decide (width image <= AREA_SIZE / 2)) as [Hw|Hw].
  - rewrite Hnil by lia. done.
  - assert (height image <= AREA_SIZE / 2) as Hh by lia.
    induction (py_range 0 (width image - AREA_SIZE / 2) STEP_SIZE)
      as [|x xs IH]; [done|].
    cbn [for_in fst]. rewrite Hnil by lia. cbn [for_in]. bind_ok. exact IH.
Qed.

Lemma find_cases_no_window_witness :
  find_cases (uniform 120 50 (grey 7)) = Ok (uniform 120 50 (grey 7), 0).
Proof.
  apply (find_cases_no_window (uniform 120 50 (grey 7))).
  right. rewrite height_uniform. discriminate.
Defined.
End Scan.

(** * Further properties: the stages of [main] together *)

Section Pipeline.
Implicit Types (original final : SimpleImage).

Lemma classify_red c :
  valid_rgb c -> red (classify c) = 255 -> classify c = c.
Proof.
  intros (Hr & Hg & Hb). unfold valid_channel in *. unfold classify.
  set (a := (red c + green c + blue c) / 3).
  pose proof (Z.div_mod (red c + green c + blue c) 3) as Hdm.
  pose proof (Z.mod_pos_bound (red c + green c + blue c) 3) as Hmod.
  fold a in Hdm.
  destruct ((INTENSITY_MIN <=? a) && (a <=? INTENSITY_MAX)); [done|].
  cbn [red]. unfold clamp.
  destruct (Z.ltb_spec a 0); [done|].
  destruct (Z.leb_spec 256 a); [lia|].
  intros ->. destruct c as [r g b]. cbn [red green blue] in *.
  f_equal; lia.
Qed.

Lemma locate_cases_none final :
  (forall X Y, 0 <= X < width final -> 0 <= Y < height final ->
               peek final X Y <> pure_red) ->
  locate_cases final = Ok [].
Proof.
  intros Hnone. unfold locate_cases. rewrite locate_lists_eq. bind_ok.
  cbv beta iota zeta. rewrite !nonempty_fmap.
  rewrite !nonempty_false; [done| |].
  - intros p [[_ Hred] Hp%elem_of_column_pixels]%list_elem_of_filter.
    destruct Hp as [Hx Hy]. exact (Hnone (pixel_x p) (pixel_y p) Hx Hy Hred).
  - intros p [[_ Hred] Hp%elem_of_column_pixels]%list_elem_of_filter.
    destruct Hp as [Hx Hy]. exact (Hnone (pixel_x p) (pixel_y p) Hx Hy Hred).
Qed.

Lemma locate_cases_returns final : exists sides, locate_cases final = Ok sides.
Proof.
  unfold locate_cases. rewrite locate_lists_eq. bind_ok. by eexists.
Qed.

(** The stages of [main] on an image of at least the working size. *)
Lemma main_pipeline_stages original :
  wf_image original ->
  IMAGE_WIDTH <= width original -> IMAGE_HEIGHT <= height original ->
  exists cropped,
    crop_image original = Ok cropped /\
    has_px cropped IMAGE_WIDTH IMAGE_HEIGHT
      (fun x y => peek original (x + (width original - IMAGE_WIDTH) / 2)
                                (y + (height original - IMAGE_HEIGHT) / 2)) /\
    ((find_cases (highlight_areas cropped) = Raise ZeroDivisionError /\
      main_pipeline original = Raise ZeroDivisionError) \/
     exists red_highlights case_count final sides,
       find_cases (highlight_areas cropped) = Ok (red_highlights, case_count) /\
       remove_green red_highlights original = Ok final /\
       locate_cases final = Ok sides /\
       main_pipeline original = Ok (final, case_count, sides)).
Proof.
  intros Hwf HW HH. unfold main_pipeline.
  destruct (crop_image_has_px original Hwf HW HH) as (cropped & -> & Hc & _).
  exists cropped. split_and!; [done..|]. bind_ok.
  destruct Hc as (Hwfc & Hwc & Hhc & _).
  destruct (highlight_areas_spec cropped Hwfc) as (Hwfg & Hwg & Hhg & _).
  rewrite Hwc in Hwg. rewrite Hhc in Hhg.
  destruct (find_cases (highlight_areas cropped)) as [[red_highlights c]|e]
    eqn:E; bind_ok.
  - right.
    destruct (find_cases_working _ _ _ Hwfg Hwg Hhg E)
      as ((Hwfr & Hwr & Hhr) & _ & _).
    destruct (remove_green_working red_highlights original Hwf Hwr Hhr HW HH)
      as (final & Ef & _).
    destruct (locate_cases_returns final) as [sides Es].
    exists red_highlights, c, final, sides. rewrite Ef. bind_ok.
    rewrite Es. bind_ok. done.
  - left.
    apply (find_cases_working_error _ Hwfg Hwg Hhg) in E as ->. done.
Qed.

(** X22: on a well-formed image [main] runs into the out-of-bounds
    error exactly when the image is narrower than 400 or lower than
    300 pixels. *)
Theorem main_pipeline_out_of_bounds original :
  wf_image original ->
  main_pipeline original = Raise OutOfBounds <->
  width original < IMAGE_WIDTH \/ height original < IMAGE_HEIGHT.
Proof.
  intros Hwf. split.
  - intros E.
    destruct (decide (IMAGE_WIDTH <= width original /\
                      IMAGE_HEIGHT <= height original)) as [[HW HH]|]; [|lia].
    destruct (main_pipeline_stages original Hwf HW HH)
      as (cropped & _ & _ & [[_ E']|(r & c & f & s & _ & _ & _ & E')]);
      rewrite E' in E; discriminate E.
  - intros Hsmall. unfold main_pipeline.
    by rewrite (crop_image_raise original Hsmall).
Qed.

Lemma main_pipeline_out_of_bounds_witness :
  main_pipeline (uniform 399 300 (grey 7)) = Raise OutOfBounds <->
  width (uniform 399 300 (grey 7)) < IMAGE_WIDTH \/
  height (uniform 399 300 (grey 7)) < IMAGE_HEIGHT.
Proof.
  apply (main_pipeline_out_of_bounds (uniform 399 300 (grey 7))).
  apply wf_uniform; lia.
Defined.

Lemma valid_uniform w h c :
  0 <= w -> 0 <= h -> valid_rgb c -> valid_image (uniform w h c).
Proof.
  intros Hw Hh Hc. apply valid_image_pointwise; [by apply wf_uniform|].
  intros x y. rewrite width_uniform, height_uniform. intros Hx Hy.
  by rewrite peek_uniform.
Qed.

(** The bounds of the centred frame. *)
Lemma centred_frame original X Y :
  IMAGE_WIDTH <= width original -> IMAGE_HEIGHT <= height original ->
  0 <= X - (width original - IMAGE_WIDTH) / 2 < IMAGE_WIDTH ->
  0 <= Y - (height original - IMAGE_HEIGHT) / 2 < IMAGE_HEIGHT ->
  0 <= X < width original /\ 0 <= Y < height original.
Proof.
  intros HW HH Hx Hy.
  pose proof (centre_fits _ HW). pose proof (centre_fits_height _ HH). lia.
Qed.

(** Remapping the classified crop: a pixel whose red is 255 after
    classification was white, and is stored over itself. *)
Lemma remove_green_highlights original cropped :
  valid_image original ->
  IMAGE_WIDTH <= width original -> IMAGE_HEIGHT <= height original ->
  has_px cropped IMAGE_WIDTH IMAGE_HEIGHT
    (fun x y => peek original (x + (width original - IMAGE_WIDTH) / 2)
                              (y + (height original - IMAGE_HEIGHT) / 2)) ->
  remove_green (highlight_areas cropped) original = Ok original.
Proof.
  intros Hv HW HH (Hwfc & Hwc & Hhc & Hpc). pose proof Hv as [Hwf _].
  destruct (highlight_areas_spec cropped Hwfc) as (Hwfg & Hwg & Hhg & Hpg).
  rewrite Hwc in Hwg, Hpg. rewrite Hhc in Hhg, Hpg.
  destruct (remove_green_working (highlight_areas cropped) original
              Hwf Hwg Hhg HW HH) as (r & -> & Hr).
  f_equal. eapply has_px_eq; [|by apply has_px_self].
  eapply has_px_ext; [exact Hr|].
  intros X Y HX HY. cbv beta zeta. rewrite Hwg, Hhg.
  case_if Hc; [|done]. destruct Hc as [[Hx Hy] Hred].
  rewrite Hpg, Hpc in Hred |- * by done.
  replace (X - (width original - IMAGE_WIDTH) / 2
           + (width original - IMAGE_WIDTH) / 2) with X in * by lia.
  replace (Y - (height original - IMAGE_HEIGHT) / 2
           + (height original - IMAGE_HEIGHT) / 2) with Y in * by lia.
  apply classify_red; [|done]. by apply valid_peek.
Qed.

(** X23: [remove_green] discards every candidate marker: remapping
    the classified crop of an image with byte channels gives the image
    back. *)
Theorem remove_green_discards_markers original :
  valid_image original ->
  IMAGE_WIDTH <= width original -> IMAGE_HEIGHT <= height original ->
  exists cropped,
    crop_image original = Ok cropped /\
    remove_green (highlight_areas cropped) original = Ok original.
Proof.
  intros Hv HW HH. pose proof Hv as [Hwf _].
  destruct (crop_image_has_px original Hwf HW HH) as (cropped & E & Hc & _).
  exists cropped. split; [done|]. by apply remove_green_highlights.
Qed.

Lemma remove_green_discards_markers_witness :
  exists cropped,
    crop_image (uniform 500 400 (grey 220)) = Ok cropped /\
    remove_green (highlight_areas cropped) (uniform 500 400 (grey 220))
    = Ok (uniform 500 400 (grey 220)).
Proof.
  apply (remove_green_discards_markers (uniform 500 400 (grey 220))).
  - apply valid_uniform; [lia|lia|].
    unfold valid_rgb, valid_channel. simpl. lia.
  - rewrite width_uniform. unfold IMAGE_WIDTH. lia.
  - rewrite height_uniform. unfold IMAGE_HEIGHT. lia.
Defined.

Lemma main_pipeline_sizes original r :
  wf_image original -> main_pipeline original = Ok r ->
  IMAGE_WIDTH <= width original /\ IMAGE_HEIGHT <= height original.
Proof.
  intros Hwf E.
  destruct (decide (IMAGE_WIDTH <= width original /\
                    IMAGE_HEIGHT <= height original)) as [|Hsmall]; [done|].
  unfold main_pipeline in E. rewrite crop_image_raise in E by lia.
  discriminate E.
Qed.

(** X24: when [main] completes on an image with byte channels, the
    final image has the size of the original, the case count lies
    between 0 and 35, and every pixel of the final image either is the
    pixel of the original or is pure red and lies, in the coordinates
    of the centred 400x300 frame, on the outermost ring of a 100x100
    window of the scan. *)
Theorem main_pipeline_frame original final case_count sides :
  valid_image original ->
  main_pipeline original = Ok (final, case_count, sides) ->
  wf_image final /\
  width final = width original /\ height final = height original /\
  0 <= case_count <= 35 /\
  forall X Y, 0 <= X < width original -> 0 <= Y < height original ->
    peek final X Y = peek original X Y \/
    (peek final X Y = pure_red /\
     let x := X - (width original - IMAGE_WIDTH) / 2 in
     let y := Y - (height original - IMAGE_HEIGHT) / 2 in
     exists n m, ((0 <= n <= 300 /\ n mod 50 = 0) /\
                  (0 <= m <= 200 /\ m mod 50 = 0)) /\
                 (n <= x < n + AREA_SIZE /\ m <= y < m + AREA_SIZE) /\
                 on_border (mkPixel (x - n) (y - m)) = true).
Proof.
  intros Hv E. pose proof Hv as [Hwf _].
  destruct (main_pipeline_sizes original _ Hwf E) as [HW HH].
  destruct (main_pipeline_stages original Hwf HW HH)
    as (cropped & _ & Hc & [[_ E']|(rh & c & f & s & Efc & Erg & _ & E')]);
    rewrite E' in E; [discriminate E|].
  injection E as -> -> ->.
  destruct Hc as (Hwfc & Hwc & Hhc & Hpc).
  destruct (highlight_areas_spec cropped Hwfc) as (Hwfg & Hwg & Hhg & Hpg).
  rewrite Hwc in Hwg, Hpg. rewrite Hhc in Hhg, Hpg.
  destruct (find_cases_working _ _ _ Hwfg Hwg Hhg Efc)
    as ((Hwfr & Hwr & Hhr) & [Hcount _] & Hframe).
  destruct (remove_green_working rh original Hwf Hwr Hhr HW HH)
    as (r & Er & Hwff & Hwf' & Hhf' & Hpf).
  rewrite Er in Erg. injection Erg as ->.
  split_and!; [done|done|done|lia|lia|]. intros X Y HX HY.
  rewrite Hpf by done. cbv beta zeta. rewrite Hwr, Hhr.
  case_if Hcase; [|by left]. destruct Hcase as [[Hx Hy] Hred].
  destruct (Hframe _ _ Hx Hy) as [Hsame|[Hpure Hwin]].
  - left. rewrite Hsame in Hred |- *. rewrite Hpg, Hpc in Hred |- * by done.
    replace (X - (width original - IMAGE_WIDTH) / 2
             + (width original - IMAGE_WIDTH) / 2) with X in * by lia.
    replace (Y - (height original - IMAGE_HEIGHT) / 2
             + (height original - IMAGE_HEIGHT) / 2) with Y in * by lia.
    apply classify_red; [|done]. by apply valid_peek.
  - right. split; [done|]. exact Hwin.
Qed.

Lemma crop_image_working image :
  wf_image image ->
  width image = IMAGE_WIDTH -> height image = IMAGE_HEIGHT ->
  crop_image image = Ok image.
Proof.
  intros Hwf Hw Hh.
  destruct (crop_image_has_px image Hwf) as (r & -> & _ & Hsame);
    [rewrite ?Hw, ?Hh; done..|].
  by rewrite Hsame.
Qed.

Lemma main_pipeline_uniform_15 :
  exists final sides, main_pipeline uniform_15 = Ok (final, 35, sides).
Proof.
  destruct (main_pipeline_stages uniform_15)
    as (cropped & Ec & _ & [[Efc _]|(rh & c & f & s & Efc & _ & _ & E)]).
  - apply wf_working_uniform.
  - reflexivity.
  - reflexivity.
  - rewrite crop_image_working in Ec
      by (apply wf_working_uniform || reflexivity).
    injection Ec as <-. unfold uniform_15 in Efc.
    rewrite highlight_areas_uniform in Efc.
    change (classify (grey 15)) with (grey 15) in Efc.
    destruct scan_uniform_15 as (img' & E15 & _). unfold uniform_15 in E15.
    rewrite E15 in Efc. discriminate Efc.
  - rewrite crop_image_working in Ec
      by (apply wf_working_uniform || reflexivity).
    injection Ec as <-. unfold uniform_15 in Efc.
    rewrite highlight_areas_uniform in Efc.
    change (classify (grey 15)) with (grey 15) in Efc.
    destruct scan_uniform_15 as (img' & E15 & _). unfold uniform_15 in E15.
    rewrite E15 in Efc. injection Efc as <- <-.
    by exists f, s.
Qed.

Lemma main_pipeline_frame_witness :
  exists final sides,
    main_pipeline uniform_15 = Ok (final, 35, sides) /\
    wf_image final /\
    width final = width uniform_15 /\ height final = height uniform_15 /\
    0 <= 35 <= 35 /\
    forall X Y, 0 <= X < width uniform_15 -> 0 <= Y < height uniform_15 ->
      peek final X Y = peek uniform_15 X Y \/
      (peek final X Y = pure_red /\
       let x := X - (width uniform_15 - IMAGE_WIDTH) / 2 in
       let y := Y - (height uniform_15 - IMAGE_HEIGHT) / 2 in
       exists n m, ((0 <= n <= 300 /\ n mod 50 = 0) /\
                    (0 <= m <= 200 /\ m mod 50 = 0)) /\
                   (n <= x < n + AREA_SIZE /\ m <= y < m + AREA_SIZE) /\
                   on_border (mkPixel (x - n) (y - m)) = true).
Proof.
  destruct main_pipeline_uniform_15 as (final & sides & E).
  exists final, sides. split; [exact E|].
  apply (main_pipeline_frame uniform_15 final 35 sides); [|exact E].
  apply valid_uniform; [discriminate|discriminate|].
  unfold valid_rgb, valid_channel. simpl. lia.
Defined.

(** X25: when [main] completes on an image with byte channels and
    counts no case, the final image is the original; if moreover the
    original has no pure red pixel, no side is reported. *)
Theorem main_pipeline_no_cases original final sides :
  valid_image original ->
  main_pipeline original = Ok (final, 0, sides) ->
  final = original /\
  ((forall X Y, 0 <= X < width original -> 0 <= Y < height original ->
                peek original X Y <> pure_red) ->
   sides = []).
Proof.
  intros Hv E. pose proof Hv as [Hwf _].
  destruct (main_pipeline_sizes original _ Hwf E) as [HW HH].
  destruct (main_pipeline_stages original Hwf HW HH)
    as (cropped & _ & Hc & [[_ E']|(rh & c & f & s & Efc & Erg & Els & E')]);
    rewrite E' in E; [discriminate E|].
  injection E as -> -> ->.
  pose proof Hc as (Hwfc & Hwc & Hhc & _).
  destruct (highlight_areas_spec cropped Hwfc) as (Hwfg & Hwg & Hhg & _).
  rewrite Hwc in Hwg. rewrite Hhc in Hhg.
  destruct (find_cases_working _ _ _ Hwfg Hwg Hhg Efc)
    as (_ & [_ Hzero] & _).
  rewrite (Hzero eq_refl) in Erg.
  rewrite (remove_green_highlights original cropped Hv HW HH Hc) in Erg.
  injection Erg as <-. split; [done|].
  intros Hnone. rewrite (locate_cases_none original Hnone) in Els.
  by injection Els as <-.
Qed.

Lemma main_pipeline_uniform_95 :
  exists final sides, main_pipeline uniform_95 = Ok (final, 0, sides).
Proof.
  destruct (main_pipeline_stages uniform_95)
    as (cropped & Ec & _ & [[Efc _]|(rh & c & f & s & Efc & _ & _ & E)]).
  - apply wf_working_uniform.
  - reflexivity.
  - reflexivity.
  - rewrite crop_image_working in Ec
      by (apply wf_working_uniform || reflexivity).
    injection Ec as <-. unfold uniform_95 in Efc.
    rewrite highlight_areas_uniform in Efc.
    change (classify (grey 95)) with (grey 95) in Efc.
    pose proof find_cases_uniform_95 as E95. unfold uniform_95 in E95.
    rewrite E95 in Efc. discriminate Efc.
  - rewrite crop_image_working in Ec
      by (apply wf_working_uniform || reflexivity).
    injection Ec as <-. unfold uniform_95 in Efc.
    rewrite highlight_areas_uniform in Efc.
    change (classify (grey 95)) with (grey 95) in Efc.
    pose proof find_cases_uniform_95 as E95. unfold uniform_95 in E95.
    rewrite E95 in Efc. injection Efc as _ <-.
    by exists f, s.
Qed.

Lemma main_pipeline_no_cases_witness :
  exists final sides,
    main_pipeline uniform_95 = Ok (final, 0, sides) /\
    final = uniform_95 /\
    ((forall X Y, 0 <= X < width uniform_95 -> 0 <= Y < height uniform_95 ->
                  peek uniform_95 X Y <> pure_red) ->
     sides = []).
Proof.
  destruct main_pipeline_uniform_95 as (final & sides & E).
  exists final, sides. split; [exact E|].
  apply (main_pipeline_no_cases uniform_95 final sides); [|exact E].
  apply valid_uniform; [discriminate|discriminate|].
  unfold valid_rgb, valid_channel. simpl. lia.
Defined.

(** X26: [main] ends in the division-by-zero error when every pixel
    of the first window of the scan, the top left 100x100 square of the
    centred frame, has a channel mean in the band [210,245]: after
    classification the window holds only candidate markers and has no
    average. *)
Theorem main_pipeline_marked_corner original :
  wf_image original ->
  IMAGE_WIDTH <= width original -> IMAGE_HEIGHT <= height original ->
  (forall x y, 0 <= x < AREA_SIZE -> 0 <= y < AREA_SIZE ->
     let c := peek original (x + (width original - IMAGE_WIDTH) / 2)
                            (y + (height original - IMAGE_HEIGHT) / 2) in
     INTENSITY_MIN <= (red c + green c + blue c) / 3 <= INTENSITY_MAX) ->
  main_pipeline original = Raise ZeroDivisionError.
Proof.
  intros Hwf HW HH Hband.
  destruct (main_pipeline_stages original Hwf HW HH)
    as (cropped & _ & Hc & [[_ E]|(rh & c & f & s & Efc & _)]); [done|].
  destruct Hc as (Hwfc & Hwc & Hhc & Hpc).
  destruct (highlight_areas_spec cropped Hwfc) as (Hwfg & Hwg & Hhg & Hpg).
  rewrite Hwc in Hwg, Hpg. rewrite Hhc in Hhg, Hpg.
  destruct (find_cases_working_error _ Hwfg Hwg Hhg) as [_ Hraise].
  rewrite Hraise in Efc; [discriminate Efc|].
  intros x y Hx Hy. specialize (Hband x y Hx Hy). cbv zeta in Hband.
  rewrite Hpg, Hpc
    by (unfold AREA_SIZE, IMAGE_WIDTH, IMAGE_HEIGHT in *; lia).
  set (c0 := peek original _ _) in *. unfold classify.
  assert ((INTENSITY_MIN <=? (red c0 + green c0 + blue c0) / 3)
          && ((red c0 + green c0 + blue c0) / 3 <=? INTENSITY_MAX) = true) as ->
      by (apply andb_true_iff; rewrite !Z.leb_le; exact Hband).
  done.
Qed.

Lemma main_pipeline_marked_corner_witness :
  main_pipeline (uniform 500 400 (grey 220)) = Raise ZeroDivisionError.
Proof.
  apply (main_pipeline_marked_corner (uniform 500 400 (grey 220))).
  - apply wf_uniform; lia.
  - rewrite width_uniform. unfold IMAGE_WIDTH. lia.
  - rewrite height_uniform. unfold IMAGE_HEIGHT. lia.
  - intros x y Hx Hy. rewrite width_uniform, height_uniform.
    unfold AREA_SIZE, IMAGE_WIDTH, IMAGE_HEIGHT in *.
    change ((500 - 400) / 2) with 50. change ((400 - 300) / 2) with 50.
    rewrite peek_uniform by lia. cbv zeta. simpl.
    change ((220 + 220 + 220) / 3) with 220.
    unfold INTENSITY_MIN, INTENSITY_MAX. lia.
Defined.
End Pipeline.

(** * Hoisting the whole-image average *)

Section Hoisting.
Implicit Types (image : SimpleImage).

Lemma Forall2_mapi {A} (R : A -> A -> Prop) (f : Z -> A -> A) i (l : list A) :
  (forall k a, R a (f k a)) -> Forall2 R l (mapi f i l).
Proof.
  intros Hf. revert i. induction l as [|a l IH]; intros i; simpl.
  - constructor.
  - constructor; [apply Hf|apply IH].
Qed.

Lemma Forall2_mjoin {A} (R : A -> A -> Prop) (rows rows' : list (list A)) :
  Forall2 (Forall2 R) rows rows' -> Forall2 R (mjoin rows) (mjoin rows').
Proof.
  induction 1 as [|row row' rows rows' Hrow _ IH]; simpl.
  - constructor.
  - by apply Forall2_app.
Qed.

(** Merging a ring leaves a colour as it is or makes it pure red. *)
Lemma paint_ring_colours image n m :
  Forall2 (fun c c' => c' = c \/ c' = pure_red)
          (all_colours image) (all_colours (paint_ring image n m)).
Proof.
  rewrite paint_ring_map_xy. unfold all_colours, map_xy. cbn [px].
  apply Forall2_mjoin, Forall2_mapi. intros Y row.
  apply Forall2_mapi. intros X c.
  destruct (painted n m X Y); [by right|by left].
Qed.

(** Repainting in red does not raise the sum of the unmarked greens
    and does not lower their number. *)
Lemma tally_repaint (l l' : list rgb) :
  Forall2 (fun c c' => c' = c \/ c' = pure_red) l l' ->
  Forall (fun c => 0 <= green c) l ->
  (0 <= sumZ (green <$> filter (fun c => green c <> 255) l')
   <= sumZ (green <$> filter (fun c => green c <> 255) l)) /\
  (length (filter (fun c => green c <> 255%Z) l)
   <= length (filter (fun c => green c <> 255%Z) l'))%nat.
Proof.
  induction 1 as [|c c' l l' Hc _ IH]; intros Hpos.
  - simpl. split; [done|lia].
  - apply Forall_cons in Hpos as [Hg Hpos]. specialize (IH Hpos).
    unfold sumZ in *.
    destruct Hc as [->| ->].
    + destruct (decide (green c = 255)) as [E|E].
      * rewrite !(filter_cons_False (fun c => green c <> 255)) by tauto. done.
      * rewrite !(filter_cons_True (fun c => green c <> 255)) by done.
        rewrite !fmap_cons. cbn [foldr length]. lia.
    + rewrite (filter_cons_True (fun c => green c <> 255) pure_red) by done.
      rewrite fmap_cons. cbn [foldr length green pure_red].
      destruct (decide (green c = 255)) as [E|E].
      * rewrite (filter_cons_False (fun c => green c <> 255) c) by tauto. lia.
      * rewrite (filter_cons_True (fun c => green c <> 255) c) by done.
        rewrite fmap_cons. cbn [foldr length]. lia.
Qed.

(** The red ring of a confirmed window can only lower the whole-image
    average. *)
Lemma mean_green_paint_ring image n m a :
  valid_image image -> mean_green image = Ok a ->
  exists a', mean_green (paint_ring image n m) = Ok a' /\ a' <= a.
Proof.
  intros Hv. rewrite !mean_green_unfold. unfold unmarked_greens.
  rewrite !length_fmap.
  destruct (tally_repaint _ _ (paint_ring_colours image n m))
    as [[Hpos Hsum] Hlen].
  { apply Forall_forall. intros c Hc. pose proof Hv as [Hwf _].
    apply (elem_of_colours _ _ Hwf) in Hc as (x & y & Hx & Hy & <-).
    destruct (valid_peek image x y Hv Hx Hy) as (_ & Hg & _).
    unfold valid_channel in Hg. lia. }
  unfold floordiv.
  destruct (Z.eqb_spec
              (Z.of_nat (length (filter (fun c => green c <> 255)
                                        (all_colours image)))) 0) as [|Hk];
    [done|].
  intros [= <-].
  destruct (Z.eqb_spec
              (Z.of_nat (length (filter (fun c => green c <> 255)
                                        (all_colours (paint_ring image n m)))))
              0) as [Hz|Hk']; [lia|].
  eexists. split; [done|].
  etrans; [apply Z.div_le_mono; [lia|exact Hsum]|].
  apply Z.div_le_compat_l; lia.
Qed.

Lemma valid_paint_ring image n m :
  valid_image image -> valid_image (paint_ring image n m).
Proof.
  intros Hv. pose proof Hv as [Hwf _].
  destruct (has_px_paint_ring image n m Hwf) as (Hwfp & Hwp & Hhp & Hpp).
  apply valid_image_pointwise; [done|]. rewrite Hwp, Hhp.
  intros x y Hx Hy. rewrite Hpp by done.
  destruct (painted n m x y); [|by apply valid_peek].
  unfold valid_rgb, valid_channel, pure_red. simpl. lia.
Qed.

(** Every average up to 80 selects the fallback band. *)
Lemma select_band_low b : b <= 80 -> select_band b = (10, 20).
Proof.
  intros Hb. unfold select_band.
  destruct (Z.ltb_spec 80 b); [lia|]. cbn [andb].
  destruct (Z.ltb_spec 130 b); [lia|]. cbn [andb].
  destruct (Z.ltb_spec 105 b); [lia|]. done.
Qed.

Lemma in_band_low i j a : i <= 80 -> j <= 80 -> in_band i a = in_band j a.
Proof. intros Hi Hj. unfold in_band. by rewrite !select_band_low. Qed.

(** While the average stays at or below 80, the rounds with the
    average computed beforehand are the rounds of the scan. *)
Lemma scan_rounds_low (l : list (Z * Z)) image c avg a :
  valid_image image -> avg <= 80 ->
  mean_green image = Ok a -> a <= 80 ->
  for_in l (fun xy st => scan_step_hoisted avg xy.1 xy.2 st) (image, c)
  = for_in l (fun xy st => scan_step xy.1 xy.2 st) (image, c).
Proof.
  revert image c a.
  induction l as [|[n m] l IH]; intros image c a Hv Havg Ea Ha; [done|].
  cbn [for_in fst snd].
  destruct (mean_green (crop image n m)) as [ar|e] eqn:Ear.
  - rewrite (scan_step_eq _ _ _ _ ar a Ear Ea).
    rewrite (scan_step_hoisted_eq _ _ _ _ ar avg Ear).
    rewrite (in_band_low avg a ar Havg Ha).
    destruct (in_band a ar); bind_ok.
    + destruct (mean_green_paint_ring image n m a Hv Ea) as (a' & Ea' & Hle).
      apply (IH _ _ a'); [by apply valid_paint_ring|done|done|lia].
    + by apply (IH _ _ a).
  - unfold scan_step_hoisted, scan_step. rewrite Ear. done.
Qed.

(** When the scan returns the count 0, it returns the image unchanged,
    and computing the average once at the start gives the same. *)
Lemma hoisting_no_case image img' :
  wf_image image ->
  width image = IMAGE_WIDTH -> height image = IMAGE_HEIGHT ->
  find_cases image = Ok (img', 0) ->
  img' = image /\ find_cases_hoisted image = Ok (image, 0).
Proof.
  intros Hwf Hw Hh E.
  assert (offsets_fit (width image) (height image)) as Hfit
      by (rewrite Hw, Hh; apply offsets_fit_working).
  rewrite find_cases_eq in E by done.
  rewrite find_cases_hoisted_eq by done.
  unfold scan in E. apply scan_rounds_zero in E as [_ Hz]; [|done].
  destruct (Hz eq_refl) as (-> & Hne & Hrounds).
  destruct Hne as [avg Havg].
  { rewrite Hw, Hh, scan_offsets_list. intros Hnil. discriminate Hnil. }
  split; [done|]. unfold scan_hoisted. rewrite Havg. bind_ok.
  by apply Hrounds.
Qed.

(** C1 (amended): the whole-image average is recomputed on the image
    that the previous rounds have merged, and the red ring of a
    confirmed window changes it; but it can only lower it.  On every
    400x300 working image with byte channels whose average at the
    start is at most 80 (or which has no average at all), every
    recomputed average selects the fallback band as the first does,
    however many windows are confirmed; and on every such image on
    which no window is confirmed, the image never changes.  In both
    cases computing the average once at the start of the scan gives
    the result of recomputing it for every window: the same image and
    the same count, or the same error. *)
Theorem hoisting_with_stable_band image :
  valid_image image ->
  width image = IMAGE_WIDTH -> height image = IMAGE_HEIGHT ->
  (forall a, get_green_agv image = Ok a -> a <= 80) \/
  (exists img', find_cases image = Ok (img', 0)) ->
  find_cases_hoisted image = find_cases image.
Proof.
  intros Hv Hw Hh Hcases. pose proof Hv as [Hwf _].
  assert (offsets_fit (width image) (height image)) as Hfit
      by (rewrite Hw, Hh; apply offsets_fit_working).
  destruct Hcases as [Hlow|[img' E]].
  - rewrite find_cases_eq, find_cases_hoisted_eq by done.
    rewrite (mean_green_eq image Hwf) in Hlow.
    unfold scan_hoisted, scan.
    destruct (mean_green image) as [a|e] eqn:Ea; bind_ok.
    + pose proof (Hlow a eq_refl) as Ha. by apply (scan_rounds_low _ _ _ _ a).
    + rewrite Hw, Hh, scan_offsets_list. cbn [for_in fst snd].
      assert (scan_step 0 0 (image, 0) = Raise e) as ->; [|done].
      unfold scan_step.
      destruct (mean_green (crop image 0 0)) as [ar|e'] eqn:Ear; bind_ok.
      * by rewrite Ea.
      * apply mean_green_error in Ea as ->.
        by apply mean_green_error in Ear as ->.
  - rewrite E.
    destruct (hoisting_no_case image img' Hwf Hw Hh E) as [-> Eh].
    exact Eh.
Qed.

Lemma mean_green_uniform_15 : mean_green uniform_15 = Ok 15.
Proof. vm_compute. reflexivity. Qed.

(** The image of grey 15 has the average 15, and its scan confirms
    all the 35 windows. *)
Lemma hoisting_with_stable_band_witness :
  find_cases_hoisted uniform_15 = find_cases uniform_15 /\
  snd <$> find_cases uniform_15 = Ok 35.
Proof.
  split.
  - apply (hoisting_with_stable_band uniform_15).
    + apply valid_uniform; [discriminate|discriminate|].
      unfold valid_rgb, valid_channel. simpl. lia.
    + reflexivity.
    + reflexivity.
    + left. intros a.
      rewrite (mean_green_eq uniform_15 (wf_working_uniform (grey 15))).
      rewrite mean_green_uniform_15. intros [= <-]. lia.
  - destruct scan_uniform_15 as (img' & -> & _). reflexivity.
Defined.
End Hoisting.

(** * Remapping the scan of the classified crop *)

Section Remapping.
Implicit Types (original cropped detected final : SimpleImage).

Lemma valid_imageb_true img : valid_imageb img = true -> valid_image img.
Proof.
  unfold valid_imageb. rewrite andb_true_iff, forallb_forall.
  intros [Hwf Hrows]. split; [by apply wf_imageb_true|].
  apply Forall_forall. intros row Hrow%list_elem_of_In.
  specialize (Hrows row Hrow). rewrite forallb_forall in Hrows.
  apply Forall_forall. intros c Hc%list_elem_of_In.
  specialize (Hrows c Hc). cbv beta in Hrows.
  rewrite !andb_true_iff, !Z.leb_le in Hrows.
  unfold valid_rgb, valid_channel. lia.
Qed.

(** Classification as a map over the buffer. *)
Lemma highlight_areas_map_xy img :
  wf_image img ->
  highlight_areas img = map_xy (fun _ _ c => classify c) img.
Proof.
  intros Hwf.
  apply (has_px_eq _ _ (width img) (height img)
           (fun x y => classify (peek img x y))).
  - exact (highlight_areas_spec img Hwf).
  - exact (has_px_map_xy (fun _ _ c => classify c) img Hwf).
Qed.

(** Classification makes no pixel pure red. *)
Lemma classify_not_red c : classify c <> pure_red.
Proof.
  destruct (classify_cases c) as [->|(k & -> & _)]; [done|].
  unfold pure_red. intros [= -> ?]. done.
Qed.

(** The image [remove_green] returns in [main]: the detection image is
    the scan of the classified crop of the original. *)
Lemma remove_green_in_main original cropped detected case_count :
  valid_image original ->
  crop_image original = Ok cropped ->
  find_cases (highlight_areas cropped) = Ok (detected, case_count) ->
  exists final,
    remove_green detected original = Ok final /\
    has_px final (width original) (height original)
      (fun X Y =>
         let x := X - (width original - IMAGE_WIDTH) / 2 in
         let y := Y - (height original - IMAGE_HEIGHT) / 2 in
         if decide ((0 <= x < IMAGE_WIDTH /\ 0 <= y < IMAGE_HEIGHT) /\
                    peek detected x y = pure_red)
         then pure_red else peek original X Y).
Proof.
  intros Hv Ec Efc. pose proof Hv as [Hwf _].
  assert (IMAGE_WIDTH <= width original /\ IMAGE_HEIGHT <= height original)
    as [HW HH].
  { destruct (decide (IMAGE_WIDTH <= width original /\
                      IMAGE_HEIGHT <= height original)) as [|Hsmall]; [done|].
    rewrite crop_image_raise in Ec by lia. discriminate Ec. }
  destruct (crop_image_has_px original Hwf HW HH) as (r & Er & Hc & _).
  rewrite Er in Ec. injection Ec as ->.
  destruct Hc as (Hwfc & Hwc & Hhc & Hpc).
  destruct (highlight_areas_spec cropped Hwfc) as (Hwfg & Hwg & Hhg & Hpg).
  rewrite Hwc in Hwg, Hpg. rewrite Hhc in Hhg, Hpg.
  destruct (find_cases_working _ _ _ Hwfg Hwg Hhg Efc)
    as ((Hwfr & Hwr & Hhr) & _ & Hframe).
  destruct (remove_green_working detected original Hwf Hwr Hhr HW HH)
    as (final & Ef & Hfinal).
  exists final. split; [exact Ef|].
  eapply has_px_ext; [exact Hfinal|].
  intros X Y HX HY. cbv beta zeta. rewrite Hwr, Hhr.
  case_if Hcase.
  - destruct Hcase as [[Hx Hy] Hred].
    destruct (Hframe _ _ Hx Hy) as [Hsame|[Hpure _]].
    + rewrite decide_False.
      * rewrite Hsame in Hred |- *. rewrite Hpg, Hpc in Hred |- * by done.
        replace (X - (width original - IMAGE_WIDTH) / 2
                 + (width original - IMAGE_WIDTH) / 2) with X in * by lia.
        replace (Y - (height original - IMAGE_HEIGHT) / 2
                 + (height original - IMAGE_HEIGHT) / 2) with Y in * by lia.
        apply classify_red; [|done]. by apply valid_peek.
      * intros [_ Hp]. rewrite Hsame, Hpg in Hp by done.
        by apply classify_not_red in Hp.
    + rewrite decide_True by done. done.
  - rewrite decide_False; [done|].
    intros [Hxy Hp]. apply Hcase. split; [done|]. by rewrite Hp.
Qed.

(** C4: in [main] the detection image is the scan of the classified
    crop of the original.  On these inputs [remove_green] returns an
    image of the size of the original that has pure red exactly where
    the detection image has a pure red pixel, at the centring offset,
    and the pixel of the original everywhere else: nothing of a green
    candidate marker, or of any other pixel that is not pure red, shows
    in the result. *)
Theorem remove_green_transfers_red original cropped detected case_count :
  valid_image original ->
  crop_image original = Ok cropped ->
  find_cases (highlight_areas cropped) = Ok (detected, case_count) ->
  exists final,
    remove_green detected original = Ok final /\
    wf_image final /\
    width final = width original /\ height final = height original /\
    forall X Y, 0 <= X < width original -> 0 <= Y < height original ->
      let x := X - (width original - IMAGE_WIDTH) / 2 in
      let y := Y - (height original - IMAGE_HEIGHT) / 2 in
      peek final X Y =
        if decide ((0 <= x < IMAGE_WIDTH /\ 0 <= y < IMAGE_HEIGHT) /\
                   peek detected x y = pure_red)
        then pure_red else peek original X Y.
Proof.
  intros Hv Ec Efc.
  destruct (remove_green_in_main original cropped detected case_count Hv Ec Efc)
    as (final & Ef & Hwf & Hw & Hh & Hpx).
  exists final. split_and!; [done..|]. intros X Y HX HY. by apply Hpx.
Qed.

(** C8: in [main] the detection image is the scan of the classified
    crop of the original, which has at least 400x300 pixels when the
    crop returns.  When such a detection image has no pure red pixel,
    [remove_green] returns the original itself: a pixel of it whose
    red channel is 255 is a white pixel of the original, and is stored
    over that pixel. *)
Theorem remove_green_round_trip original cropped detected case_count :
  valid_image original ->
  crop_image original = Ok cropped ->
  find_cases (highlight_areas cropped) = Ok (detected, case_count) ->
  (forall x y, 0 <= x < IMAGE_WIDTH -> 0 <= y < IMAGE_HEIGHT ->
               peek detected x y <> pure_red) ->
  remove_green detected original = Ok original.
Proof.
  intros Hv Ec Efc Hnone. pose proof Hv as [Hwf _].
  destruct (remove_green_in_main original cropped detected case_count Hv Ec Efc)
    as (final & -> & Hfinal).
  f_equal. eapply has_px_eq; [|by apply has_px_self].
  eapply has_px_ext; [exact Hfinal|].
  intros X Y HX HY. cbv beta zeta.
  case_if Hcase; [|done]. destruct Hcase as [[Hx Hy] Hp].
  by destruct (Hnone _ _ Hx Hy).
Qed.

Lemma peek_speckle c img x y :
  wf_image img -> width img = IMAGE_WIDTH -> height img = IMAGE_HEIGHT ->
  0 <= x -> 0 <= y ->
  peek (speckle c img) x y =
    if decide (x = 310 /\ y = 200) then c
    else if decide (x = 300 /\ y = 200) then white else peek img x y.
Proof.
  intros Hwf Hw Hh Hx Hy. unfold speckle.
  rewrite peek_poke;
    [|by apply wf_poke|rewrite ?width_poke, ?height_poke, ?Hw, ?Hh; done..].
  case_if H1; [done|].
  rewrite peek_poke; [done|done|rewrite ?Hw, ?Hh; done..].
Qed.

Lemma wf_speckle c img : wf_image img -> wf_image (speckle c img).
Proof. intros Hwf. unfold speckle. by do 2 apply wf_poke. Qed.

(** Classification of a speckled image whose other pixels it leaves
    as they are: the speck of grey 220 becomes a candidate marker, the
    white speck stays white. *)
Lemma highlight_areas_speckle img :
  wf_image img -> width img = IMAGE_WIDTH -> height img = IMAGE_HEIGHT ->
  (forall x y, 0 <= x < IMAGE_WIDTH -> 0 <= y < IMAGE_HEIGHT ->
               classify (peek img x y) = peek img x y) ->
  highlight_areas (speckle (grey 220) img) = speckle pure_green img.
Proof.
  intros Hwf Hw Hh Hfix.
  apply (has_px_eq _ _ IMAGE_WIDTH IMAGE_HEIGHT
           (fun x y => if decide (x = 310 /\ y = 200) then pure_green
                       else if decide (x = 300 /\ y = 200) then white
                       else peek img x y)).
  - destruct (highlight_areas_spec _ (wf_speckle (grey 220) img Hwf))
      as (Hwf' & Hw' & Hh' & Hpx).
    change (width (speckle (grey 220) img)) with (width img) in Hw', Hpx.
    change (height (speckle (grey 220) img)) with (height img) in Hh', Hpx.
    rewrite Hw in Hw', Hpx. rewrite Hh in Hh', Hpx.
    split_and!; [done..|].
    intros x y Hx Hy. rewrite Hpx by done.
    rewrite peek_speckle by (done || lia).
    case_if H1; [done|]. case_if H2; [done|]. by apply Hfix.
  - split_and!; [by apply wf_speckle|done..|].
    intros x y Hx Hy. apply peek_speckle; done || lia.
Qed.

Lemma Forall_mjoin {A} (P : A -> Prop) (rows : list (list A)) :
  Forall (Forall P) rows -> Forall P (mjoin rows).
Proof.
  induction 1 as [|row rows Hrow _ IH]; simpl; [constructor|].
  by apply Forall_app.
Qed.

Lemma wf_dark_square : wf_image dark_square.
Proof. apply wf_imageb_true. vm_compute. reflexivity. Qed.

Lemma classify_dark_square x y :
  0 <= x < IMAGE_WIDTH -> 0 <= y < IMAGE_HEIGHT ->
  classify (peek dark_square x y) = peek dark_square x y.
Proof.
  intros Hx Hy.
  assert (Forall (fun c => classify c = c) (mjoin (px dark_square))) as Hall.
  { apply Forall_mjoin. unfold dark_square. cbn [px].
    apply Forall_app. split; apply Forall_replicate.
    - apply Forall_app. split; by apply Forall_replicate.
    - by apply Forall_replicate. }
  rewrite Forall_forall in Hall. apply Hall.
  apply (elem_of_colours _ _ wf_dark_square). by exists x, y.
Qed.

Lemma highlight_areas_speckled_95 :
  highlight_areas speckled_95 = speckle pure_green uniform_95.
Proof.
  apply highlight_areas_speckle; [apply wf_working_uniform|reflexivity..|].
  intros x y Hx Hy. unfold uniform_95. by rewrite peek_uniform.
Qed.

Lemma highlight_areas_speckled_dark :
  highlight_areas speckled_dark = speckle pure_green dark_square.
Proof.
  apply highlight_areas_speckle; [apply wf_dark_square|reflexivity..|].
  apply classify_dark_square.
Qed.

Lemma valid_speckled_95 : valid_image speckled_95.
Proof. apply valid_imageb_true. vm_compute. reflexivity. Qed.

Lemma valid_speckled_dark : valid_image speckled_dark.
Proof. apply valid_imageb_true. vm_compute. reflexivity. Qed.

(** The scan of the classified [speckled_95]: both specks have green
    255 after classification and count in no average; every average
    is 95 and no window is confirmed. *)
Lemma find_cases_speckled_95 :
  find_cases (highlight_areas speckled_95) = Ok (highlight_areas speckled_95, 0).
Proof.
  rewrite highlight_areas_speckled_95.
  rewrite find_cases_eq;
    [|apply wf_speckle, wf_working_uniform|apply offsets_fit_working].
  unfold scan.
  change (width (speckle pure_green uniform_95)) with IMAGE_WIDTH.
  change (height (speckle pure_green uniform_95)) with IMAGE_HEIGHT.
  apply (scan_rounds_unconfirmed _ 95); vm_compute; reflexivity.
Qed.

(** The scan of the classified [speckled_dark]: the window at the
    origin has the average 15 and is confirmed under the fallback band
    of the whole-image average 88; no other window is. *)
Lemma find_cases_speckled_dark :
  find_cases (highlight_areas speckled_dark)
  = Ok (paint_ring (highlight_areas speckled_dark) 0 0, 1).
Proof.
  rewrite highlight_areas_speckled_dark.
  rewrite find_cases_eq;
    [|apply wf_speckle, wf_dark_square|apply offsets_fit_working].
  unfold scan.
  change (width (speckle pure_green dark_square)) with IMAGE_WIDTH.
  change (height (speckle pure_green dark_square)) with IMAGE_HEIGHT.
  rewrite scan_offsets_list, for_in_cons. cbn [fst snd].
  rewrite (scan_step_eq (speckle pure_green dark_square) 0 0 0 15 88);
    [|vm_compute; reflexivity..].
  change (in_band 88 15) with true. bind_ok. change (0 + 1) with 1.
  apply (scan_rounds_unconfirmed _ 88); vm_compute; reflexivity.
Qed.

(** What the two detection images hold: after classification the
    specks are a white pixel, whose red channel is 255, and a candidate
    marker; the scan of [speckled_dark] has painted the ring of the
    window at the origin. *)
Lemma speckled_pixels :
  (peek (highlight_areas speckled_95) 300 200 = white /\
   peek (highlight_areas speckled_95) 310 200 = pure_green) /\
  (peek (paint_ring (highlight_areas speckled_dark) 0 0) 300 200 = white /\
   peek (paint_ring (highlight_areas speckled_dark) 0 0) 310 200 = pure_green /\
   peek (paint_ring (highlight_areas speckled_dark) 0 0) 99 50 = pure_red /\
   peek speckled_dark 99 50 = grey 15).
Proof.
  rewrite highlight_areas_speckled_95, highlight_areas_speckled_dark.
  vm_compute. repeat split.
Qed.

Lemma remove_green_transfers_red_witness :
  exists final,
    remove_green (paint_ring (highlight_areas speckled_dark) 0 0) speckled_dark
    = Ok final /\
    wf_image final /\
    width final = width speckled_dark /\ height final = height speckled_dark /\
    forall X Y, 0 <= X < width speckled_dark -> 0 <= Y < height speckled_dark ->
      let x := X - (width speckled_dark - IMAGE_WIDTH) / 2 in
      let y := Y - (height speckled_dark - IMAGE_HEIGHT) / 2 in
      peek final X Y =
        if decide ((0 <= x < IMAGE_WIDTH /\ 0 <= y < IMAGE_HEIGHT) /\
                   peek (paint_ring (highlight_areas speckled_dark) 0 0) x y
                   = pure_red)
        then pure_red else peek speckled_dark X Y.
Proof.
  apply (remove_green_transfers_red speckled_dark speckled_dark
           (paint_ring (highlight_areas speckled_dark) 0 0) 1).
  - exact valid_speckled_dark.
  - apply crop_image_working; [apply valid_speckled_dark|reflexivity..].
  - exact find_cases_speckled_dark.
Defined.

Lemma remove_green_round_trip_witness :
  remove_green (highlight_areas speckled_95) speckled_95 = Ok speckled_95.
Proof.
  apply (remove_green_round_trip speckled_95 speckled_95
           (highlight_areas speckled_95) 0).
  - exact valid_speckled_95.
  - apply crop_image_working; [apply valid_speckled_95|reflexivity..].
  - exact find_cases_speckled_95.
  - intros x y Hx Hy.
    rewrite highlight_areas_peek; [apply classify_not_red| |exact Hx|exact Hy].
    apply valid_speckled_95.
Defined.
End Remapping.
